(** * Relay server of the Nova Sonic contact center: model and properties

    A shallow embedding of [src/server/src/server.ts] (channel registry,
    websocket handlers, event fan-out, audio re-framing, session reaper,
    shutdown), of [src/server/src/telephony/*.ts] (transport adapters) and of
    the tool registry with its proactive audio injection.

    Asynchronous functions are written in a small monad of resumable
    programs, [prog]: synchronous state accesses, calls into collaborators,
    [await], spawned asynchronous blocks and timers.  An event loop with a
    logical clock runs them: every external stimulus (a connection, a
    message, a settled promise, a timer that is due) is one [event]. *)

From Stdlib Require Import ZArith List String Bool Lia Arith PeanoNat.
From Stdlib.Strings Require Import Byte.
From Stdlib Require Import DecimalString.
Import ListNotations.
Local Open Scope list_scope.
Local Open Scope Z_scope.

Set Implicit Arguments.

(** ** JavaScript [Map] and [Set]: insertion-ordered containers *)

Class KeyEq (K : Type) := {
  keqb : K -> K -> bool;
  keqb_spec : forall a b, reflect (a = b) (keqb a b)
}.

#[export] Instance KeyEq_string : KeyEq string :=
  {| keqb := String.eqb; keqb_spec := String.eqb_spec |}.

#[export] Instance KeyEq_nat : KeyEq nat :=
  {| keqb := Nat.eqb; keqb_spec := Nat.eqb_spec |}.

Section JsMap.
Context {K V : Type} `{KeyEq K}.

(** A [Map<K, V>]: entries in insertion order, keys pairwise distinct. *)
Definition jsmap := list (K * V).

Fixpoint map_get (k : K) (m : jsmap) : option V :=
  match m with
  | [] => None
  | (k', v) :: m' => if keqb k k' then Some v else map_get k m'
  end.

Definition map_has (k : K) (m : jsmap) : bool :=
  match map_get k m with Some _ => true | None => false end.

(** [m.set(k, v)]: an existing key keeps its position. *)
Fixpoint map_set (k : K) (v : V) (m : jsmap) : jsmap :=
  match m with
  | [] => [(k, v)]
  | (k', v') :: m' =>
      if keqb k k' then (k, v) :: m' else (k', v') :: map_set k v m'
  end.

Fixpoint map_delete (k : K) (m : jsmap) : jsmap :=
  match m with
  | [] => []
  | (k', v') :: m' =>
      if keqb k k' then map_delete k m' else (k', v') :: map_delete k m'
  end.

Definition map_keys (m : jsmap) : list K := map fst m.
End JsMap.

Arguments jsmap : clear implicits.

Section JsSet.
Context {K : Type} `{KeyEq K}.

(** A [Set<K>]: members in insertion order, without repetition. *)
Definition jsset := list K.

Definition set_has (k : K) (s : jsset) : bool := existsb (keqb k) s.

Definition set_add (k : K) (s : jsset) : jsset :=
  if set_has k s then s else s ++ [k].

Definition set_delete (k : K) (s : jsset) : jsset :=
  filter (fun k' => negb (keqb k k')) s.
End JsSet.

Arguments jsset : clear implicits.

(** ** Values exchanged with the collaborators *)

Definition socket := nat.   (* a [WebSocket] object *)
Definition session := nat.  (* a [Session] object of the upstream client *)
Definition promise := nat.
Definition timer := nat.

Inductive ReadyState := CONNECTING | OPEN | CLOSING | CLOSED.

Definition is_OPEN (r : ReadyState) : bool :=
  match r with OPEN => true | _ => false end.

(** Thrown values. *)
Inductive exn :=
| JsError (message : string)
| JsTypeError (message : string).

(** [String(error)] *)
Definition String_of (e : exn) : string :=
  match e with
  | JsError m => ("Error: " ++ m)%string
  | JsTypeError m => ("TypeError: " ++ m)%string
  end.

Inductive outcome := Resolved | Rejected (e : exn).

(** The payload of an upstream session event.  [json] is the object as
    text; [content] is what [Buffer.from(data["content"], "base64")]
    decodes to, when the field is there. *)
Record SessionEventData := {
  json : string;
  content : option (list byte)
}.

(** What the server writes to a client socket. *)
Inductive message :=
| MEvent (eventName : string) (data : SessionEventData)
    (* {"event": {<eventName>: {...data}}} *)
| MStreamComplete
    (* {"event": "streamComplete"} *)
| MAudio (chunk : list Z)
    (* a binary frame holding an Int16Array *)
| MSessionReady (text : string) (isNewChannel : bool)
    (* {"event": "sessionReady", "message": text, "isNewChannel": b} *)
| MError (msg details : string).
    (* {"event": "error", "data": {message, details}} *)

(** An inbound client message, seen through the parsers of the handlers:
    [parsed] is [JSON.parse(msg.toString())] (None when it throws), with
    the fields the handlers read. *)
Record inbound_json := {
  audioInputContent : option (list byte);  (* jsonMsg.event.audioInput.content *)
  msgType : option string;                 (* jsonMsg.type *)
  msgData : string                         (* jsonMsg.data *)
}.

Record inbound := {
  raw : list byte;
  parsed : option inbound_json
}.

(** Methods of a [Session]. *)
Inductive session_op :=
| setupPromptStart
| setupSystemPrompt (text : string)
| setupStartAudio
| endAudioContent
| endPrompt
| close
| streamAudio (audio : list byte).

(** Calls into the upstream client and the HTTP servers. *)
Inductive client_call :=
| createStreamSession (sessionId : string)
| initiateSession (sessionId : string) (ws : socket)
| closeSession (sessionId : string)
| sessionCall (s : session) (op : session_op)
| serverClose (https : bool).

(** Handlers given to [session.onEvent]. *)
Inductive listener :=
| LSessionEvent (channelId eventName : string) (isError : bool)
| LStreamComplete (channelId : string)
| LAudioOutput (channelId : string).

(** Everything the server does to the outside, in order. *)
Inductive effect :=
| ESend (ws : socket) (m : message)
| EWsClose (ws : socket)
| ECall (c : client_call)
| EConsole (level text : string)
| EUnhandledRejection (e : exn).

(** The upstream client, [NovaSonicBidirectionalStreamClient]: what the
    server reads from it, and how a call changes it. *)
Class NovaSonicClient (B : Type) := {
  getActiveSessions : B -> list string;
  getLastActivityTime : B -> string -> Z;
  isSessionActive : B -> string -> bool;
  (** [Some e] when [closeSession(id)] throws before it returns *)
  closeSession_throws : B -> string -> option exn;
  (** the client after a call made at time [now] *)
  after_call : Z -> client_call -> B -> B
}.

(** ** Server state and asynchronous programs *)

Section Server.
Context {B : Type} `{NovaSonicClient B}.

(** [BROWSER_ENABLED] and [VONAGE_ENABLED] of the environment. *)
Variables browser_isOn vonage_isOn : bool.

(** The module-level maps of server.ts, the objects they refer to, and
    the trace of effects. *)
Record state := {
  channelStreams : jsmap string session;           (* channelId -> Session *)
  channelClients : jsmap string (jsset socket);    (* channelId -> Set of clients *)
  clientChannels : jsmap socket string;            (* WebSocket -> channelId *)
  readyState : socket -> ReadyState;
  listeners : list (session * string * listener);  (* session.onEvent *)
  bedrockClient : B;
  nextSession : session;
  trace : list effect
}.

Definition with_channelStreams f (s : state) : state :=
  {| channelStreams := f (channelStreams s); channelClients := channelClients s;
     clientChannels := clientChannels s; readyState := readyState s;
     listeners := listeners s; bedrockClient := bedrockClient s;
     nextSession := nextSession s; trace := trace s |}.

Definition with_channelClients f (s : state) : state :=
  {| channelStreams := channelStreams s; channelClients := f (channelClients s);
     clientChannels := clientChannels s; readyState := readyState s;
     listeners := listeners s; bedrockClient := bedrockClient s;
     nextSession := nextSession s; trace := trace s |}.

Definition with_clientChannels f (s : state) : state :=
  {| channelStreams := channelStreams s; channelClients := channelClients s;
     clientChannels := f (clientChannels s); readyState := readyState s;
     listeners := listeners s; bedrockClient := bedrockClient s;
     nextSession := nextSession s; trace := trace s |}.

Definition with_readyState f (s : state) : state :=
  {| channelStreams := channelStreams s; channelClients := channelClients s;
     clientChannels := clientChannels s; readyState := f (readyState s);
     listeners := listeners s; bedrockClient := bedrockClient s;
     nextSession := nextSession s; trace := trace s |}.

Definition with_listeners f (s : state) : state :=
  {| channelStreams := channelStreams s; channelClients := channelClients s;
     clientChannels := clientChannels s; readyState := readyState s;
     listeners := f (listeners s); bedrockClient := bedrockClient s;
     nextSession := nextSession s; trace := trace s |}.

Definition with_bedrockClient f (s : state) : state :=
  {| channelStreams := channelStreams s; channelClients := channelClients s;
     clientChannels := clientChannels s; readyState := readyState s;
     listeners := listeners s; bedrockClient := f (bedrockClient s);
     nextSession := nextSession s; trace := trace s |}.

Definition with_nextSession f (s : state) : state :=
  {| channelStreams := channelStreams s; channelClients := channelClients s;
     clientChannels := clientChannels s; readyState := readyState s;
     listeners := listeners s; bedrockClient := bedrockClient s;
     nextSession := f (nextSession s); trace := trace s |}.

Definition emit (e : effect) (s : state) : state :=
  {| channelStreams := channelStreams s; channelClients := channelClients s;
     clientChannels := clientChannels s; readyState := readyState s;
     listeners := listeners s; bedrockClient := bedrockClient s;
     nextSession := nextSession s; trace := trace s ++ [e] |}.

(** What a suspended program waits for. *)
Inductive wait :=
| WaitOn (p : promise)            (* await p *)
| WaitRace (ps : list promise)    (* await Promise.race(ps) *)
| WaitAll (ps : list promise).    (* await Promise.all(ps) *)

(** Services of the runtime. *)
Inductive sysop : Type -> Type :=
| DateNow : sysop Z
| NewPromise : sysop promise        (* settled by the program itself *)
| ExternalPromise : sysop promise   (* settled by a collaborator *)
| SettlePromise (p : promise) (o : outcome) : sysop unit
| ClearTimeout (t : timer) : sysop unit.

(** Asynchronous programs.  [Act] is a synchronous access to the state,
    [Await] suspends, [Spawn] calls an async function without awaiting it
    (the child runs to its first [Await] at once), [SetTimer] is
    [setTimeout] or, with [repeat], [setInterval]; [Exit] is
    [process.exit]. *)
Inductive prog : Type -> Type :=
| Ret : forall A, A -> prog A
| Throw : forall A, exn -> prog A
| Exit : forall A, Z -> prog A
| Act : forall A X, (state -> X * state) -> (X -> prog A) -> prog A
| Sys : forall A X, sysop X -> (X -> prog A) -> prog A
| Await : forall A, wait -> (outcome -> prog A) -> prog A
| Spawn : forall A, prog unit -> (promise -> prog A) -> prog A
| SetTimer : forall A, Z -> bool -> prog unit -> (timer -> prog A) -> prog A.

Arguments Ret {A} _.
Arguments Throw {A} _.
Arguments Exit {A} _.
Arguments Act {A X} _ _.
Arguments Sys {A X} _ _.
Arguments Await {A} _ _.
Arguments Spawn {A} _ _.
Arguments SetTimer {A} _ _ _ _.

Fixpoint bind {A C : Type} (m : prog A) : (A -> prog C) -> prog C :=
  match m in prog A0 return (A0 -> prog C) -> prog C with
  | Ret a => fun f => f a
  | Throw e => fun _ => Throw e
  | Exit code => fun _ => Exit code
  | Act g k => fun f => Act g (fun x => bind (k x) f)
  | Sys op k => fun f => Sys op (fun x => bind (k x) f)
  | Await w k => fun f => Await w (fun o => bind (k o) f)
  | Spawn child k => fun f => Spawn child (fun p => bind (k p) f)
  | SetTimer ms rep cb k => fun f => SetTimer ms rep cb (fun t => bind (k t) f)
  end.

(** [try { m } catch (error) { h error }].  A spawned block and a timer
    callback are outside the [try]: their failures go to their own
    promise. *)
Fixpoint try_catch {A : Type} (m : prog A) : (exn -> prog A) -> prog A :=
  match m in prog A0 return (exn -> prog A0) -> prog A0 with
  | Ret a => fun _ => Ret a
  | Throw e => fun h => h e
  | Exit code => fun _ => Exit code
  | Act g k => fun h => Act g (fun x => try_catch (k x) h)
  | Sys op k => fun h => Sys op (fun x => try_catch (k x) h)
  | Await w k => fun h => Await w (fun o => try_catch (k o) h)
  | Spawn child k => fun h => Spawn child (fun p => try_catch (k p) h)
  | SetTimer ms rep cb k => fun h => SetTimer ms rep cb (fun t => try_catch (k t) h)
  end.

(** A suspended asynchronous function: what it waits for, how it goes
    on, and the promise it settles when it returns (None for a call
    whose promise nobody holds). *)
Record task := {
  t_wait : wait;
  t_cont : outcome -> prog unit;
  t_result : option promise
}.

Record timer_entry := {
  tm_id : timer;
  tm_due : Z;
  tm_period : option Z;
  tm_callback : prog unit
}.

Record config := {
  st : state;
  pool : list task;
  timers : list timer_entry;
  settled : list (promise * outcome);   (* in the order of settlement *)
  pendingExternal : list promise;
  nextPromise : promise;
  nextTimer : timer;
  now : Z;
  exited : option Z
}.

Definition with_st f (c : config) : config :=
  {| st := f (st c); pool := pool c; timers := timers c; settled := settled c;
     pendingExternal := pendingExternal c; nextPromise := nextPromise c;
     nextTimer := nextTimer c; now := now c; exited := exited c |}.

Definition with_pool f (c : config) : config :=
  {| st := st c; pool := f (pool c); timers := timers c; settled := settled c;
     pendingExternal := pendingExternal c; nextPromise := nextPromise c;
     nextTimer := nextTimer c; now := now c; exited := exited c |}.

Definition with_timers f (c : config) : config :=
  {| st := st c; pool := pool c; timers := f (timers c); settled := settled c;
     pendingExternal := pendingExternal c; nextPromise := nextPromise c;
     nextTimer := nextTimer c; now := now c; exited := exited c |}.

Definition with_now (t : Z) (c : config) : config :=
  {| st := st c; pool := pool c; timers := timers c; settled := settled c;
     pendingExternal := pendingExternal c; nextPromise := nextPromise c;
     nextTimer := nextTimer c; now := t; exited := exited c |}.

Definition with_exited (code : Z) (c : config) : config :=
  {| st := st c; pool := pool c; timers := timers c; settled := settled c;
     pendingExternal := pendingExternal c; nextPromise := nextPromise c;
     nextTimer := nextTimer c; now := now c; exited := Some code |}.

(** A promise settles once; later settlements are ignored. *)
Definition settle (p : promise) (o : outcome) (c : config) : config :=
  {| st := st c; pool := pool c; timers := timers c;
     settled := if map_has p (settled c) then settled c else settled c ++ [(p, o)];
     pendingExternal := set_delete p (pendingExternal c);
     nextPromise := nextPromise c;
     nextTimer := nextTimer c; now := now c; exited := exited c |}.

Definition fresh_promise (external : bool) (c : config) : promise * config :=
  (nextPromise c,
   {| st := st c; pool := pool c; timers := timers c; settled := settled c;
      pendingExternal :=
        if external then pendingExternal c ++ [nextPromise c] else pendingExternal c;
      nextPromise := S (nextPromise c);
      nextTimer := nextTimer c; now := now c; exited := exited c |}).

Definition add_timer (ms : Z) (rep : bool) (cb : prog unit) (c : config)
  : timer * config :=
  (nextTimer c,
   {| st := st c; pool := pool c;
      timers := timers c ++
        [{| tm_id := nextTimer c; tm_due := now c + ms;
            tm_period := if rep then Some ms else None; tm_callback := cb |}];
      settled := settled c; pendingExternal := pendingExternal c;
      nextPromise := nextPromise c;
      nextTimer := S (nextTimer c); now := now c; exited := exited c |}).

Definition remove_timer (t : timer) (c : config) : config :=
  with_timers (filter (fun e => negb (Nat.eqb (tm_id e) t))) c.

Definition sys_exec {X} (op : sysop X) (c : config) : X * config :=
  match op in sysop X0 return X0 * config with
  | DateNow => (now c, c)
  | NewPromise => fresh_promise false c
  | ExternalPromise => fresh_promise true c
  | SettlePromise p o => (tt, settle p o c)
  | ClearTimeout t => (tt, remove_timer t c)
  end.

Inductive status (A : Type) :=
| Finished (a : A)
| Failed (e : exn)
| Exited
| Blocked (w : wait) (k : outcome -> prog A).

Arguments Finished {A} _.
Arguments Failed {A} _.
Arguments Exited {A}.
Arguments Blocked {A} _ _.

(** What happens to an asynchronous function that stops running: it
    settles its promise, or is suspended in the pool. *)
Definition conclude (r : option promise) (s : status unit) (c : config) : config :=
  match s with
  | Finished _ =>
      match r with Some p => settle p Resolved c | None => c end
  | Failed e =>
      match r with
      | Some p => settle p (Rejected e) c
      | None => with_st (emit (EUnhandledRejection e)) c
      end
  | Exited => c
  | Blocked w k =>
      with_pool (fun l => l ++ [{| t_wait := w; t_cont := k; t_result := r |}]) c
  end.

(** Run a program until it returns, throws, exits or suspends. *)
Fixpoint run_sync (A : Type) (p : prog A) (c : config) {struct p}
  : config * status A :=
  match p in prog A0 return config * status A0 with
  | Ret a => (c, Finished a)
  | Throw e => (c, Failed e)
  | Exit code => (with_exited code c, Exited)
  | Act f k =>
      let (x, s') := f (st c) in run_sync (k x) (with_st (fun _ => s') c)
  | Sys op k =>
      let (x, c') := sys_exec op c in run_sync (k x) c'
  | Await w k => (c, Blocked w k)
  | Spawn child k =>
      let (r, c1) := fresh_promise false c in
      let (c2, s) := run_sync child c1 in
      match s with
      | Exited => (c2, Exited)
      | _ => run_sync (k r) (conclude (Some r) s c2)
      end
  | SetTimer ms rep cb k =>
      let (t, c') := add_timer ms rep cb c in run_sync (k t) c'
  end.

Arguments run_sync {A} p c.

(** Start an asynchronous function. *)
Definition start (r : option promise) (p : prog unit) (c : config) : config :=
  let (c', s) := run_sync p c in conclude r s c'.

(** *** Resumption of suspended functions *)

Fixpoint first_settled (ps : list promise) (l : list (promise * outcome))
  : option outcome :=
  match l with
  | [] => None
  | (p, o) :: l' => if set_has p ps then Some o else first_settled ps l'
  end.

Fixpoint first_rejected (ps : list promise) (l : list (promise * outcome))
  : option outcome :=
  match l with
  | [] => None
  | (p, Rejected e) :: l' =>
      if set_has p ps then Some (Rejected e) else first_rejected ps l'
  | (_, Resolved) :: l' => first_rejected ps l'
  end.

(** The outcome a wait resumes with, when it can resume. *)
Definition ready (l : list (promise * outcome)) (w : wait) : option outcome :=
  match w with
  | WaitOn p => map_get p l
  | WaitRace ps => first_settled ps l
  | WaitAll ps =>
      match first_rejected ps l with
      | Some o => Some o
      | None => if forallb (fun p => map_has p l) ps then Some Resolved else None
      end
  end.

Fixpoint find_ready (l : list (promise * outcome)) (ts : list task)
  : option (task * outcome * list task) :=
  match ts with
  | [] => None
  | t :: ts' =>
      match ready l (t_wait t) with
      | Some o => Some (t, o, ts')
      | None =>
          match find_ready l ts' with
          | Some (t', o, rest) => Some (t', o, t :: rest)
          | None => None
          end
      end
  end.

(** Resume suspended functions while one can resume. *)
Fixpoint drain (fuel : nat) (c : config) : config :=
  match fuel with
  | O => c
  | S n =>
      match exited c with
      | Some _ => c
      | None =>
          match find_ready (settled c) (pool c) with
          | None => c
          | Some (t, o, rest) =>
              drain n (start (t_result t) (t_cont t o) (with_pool (fun _ => rest) c))
          end
      end
  end.

Definition quiescent (c : config) : bool :=
  match find_ready (settled c) (pool c) with None => true | Some _ => false end.

(** *** Notation and primitive statements *)

Notation "x <- m ;; k" := (bind m (fun x => k))
  (at level 61, m at next level, right associativity).
Notation "m ;; k" := (bind m (fun _ => k))
  (at level 61, right associativity).

Definition get {X} (f : state -> X) : prog X := Act (fun s => (f s, s)) Ret.
Definition modify (f : state -> state) : prog unit := Act (fun s => (tt, f s)) Ret.
Definition skip : prog unit := Ret tt.

Fixpoint for_each {X} (l : list X) (body : X -> prog unit) : prog unit :=
  match l with
  | [] => skip
  | x :: l' => body x ;; for_each l' body
  end.

Definition console (level text : string) : prog unit :=
  modify (emit (EConsole level text)).

Definition show_nat (n : nat) : string := NilZero.string_of_uint (Nat.to_uint n).

(** [ws.send(m)] *)
Definition ws_send (ws : socket) (m : message) : prog unit :=
  modify (emit (ESend ws m)).

(** [ws.close()]: the socket starts its closing handshake. *)
Definition ws_close (ws : socket) : prog unit :=
  modify (fun s =>
    with_readyState
      (fun rs w =>
         if Nat.eqb w ws
         then match rs w with CLOSED => CLOSED | _ => CLOSING end
         else rs w)
      (emit (EWsClose ws) s)).

(** A call into a collaborator that returns a promise. *)
Definition call (c : client_call) : prog promise :=
  t <- Sys DateNow Ret ;;
  modify (fun s => with_bedrockClient (after_call t c) (emit (ECall c) s)) ;;
  Sys ExternalPromise Ret.

(** How an [await] goes on when its promise is settled. *)
Definition resume (o : outcome) : prog unit :=
  match o with Resolved => Ret tt | Rejected e => Throw e end.

Definition await (p : promise) : prog unit := Await (WaitOn p) resume.
Definition await_race (ps : list promise) : prog unit := Await (WaitRace ps) resume.
Definition await_all (ps : list promise) : prog unit := Await (WaitAll ps) resume.

(** [await session.op()] *)
Definition await_session (s : session) (op : session_op) : prog unit :=
  p <- call (sessionCall s op) ;; await p.

(** [bedrockClient.createStreamSession(id)]: a new [Session] object. *)
Definition createStreamSession_ (id : string) : prog session :=
  t <- Sys DateNow Ret ;;
  Act (fun s =>
         (nextSession s,
          with_nextSession S
            (with_bedrockClient (after_call t (createStreamSession id))
               (emit (ECall (createStreamSession id)) s))))
      Ret.

(** [bedrockClient.closeSession(id)]: throws, or returns a promise. *)
Definition closeSession_ (id : string) : prog promise :=
  thrown <- get (fun s => closeSession_throws (bedrockClient s) id) ;;
  p <- call (closeSession id) ;;
  match thrown with
  | Some e => Throw e
  | None => Ret p
  end.

(** ** server.ts *)

Definition fiveMinsInMs : Z := 5 * 60 * 1000.
Definition cleanupIntervalMs : Z := 60000.

(** The callback of [forEach] in the session cleanup. *)
Definition closeIfInactive (now_ : Z) (sessionId : string) : prog unit :=
  lastActivity <- get (fun s => getLastActivityTime (bedrockClient s) sessionId) ;;
  if now_ - lastActivity >? fiveMinsInMs then
    console "log"
      ("Closing inactive session " ++ sessionId ++ " due to inactivity.") ;;
    try_catch
      (_ <- closeSession_ sessionId ;; skip)
      (fun error =>
         console "error"
           ("Error force closing inactive session " ++ sessionId ++ ": "
            ++ String_of error))
  else skip.

(** The callback of the [setInterval] at the top of the file. *)
Definition sessionCleanup : prog unit :=
  console "log" "Running session cleanup check" ;;
  now_ <- Sys DateNow Ret ;;
  ids <- get (fun s => getActiveSessions (bedrockClient s)) ;;
  for_each ids (closeIfInactive now_).

Definition events_fanned_out : list (string * bool) :=
  [("contentStart", false); ("textOutput", false); ("error", true);
   ("toolUse", false); ("toolResult", false); ("contentEnd", false)]%string.

(** [setUpEventHandlersForChannel]: the [onEvent] registrations. *)
Definition setUpEventHandlersForChannel (sess : session) (channelId : string)
  : prog unit :=
  for_each events_fanned_out (fun '(eventName, isError) =>
    modify (with_listeners (fun l =>
      l ++ [(sess, eventName, LSessionEvent channelId eventName isError)]))) ;;
  modify (with_listeners (fun l =>
    l ++ [(sess, "streamComplete"%string, LStreamComplete channelId)])) ;;
  modify (with_listeners (fun l =>
    l ++ [(sess, "audioOutput"%string, LAudioOutput channelId)])).

(** [channelClients.get(channelId) || new Set()] *)
Definition clients_of (channelId : string) (s : state) : jsset socket :=
  match map_get channelId (channelClients s) with
  | Some clients => clients
  | None => []
  end.

(** [clients.forEach(client => { if (client.readyState === WebSocket.OPEN)
    client.send(m) })] *)
Definition broadcast (clients : jsset socket) (m : message) : prog unit :=
  for_each clients (fun client =>
    rs <- get (fun s => readyState s client) ;;
    if is_OPEN rs then ws_send client m else skip).

(** The handler that [handleSessionEvent] registers. *)
Definition onSessionEvent (channelId eventName : string) (isError : bool)
    (data : SessionEventData) : prog unit :=
  console (if isError then "error" else "debug")
          (eventName ++ " " ++ json data) ;;
  clients <- get (clients_of channelId) ;;
  broadcast clients (MEvent eventName data).

Definition onStreamComplete (channelId : string) : prog unit :=
  console "log" ("Stream completed for channel: " ++ channelId) ;;
  clients <- get (clients_of channelId) ;;
  broadcast clients MStreamComplete.

Definition CHUNK_SIZE_BYTES : nat := 640.
Definition SAMPLES_PER_CHUNK : nat := CHUNK_SIZE_BYTES / 2.

Definition byte_val (b : byte) : Z := Z.of_N (Byte.to_N b).

(** One element of an [Int16Array] over two bytes of a buffer (the
    low byte first). *)
Definition int16_of_bytes (lo hi : byte) : Z :=
  let u := byte_val lo + 256 * byte_val hi in
  if u <? 32768 then u else u - 65536.

(** [new Int16Array(buffer.buffer, buffer.byteOffset, buffer.length / 2)]:
    the length is truncated, so an odd last byte is outside the view. *)
Fixpoint Int16Array_of (buffer : list byte) : list Z :=
  match buffer with
  | lo :: hi :: rest => int16_of_bytes lo hi :: Int16Array_of rest
  | _ => []
  end.

(** [pcmSamples.slice(from, to)] *)
Definition slice {X} (l : list X) (from to : nat) : list X :=
  firstn (to - from) (skipn from l).

(** The [while] loop of the audioOutput handler; [fuel] bounds the
    number of iterations. *)
Fixpoint send_chunks (fuel : nat) (pcmSamples : list Z) (clients : jsset socket)
    (offset : nat) : prog unit :=
  match fuel with
  | O => skip
  | S fuel' =>
      if (offset + SAMPLES_PER_CHUNK <=? List.length pcmSamples)%nat then
        let chunk := slice pcmSamples offset (offset + SAMPLES_PER_CHUNK) in
        broadcast clients (MAudio chunk) ;;
        send_chunks fuel' pcmSamples clients (offset + SAMPLES_PER_CHUNK)%nat
      else skip
  end.

Definition onAudioOutput (channelId : string) (data : SessionEventData)
  : prog unit :=
  clients <- get (clients_of channelId) ;;
  match content data with
  | None =>
      Throw (JsTypeError "The first argument must be of type string")
  | Some buffer =>
      let pcmSamples := Int16Array_of buffer in
      send_chunks (S (List.length pcmSamples)) pcmSamples clients 0%nat
  end.

Definition run_listener (l : listener) (data : SessionEventData) : prog unit :=
  match l with
  | LSessionEvent channelId eventName isError =>
      onSessionEvent channelId eventName isError data
  | LStreamComplete channelId => onStreamComplete channelId
  | LAudioOutput channelId => onAudioOutput channelId data
  end.

(** The session emits [eventName]: its handlers run in the order of
    registration. *)
Definition emit_session_event (sess : session) (eventName : string)
    (data : SessionEventData) : prog unit :=
  ls <- get listeners ;;
  for_each
    (filter (fun '(s', n, _) => Nat.eqb s' sess && String.eqb n eventName) ls)
    (fun '(_, _, l) => run_listener l data).

Definition sendError (ws : socket) (msg details : string) : prog unit :=
  ws_send ws (MError msg details).

Definition systemPrompt : string :=
  "You are Telly, an AI assistant having a voice conversation. Keep responses concise and conversational.
          You must always check what the next script item is, and you must always use the script as a starting
          point to decide what to respond the user and what tools to use. You must always rely on your script 
          to find what to say. You must not change or embellish the script; just present the script to the user,
          and present them with their options if there are any. No matter what the user says, you should start 
          by checking the script. You must not tell the user about the script. You must always present the options
          to the user with numbers. If the script tells you to check your tools, you are then allowed to deviate
          from the script.
          Before every response to the user, you MUST check if you have any messages to pass on to the user.
          ".

(** The rest of the handshake of a new channel, after [setupPromptStart]
    and after [setupSystemPrompt]. *)
Definition handshake_after_systemPrompt (sess : session) : prog bool :=
  await_session sess setupStartAudio ;;
  Ret true.

Definition handshake_after_promptStart (sess : session) : prog bool :=
  await_session sess (setupSystemPrompt systemPrompt) ;;
  handshake_after_systemPrompt sess.

(** The [else] branch of [initializeOrJoinChannel]; its value is
    [isNewChannel]. *)
Definition openNewChannel (ws : socket) (channelId : string) : prog bool :=
  console "log" ("Creating new channel: " ++ channelId) ;;
  sess <- createStreamSession_ channelId ;;
  _ <- call (initiateSession channelId ws) ;;
  modify (with_channelStreams (map_set channelId sess)) ;;
  modify (with_channelClients (map_set channelId [])) ;;
  setUpEventHandlersForChannel sess channelId ;;
  await_session sess setupPromptStart ;;
  handshake_after_promptStart sess.

(** "Add this client to the channel" and "Notify client that connection
      is successful". *)
Definition attachClient (ws : socket) (channelId : string) (isNewChannel : bool)
  : prog unit :=
  clients <- get (fun s => map_get channelId (channelClients s)) ;;
  match clients with
  | None =>
      Throw (JsTypeError "Cannot read properties of undefined (reading 'add')")
  | Some clients =>
      modify (with_channelClients (map_set channelId (set_add ws clients))) ;;
      modify (with_clientChannels (map_set ws channelId)) ;;
      console "log"
        ("Channel " ++ channelId ++ " has "
         ++ show_nat (List.length (set_add ws clients)) ++ " connected clients") ;;
      ws_send ws
        (MSessionReady ("Connected to channel " ++ channelId) isNewChannel)
  end.

(** The [catch] block of [initializeOrJoinChannel]. *)
Definition onJoinFailure (ws : socket) (error : exn) : prog unit :=
  sendError ws "Failed to initialize or join channel" (String_of error) ;;
  ws_close ws.

Definition initializeOrJoinChannel (ws : socket) (channelId : string) : prog unit :=
  try_catch
    (has <- get (fun s => map_has channelId (channelStreams s)) ;;
     isNewChannel <-
       (if has then
          console "log" ("Client joining existing channel: " ++ channelId) ;;
          Ret false
        else openNewChannel ws channelId) ;;
     attachClient ws channelId isNewChannel)
    (onJoinFailure ws).

(** [initializeOrJoinChannel] suspended in the handshake, with [rest] of
    the handshake still to run. *)
Definition join_continuation (rest : prog bool) (ws : socket) (channelId : string)
  : outcome -> prog unit :=
  fun o =>
    try_catch
      (bind (bind (resume o) (fun _ => rest)) (attachClient ws channelId))
      (onJoinFailure ws).

(** *** Transport adapters (telephony/browser.ts, telephony/vonage.ts) *)

Definition browser_tryProcessAudioInput (msg : inbound) (sess : session)
  : prog unit :=
  if negb browser_isOn then skip
  else
    try_catch
      (match parsed msg with
       | None => Throw (JsError "Unexpected token in JSON")
       | Some jsonMsg =>
           match audioInputContent jsonMsg with
           | None =>
               Throw (JsTypeError "Cannot read properties of undefined")
           | Some audioBuffer => await_session sess (streamAudio audioBuffer)
           end
       end)
      (fun _ => skip).

Definition vonage_tryProcessAudioInput (msg : inbound) (sess : session)
  : prog unit :=
  if negb vonage_isOn then skip
  else
    try_catch
      (let audioBuffer := raw msg in
       await_session sess (streamAudio audioBuffer))
      (fun error =>
         console "error"
           ("Error processing Vonage audio data: " ++ String_of error)).

(** The table [novaSonicHandlers] of [tryProcessNovaSonicMessage]. *)
Definition novaSonicHandlers (type_ : string)
  : option (inbound_json -> session -> prog unit) :=
  if String.eqb type_ "promptStart" then
    Some (fun _ sess => await_session sess setupPromptStart)
  else if String.eqb type_ "systemPrompt" then
    Some (fun jsonMsg sess =>
            await_session sess (setupSystemPrompt (msgData jsonMsg)))
  else if String.eqb type_ "audioStart" then
    Some (fun _ sess => await_session sess setupStartAudio)
  else if String.eqb type_ "stopAudio" then
    Some (fun _ sess =>
            await_session sess endAudioContent ;;
            await_session sess endPrompt)
  else None.

Definition tryProcessNovaSonicMessage (msg : inbound) (sess : session)
  : prog unit :=
  try_catch
    (match parsed msg with
     | None => Throw (JsError "Unexpected token in JSON")
     | Some jsonMsg =>
         match msgType jsonMsg with
         | None => skip
         | Some type_ =>
             match novaSonicHandlers type_ with
             | Some handler => handler jsonMsg sess
             | None => skip
             end
         end
     end)
    (fun _ => skip).

(** *** The handlers of one websocket *)

(** [!channelId]: a missing entry or the empty string. *)
Definition falsy (x : option string) : bool :=
  match x with
  | None => true
  | Some id => String.eqb id ""
  end.

Definition handleMessage (ws : socket) (msg : inbound) : prog unit :=
  channelId <- get (fun s => map_get ws (clientChannels s)) ;;
  match channelId with
  | None =>
      sendError ws "Channel not found" "No active channel for this connection"
  | Some channelId =>
      if String.eqb channelId "" then
        sendError ws "Channel not found" "No active channel for this connection"
      else
        sess <- get (fun s => map_get channelId (channelStreams s)) ;;
        match sess with
        | None =>
            sendError ws "Session not found" "No active session for this channel"
        | Some sess =>
            try_catch
              (browser_tryProcessAudioInput msg sess ;;
               vonage_tryProcessAudioInput msg sess ;;
               tryProcessNovaSonicMessage msg sess)
              (fun error =>
                 sendError ws "Error processing message" (String_of error))
        end
  end.

Definition cleanupTimeoutMs : Z := 3000.

(** The async block raced against the timeout in [handleClose]. *)
Definition gracefulCleanup (sess : session) : prog unit :=
  await_session sess endAudioContent ;;
  await_session sess endPrompt ;;
  await_session sess close.

(** The [catch] block of the cleanup in [handleClose]. *)
Definition forceClose (channelId : string) (error : exn) : prog unit :=
  console "error"
    ("Error cleaning up channel " ++ channelId ++ ": " ++ String_of error) ;;
  try_catch
    (_ <- closeSession_ channelId ;;
     console "log" ("Force closed session for channel: " ++ channelId))
    (fun e =>
       console "error"
         ("Failed to force close session for channel "
          ++ channelId ++ ": " ++ String_of e)).

Definition removeChannel (channelId : string) : prog unit :=
  modify (with_channelStreams (map_delete channelId)) ;;
  modify (with_channelClients (map_delete channelId)).

Definition cleanupChannel (channelId : string) (sess : session) : prog unit :=
  try_catch
    (graceful <- Spawn (gracefulCleanup sess) Ret ;;
     timeout <- Sys NewPromise Ret ;;
     _ <- SetTimer cleanupTimeoutMs false
            (Sys (SettlePromise timeout
                    (Rejected (JsError "Session cleanup timeout")))
                 Ret) Ret ;;
     await_race [graceful; timeout] ;;
     console "log" ("Successfully cleaned up channel: " ++ channelId))
    (forceClose channelId).

Definition handleClose (ws : socket) : prog unit :=
  channelId <- get (fun s => map_get ws (clientChannels s)) ;;
  match channelId with
  | None => console "log" "No channel to clean up for this connection"
  | Some channelId =>
      if String.eqb channelId "" then
        console "log" "No channel to clean up for this connection"
      else
        clients <- get (fun s => map_get channelId (channelClients s)) ;;
        match clients with
        | None => skip
        | Some clients =>
            let clients := set_delete ws clients in
            modify (with_channelClients (map_set channelId clients)) ;;
            console "log"
              ("Client disconnected from channel " ++ channelId ++ ", "
               ++ show_nat (List.length clients) ++ " clients remaining") ;;
            (* If this was the last client, clean up the channel *)
            if Nat.eqb (List.length clients) 0 then
              console "log"
                ("Last client left channel " ++ channelId
                 ++ ", cleaning up resources") ;;
              sess <- get (fun s => map_get channelId (channelStreams s)) ;;
              active <- get (fun s => isSessionActive (bedrockClient s) channelId) ;;
              match sess with
              | Some sess => if active then cleanupChannel channelId sess else skip
              | None => skip
              end ;;
              removeChannel channelId
            else skip
        end ;;
        modify (with_clientChannels (map_delete ws))
  end.

(** The handler of [wsInstance.app.ws("/socket", ...)]: [channel] is
    [req.query.channel?.toString()], [uuid] what [uuidv4()] would return. *)
Definition resolve_channel (channel : option string) (uuid : string) : string :=
  if falsy channel then uuid
  else match channel with Some id => id | None => uuid end.

Definition onSocket (ws : socket) (channel : option string) (uuid : string)
  : prog unit :=
  let channelId := resolve_channel channel uuid in
  console "log" ("Client requesting connection to channel: " ++ channelId) ;;
  _ <- Spawn (initializeOrJoinChannel ws channelId) Ret ;;
  skip.

(** *** Shutdown and monitoring *)

Definition forceExitMs : Z := 5000.

(** The [for ... of channelStreams.entries()] loop of the SIGINT handler. *)
Fixpoint closeAllChannels (entries : list (string * session))
    (sessionPromises : list promise) : prog (list promise) :=
  match entries with
  | [] => Ret sessionPromises
  | (channelId, _) :: rest =>
      console "log"
        ("Closing session for channel " ++ channelId ++ " during shutdown") ;;
      p <- closeSession_ channelId ;;
      clients <- get (clients_of channelId) ;;
      for_each clients (fun ws =>
        rs <- get (fun s => readyState s ws) ;;
        if is_OPEN rs then ws_close ws else skip) ;;
      closeAllChannels rest (sessionPromises ++ [p])
  end.

(** The callback of [forceExitTimer]. *)
Definition forceExit : prog unit :=
  console "error" "Forcing server shutdown after timeout" ;;
  Exit 1.

Definition finishShutdown (forceExitTimer : timer) : prog unit :=
  Sys (ClearTimeout forceExitTimer) Ret ;;
  console "log" "Servers shut down" ;;
  Exit 0.

Definition closeServers (forceExitTimer : timer) : prog unit :=
  p1 <- call (serverClose false) ;;
  p2 <- call (serverClose true) ;;
  await_all [p1; p2] ;;
  finishShutdown forceExitTimer.

(** The [catch] block of the SIGINT handler. *)
Definition onShutdownError (error : exn) : prog unit :=
  console "error" ("Error during server shutdown: " ++ String_of error) ;;
  Exit 1.

Definition onSIGINT : prog unit :=
  console "log" "Shutting down servers..." ;;
  forceExitTimer <- SetTimer forceExitMs false forceExit Ret ;;
  try_catch
    (entries <- get channelStreams ;;
     sessionPromises <- closeAllChannels entries [] ;;
     await_all sessionPromises ;;
     closeServers forceExitTimer)
    onShutdownError.

(** The SIGINT handler suspended in one of its two [await]s, with [rest]
    still to run. *)
Definition shutdown_continuation (rest : prog unit) : outcome -> prog unit :=
  fun o => try_catch (bind (resume o) (fun _ => rest)) onShutdownError.

(** One element of the answer of [GET /channels]. *)
Record channel_info := {
  id : string;
  clientCount : nat;
  active : bool
}.

Definition getChannels (s : state) : list channel_info :=
  map (fun '(channelId, clients) =>
         {| id := channelId;
            clientCount := List.length (clients : jsset socket);
            active := isSessionActive (bedrockClient s) channelId |})
      (channelClients s).

(** What the module does when it is loaded. *)
Definition main : prog unit :=
  _ <- SetTimer cleanupIntervalMs true sessionCleanup Ret ;; skip.

(** ** The event loop *)

Inductive stimulus :=
| Connection (ws : socket) (channel : option string) (uuid : string)
| Message (ws : socket) (msg : inbound)
| SocketClosed (ws : socket)
| Upstream (sess : session) (eventName : string) (data : SessionEventData)
| Settled (p : promise) (o : outcome)
| TimerDue (t : timer)
| SIGINT
| SocketState (ws : socket) (rs : ReadyState)
| ClientState (b : B).

(** A stimulus and the time (ms) at which it happens. *)
Record event := {
  at_ms : Z;
  what : stimulus
}.

Definition microtask_budget (c : config) : nat := (2 * List.length (pool c) + 4)%nat.

Definition find_timer (t : timer) (c : config) : option timer_entry :=
  find (fun e => Nat.eqb (tm_id e) t) (timers c).

(** A timer fires at its due time; an interval is armed again. *)
Definition fire (e : timer_entry) (c : config) : config :=
  let c1 := remove_timer (tm_id e) c in
  let c2 :=
    match tm_period e with
    | Some ms =>
        with_timers (fun l =>
          l ++ [{| tm_id := tm_id e; tm_due := tm_due e + ms;
                   tm_period := Some ms; tm_callback := tm_callback e |}]) c1
    | None => c1
    end in
  start None (tm_callback e) c2.

Definition react (w : stimulus) (c : config) : config :=
  match w with
  | Connection ws channel uuid =>
      start None (onSocket ws channel uuid)
        (with_st (with_readyState
           (fun rs w' => if Nat.eqb w' ws then OPEN else rs w')) c)
  | Message ws msg => start None (handleMessage ws msg) c
  | SocketClosed ws =>
      start None (handleClose ws)
        (with_st (with_readyState
           (fun rs w' => if Nat.eqb w' ws then CLOSED else rs w')) c)
  | Upstream sess eventName data =>
      start None (emit_session_event sess eventName data) c
  | Settled p o =>
      if set_has p (pendingExternal c) then settle p o c else c
  | TimerDue t =>
      match find_timer t c with
      | Some e => fire e c
      | None => c
      end
  | SIGINT => start None onSIGINT c
  | SocketState ws rs =>
      with_st (with_readyState
        (fun f w' => if Nat.eqb w' ws then rs else f w')) c
  | ClientState b => with_st (with_bedrockClient (fun _ => b)) c
  end.

(** An event can happen when the process runs, time does not go back, no
    timer is overdue, and a timer fires exactly when it is due. *)
Definition enabled (ev : event) (c : config) : bool :=
  match exited c with
  | Some _ => false
  | None =>
      (now c <=? at_ms ev)
      && forallb (fun e => at_ms ev <=? tm_due e) (timers c)
      && match what ev with
         | TimerDue t =>
             match find_timer t c with
             | Some e => tm_due e =? at_ms ev
             | None => false
             end
         | _ => true
         end
  end.

(** One turn of the event loop: the reaction to the stimulus, then the
    functions it lets resume.  An event that cannot happen is skipped. *)
Definition step (c : config) (ev : event) : config :=
  if enabled ev c then
    let c' := react (what ev) (with_now (at_ms ev) c) in
    drain (microtask_budget c') c'
  else c.

Definition run (evs : list event) (c : config) : config := fold_left step evs c.

Definition initial_state (b : B) : state :=
  {| channelStreams := []; channelClients := []; clientChannels := [];
     readyState := fun _ => CLOSED; listeners := []; bedrockClient := b;
     nextSession := O; trace := [] |}.

Definition idle (s : state) (t : Z) : config :=
  {| st := s; pool := []; timers := []; settled := []; pendingExternal := [];
     nextPromise := O; nextTimer := O; now := t; exited := None |}.

(** The process after start-up, at time [t]. *)
Definition boot (b : B) (t : Z) : config := start None main (idle (initial_state b) t).
End Server.

Arguments Ret {B A} _.
Arguments Throw {B A} _.
Arguments Exit {B A} _.
Arguments Act {B A X} _ _.
Arguments Sys {B A X} _ _.
Arguments Await {B A} _ _.
Arguments Spawn {B A} _ _.
Arguments SetTimer {B A} _ _ _ _.
Arguments Finished {B A} _.
Arguments Failed {B A} _.
Arguments Exited {B A}.
Arguments Blocked {B A} _ _.
Arguments run_sync {B A} p c.

(** ** A reference upstream client *)

(** Modelled from the spec: [client.ts] is not among the sources.  The
    client keeps the active sessions with their last-activity timestamp
    (spec section 3); [createStreamSession] registers a session, a call on
    a session is activity, [closeSession] and [session.close] end it.
    [sc_close_throws] lists the ids for which [closeSession] throws. *)
Record SpecClient := {
  sc_sessions : jsmap string Z;
  sc_objects : jsmap session string;
  sc_created : session;
  sc_close_throws : list string
}.

Definition sc_after_call (t : Z) (c : client_call) (b : SpecClient) : SpecClient :=
  match c with
  | createStreamSession sid =>
      {| sc_sessions := map_set sid t (sc_sessions b);
         sc_objects := map_set (sc_created b) sid (sc_objects b);
         sc_created := S (sc_created b);
         sc_close_throws := sc_close_throws b |}
  | closeSession sid =>
      if set_has sid (sc_close_throws b) then b
      else
        {| sc_sessions := map_delete sid (sc_sessions b);
           sc_objects := sc_objects b;
           sc_created := sc_created b;
           sc_close_throws := sc_close_throws b |}
  | sessionCall s op =>
      match map_get s (sc_objects b) with
      | Some sid =>
          if map_has sid (sc_sessions b) then
            {| sc_sessions :=
                 match op with
                 | close => map_delete sid (sc_sessions b)
                 | _ => map_set sid t (sc_sessions b)
                 end;
               sc_objects := sc_objects b;
               sc_created := sc_created b;
               sc_close_throws := sc_close_throws b |}
          else b
      | None => b
      end
  | _ => b
  end.

#[export] Instance SpecClient_client : NovaSonicClient SpecClient := {|
  getActiveSessions b := map_keys (sc_sessions b);
  getLastActivityTime b sid :=
    match map_get sid (sc_sessions b) with Some t => t | None => 0 end;
  isSessionActive b sid := map_has sid (sc_sessions b);
  closeSession_throws b sid :=
    if set_has sid (sc_close_throws b)
    then Some (JsError "closeSession failed") else None;
  after_call := sc_after_call
|}.

Definition sc_empty : SpecClient :=
  {| sc_sessions := []; sc_objects := []; sc_created := O; sc_close_throws := [] |}.

(** ** The tool registry and the proactive audio injection *)

Module Tools.

(** A settled promise of an async function. *)
Inductive completion (A : Type) :=
| Returned (a : A)
| Thrown (e : exn).
Arguments Returned {A} _.
Arguments Thrown {A} _.

(** The properties that the tools read from the value of
    [JSON.parse(toolUseContent.content)]: [affectsAllUserDevices] as its
    truth value, [latitude] and [longitude] as the template literal of
    the url prints them ("undefined" for a value without the property). *)
Record tool_input := {
  affectsAllUserDevices : bool;
  latitude : string;
  longitude : string
}.

(** [JSON.parse(toolUseContent.content)] *)
Inductive json_input :=
| NotJSON                        (* the text is not JSON: a SyntaxError *)
| JSONNull                       (* null: no property of it can be read *)
| JSONValue (input : tool_input).

Record toolUseContent := {
  promptName : string;
  content : json_input
}.

Inductive tool_result :=
| RContent (text : string)            (* { content: text } *)
| RWeather (weather_data : string)    (* { weather_data: ... } *)
| REmpty                              (* {} *)
| RString (text : string)             (* a string, not an object *)
| RClient.                            (* the object [client] itself *)

(** The events that the injection writes to the socket; [audio] is the
    byte string whose base64 text is the [content] field. *)
Inductive ws_event :=
| contentStart (promptName : string) (contentName : option string)
| audioInput (promptName : string) (contentName : option string) (audio : list byte)
| contentEnd (promptName : string) (contentName : option string).

(** What a tool leaves behind for later: [setTimeout] callbacks. *)
#[warnings="-register-all"]
Inductive action :=
| Push (message : string)                    (* messagesList.push(message) *)
| TriggerSonic (message : string)            (* triggerSonic(..., message) *)
| SendWs (e : ws_event)                      (* ws.send(JSON.stringify(e)) *)
| After (ms : Z) (callback : list action).   (* setTimeout(callback, ms) *)

Record run_of (A : Type) := {
  result : A;
  sent : list ws_event;      (* written to the socket before returning *)
  deferred : list action     (* timers armed before returning *)
}.
Arguments result {A} _.
Arguments sent {A} _.
Arguments deferred {A} _.

Definition hardcodedSessionId : string := "a8c43fa3-cb29-4625-9fad-7a5589b19ca6".
Definition chunkSize : nat := 1024.

(** The bytes of an [Int16Array] element. *)
Definition byte_of_Z (z : Z) : byte :=
  match Byte.of_N (Z.to_N z) with Some b => b | None => x00 end.

Definition bytes_of_int16 (v : Z) : list byte :=
  let u := v mod 65536 in [byte_of_Z (u mod 256); byte_of_Z (u / 256)].

Definition bytes_of_Int16Array (a : list Z) : list byte :=
  flat_map bytes_of_int16 a.

(** The inner [for] loop of [triggerSonic]: it runs over the offsets of
    the whole audio again and sends the same event each time. *)
Fixpoint send_per_offset (fuel : nat) (e : ws_event) (len i : nat) : list ws_event :=
  match fuel with
  | O => []
  | S fuel' =>
      if (i <? len)%nat then e :: send_per_offset fuel' e len (i + chunkSize)%nat
      else []
  end.

(** The body of the outer [for] loop of [triggerSonic] for the chunk at
    [i]: the chunk goes through an [Int16Array] and back to bytes. *)
Definition chunk_payload (audioBytes : list byte) (i : nat) : list byte :=
  let end_ := Nat.min (i + chunkSize) (List.length audioBytes) in
  let chunk := slice audioBytes i end_ in
  let pcmData := Int16Array_of chunk in
  bytes_of_Int16Array pcmData.

Definition chunk_events (promptName : string) (contentName : option string)
    (audioBytes : list byte) (i : nat) : list ws_event :=
  let base64Data := chunk_payload audioBytes i in
  send_per_offset (List.length audioBytes)
    (audioInput promptName contentName base64Data) (List.length audioBytes) O.

Fixpoint stream_chunks (fuel : nat) (promptName : string)
    (contentName : option string) (audioBytes : list byte) (i : nat)
  : list ws_event :=
  match fuel with
  | O => []
  | S fuel' =>
      if (i <? List.length audioBytes)%nat then
        chunk_events promptName contentName audioBytes i
        ++ stream_chunks fuel' promptName contentName audioBytes (i + chunkSize)%nat
      else []
  end.

(** [triggerSonic], after [await synthesizeSpeech(message)] returned
    [audioData] (None: the synthesis gave nothing).  [contentNames] is
    [client.contentNames]. *)
Definition triggerSonic (contentNames : jsmap string string)
    (toolUse : toolUseContent) (audioData : option (list byte))
  : run_of unit :=
  let contentName := map_get hardcodedSessionId contentNames in
  let start_ := contentStart (promptName toolUse) contentName in
  match audioData with
  | Some audioBytes =>
      {| result := tt;
         sent := start_
                 :: stream_chunks (List.length audioBytes) (promptName toolUse)
                      contentName audioBytes O;
         deferred :=
           [After 1000 [SendWs (contentEnd (promptName toolUse) contentName)]] |}
  | None => {| result := tt; sent := [start_]; deferred := [] |}
  end.

Definition connection_message : string :=
  "I've reviewed your connection status and detected that in the last 24 hours there were some problems registering your equipment on the network. This could have affected your service quality. To better understand what happened, I'm going to check if any specific outages were recorded that could have impacted your connection. Before we continue, can I verify that you're still there?".

(** [messagesList.toString()] *)
Definition toString (l : list string) : string := String.concat "," l.

Section Functions.
(** [fetch(url)] followed by [response.json()]. *)
Variable fetch_json : string -> completion string.

Definition tool_function :=
  toolUseContent -> list string -> run_of (completion tool_result).

Definition done (r : completion tool_result) : run_of (completion tool_result) :=
  {| result := r; sent := []; deferred := [] |}.

Definition check_messages : tool_function := fun toolUse messagesList =>
  done (Returned (RContent
    ("The following messages are for the assistant to pass on to the user: ["
     ++ toString messagesList ++ "]"))).

Definition check_connection : tool_function := fun toolUse messagesList =>
  {| result := Returned (RContent
       "I'm reviewing your connection status now, including anything that may have affected it.");
     sent := [];
     deferred :=
       [After 5000
          [Push connection_message;
           After 3000 [TriggerSonic "Do you have any messages for me?"]]] |}.

Definition check_for_outage : tool_function := fun toolUse messagesList =>
  match content toolUse with
  | NotJSON => done (Thrown (JsError "Unexpected token in JSON"))
  | JSONNull =>
      done (Thrown (JsTypeError
        "Cannot destructure property 'affectsAllUserDevices' of 'JSON.parse(...)' as it is null."))
  | JSONValue input =>
      if affectsAllUserDevices input then
        done (Returned (RContent
          "I confirmed that there's a massive outage in your area that's affecting your internet service. You can manage your service continuity pack through the MiPersonal app or website, as long as you meet the requirements. We'll notify you when service is restored. Do you want a copy of all the information I just said to be sent to you via SMS?"))
      else
        let inner := check_connection toolUse messagesList in
        {| result := Returned (RContent
             "I checked, and I couldn't find any evidence of an outage in your area. I'm going to check if your connection had any issues in the past 24 hours. Please wait a moment");
           sent := sent inner;
           deferred := deferred inner |}
  end.

Definition get_weather : tool_function := fun toolUse messagesList =>
  match content toolUse with
  | NotJSON => done (Thrown (JsError "Unexpected token in JSON"))
  | JSONNull =>
      done (Thrown (JsTypeError
        "Cannot destructure property 'latitude' of 'JSON.parse(...)' as it is null."))
  | JSONValue input =>
      let url :=
        ("https://api.open-meteo.com/v1/forecast?latitude=" ++ latitude input
         ++ "&longitude=" ++ longitude input ++ "&current_weather=true")%string in
      match fetch_json url with
      | Returned weatherData => done (Returned (RWeather weatherData))
      | Thrown error => done (Thrown error)    (* logged, then thrown again *)
      end
  end.

(** The object [functions]: its own properties. *)
Definition functions (name : string) : option tool_function :=
  if String.eqb name "check_messages" then Some check_messages
  else if String.eqb name "check_connection" then Some check_connection
  else if String.eqb name "check_for_outage" then Some check_for_outage
  else if String.eqb name "get_weather" then Some get_weather
  else None.

(** A [<tool>] element of the XML text, as the DOM parser gives it. *)
Record tool_element := {
  tool_id : string;
  tool_function_name : string
}.

(** What [functions] inherits: it is an object literal, so a name that is
    not one of its own properties is looked up in [Object.prototype]. *)
Inductive inherited :=
| ObjectConstructor    (* constructor: the function [Object] *)
| ObjectToString       (* toString *)
| ObjectMethod         (* a method that starts by converting [this] to an object *)
| ObjectPrototype.     (* __proto__: the prototype itself, not a function *)

Definition Object_prototype (name : string) : option inherited :=
  if String.eqb name "constructor" then Some ObjectConstructor
  else if String.eqb name "toString" then Some ObjectToString
  else if existsb (String.eqb name)
            ["toLocaleString"%string; "valueOf"%string;
             "hasOwnProperty"%string; "isPrototypeOf"%string;
             "propertyIsEnumerable"%string;
             "__defineGetter__"%string; "__defineSetter__"%string;
             "__lookupGetter__"%string; "__lookupSetter__"%string]
  then Some ObjectMethod
  else if String.eqb name "__proto__" then Some ObjectPrototype
  else None.

(** [functions[functionName]] *)
Inductive property :=
| Own (func : tool_function)
| Inherited (member : inherited)
| Undefined.

Definition functions_get (functionName : string) : property :=
  match functions functionName with
  | Some func => Own func
  | None =>
      match Object_prototype functionName with
      | Some member => Inherited member
      | None => Undefined
      end
  end.

(** [func(client, ws, toolUseContent, messagesList)] for an inherited
    [func]: the call has no [this].  [Object(client, ...)] returns its
    first argument, [toString] names the missing [this], the other
    methods throw a TypeError when they convert it, and the prototype
    cannot be called at all (the wording of the messages is the engine's). *)
Definition call_inherited (member : inherited) : completion tool_result :=
  match member with
  | ObjectConstructor => Returned RClient
  | ObjectToString => Returned (RString "[object Undefined]")
  | ObjectMethod => Thrown (JsTypeError "Cannot convert undefined or null to object")
  | ObjectPrototype => Thrown (JsTypeError "func is not a function")
  end.

(** The static [execute] of the class that [parseToolsFromXML] makes
    for one element. *)
Definition ToolClass_execute (functionName : string) : tool_function :=
  fun toolUse messagesList =>
    match functions_get functionName with
    | Own func => func toolUse messagesList
    | Inherited member => done (call_inherited member)
    | Undefined => done (Returned REmpty)
    end.

(** The [<tool>] elements of the XML text of the module. *)
Definition registeredTools : list tool_element :=
  [ {| tool_id := "check_messages"; tool_function_name := "check_messages" |};
    {| tool_id := "check_connection"; tool_function_name := "check_connection" |};
    {| tool_id := "check_for_outage"; tool_function_name := "check_for_outage" |};
    {| tool_id := "get_weather"; tool_function_name := "get_weather" |} ].

(** [ToolRegistry]: the map [tools] after [registerXMLTools] over the
    given tool classes. *)
Definition registerXMLTools (classes : list tool_element)
  : jsmap string tool_function :=
  fold_left
    (fun tools ToolClass =>
       map_set (tool_id ToolClass)
               (ToolClass_execute (tool_function_name ToolClass)) tools)
    classes [].

(** [ToolRegistry.execute] *)
Definition execute (tools : jsmap string tool_function) (messagesList : list string)
    (toolName : string) (toolUse : toolUseContent)
  : run_of (completion tool_result) :=
  match map_get toolName tools with
  | None => done (Thrown (JsError ("Tool " ++ toolName ++ " not supported")))
  | Some handler => handler toolUse messagesList
  end.
End Functions.
End Tools.

(** ** Observations on traces *)

(** The messages written to one socket, in order. *)
Fixpoint sends_to (ws : socket) (l : list effect) : list message :=
  match l with
  | [] => []
  | ESend w m :: l' => if Nat.eqb w ws then m :: sends_to ws l' else sends_to ws l'
  | _ :: l' => sends_to ws l'
  end.

(** All the writes to sockets, in order. *)
Fixpoint sends (l : list effect) : list (socket * message) :=
  match l with
  | [] => []
  | ESend w m :: l' => (w, m) :: sends l'
  | _ :: l' => sends l'
  end.

(** The calls into the collaborators, in order. *)
Fixpoint calls (l : list effect) : list client_call :=
  match l with
  | [] => []
  | ECall c :: l' => c :: calls l'
  | _ :: l' => calls l'
  end.

(** The sockets on which [close()] was called, in order. *)
Fixpoint closes (l : list effect) : list socket :=
  match l with
  | [] => []
  | EWsClose w :: l' => w :: closes l'
  | _ :: l' => closes l'
  end.

(** The audio frames among messages, as bytes on the wire. *)
Fixpoint audio_frames (l : list message) : list (list byte) :=
  match l with
  | [] => []
  | MAudio chunk :: l' => Tools.bytes_of_Int16Array chunk :: audio_frames l'
  | _ :: l' => audio_frames l'
  end.

(** What was added to the trace between two configurations. *)
Definition effects_since {B} (c c' : @config B) : list effect :=
  skipn (List.length (trace (st c))) (trace (st c')).

(** Several effects at once. *)
Definition emit_all {B} (l : list effect) (s : @state B) : state :=
  {| channelStreams := channelStreams s; channelClients := channelClients s;
     clientChannels := clientChannels s; readyState := readyState s;
     listeners := listeners s; bedrockClient := bedrockClient s;
     nextSession := nextSession s; trace := trace s ++ l |}.

(** The chunks that the loop of the audioOutput handler cuts, as a list. *)
Fixpoint frames_from (fuel : nat) (pcmSamples : list Z) (offset : nat)
  : list (list Z) :=
  match fuel with
  | O => []
  | S fuel' =>
      if (offset + SAMPLES_PER_CHUNK <=? List.length pcmSamples)%nat then
        slice pcmSamples offset (offset + SAMPLES_PER_CHUNK)
        :: frames_from fuel' pcmSamples (offset + SAMPLES_PER_CHUNK)%nat
      else []
  end.

Definition pcm_frames (buffer : list byte) : list (list Z) :=
  let pcmSamples := Int16Array_of buffer in
  frames_from (S (List.length pcmSamples)) pcmSamples O.

(** The clients of a channel whose socket is open. *)
Definition open_clients {B} (channelId : string) (s : @state B) : list socket :=
  filter (fun ws => is_OPEN (readyState s ws)) (clients_of channelId s).

(** The texts written with [console.error], in order. *)
Fixpoint console_errors (l : list effect) : list string :=
  match l with
  | [] => []
  | EConsole level text :: l' =>
      if String.eqb level "error" then text :: console_errors l' else console_errors l'
  | _ :: l' => console_errors l'
  end.

(** A session is idle at [now_] when its last activity is more than five
    minutes old. *)
Definition idle_session {B} `{NovaSonicClient B} (now_ : Z) (b : B) (sessionId : string)
  : bool :=
  now_ - getLastActivityTime b sessionId >? fiveMinsInMs.

(** The configuration after a call into a collaborator: the call is in
    the trace, the client has seen it, and its promise is pending. *)
Definition called {B} `{NovaSonicClient B} (cc : client_call) (c : @config B) : config :=
  snd (fresh_promise true
         (with_st (fun s => with_bedrockClient (after_call (now c) cc) (emit (ECall cc) s))
                  c)).

(** What the cleanup pass does for one session of the snapshot. *)
Definition cleanup_effects {B} `{NovaSonicClient B} (now_ : Z) (b : B)
    (sessionId : string) : list effect :=
  if idle_session now_ b sessionId then
    [EConsole "log" ("Closing inactive session " ++ sessionId ++ " due to inactivity.");
     ECall (closeSession sessionId)]
    ++ match closeSession_throws b sessionId with
       | Some e =>
           [EConsole "error"
              ("Error force closing inactive session " ++ sessionId ++ ": "
               ++ String_of e)]
       | None => []
       end
  else [].

(** The audio payloads among the events of the injection, in order. *)
Fixpoint audio_payloads (l : list Tools.ws_event) : list (list byte) :=
  match l with
  | [] => []
  | Tools.audioInput _ _ audio :: l' => audio :: audio_payloads l'
  | _ :: l' => audio_payloads l'
  end.

(** The number of offsets [i, i + 1024, ...] below [len]. *)
Definition offsets_from (len i : nat) : nat := ((len - i + 1023) / 1024)%nat.

(** ** Suspended handlers *)

(** The async block of the cleanup, suspended in its first, second or
    third [await]. *)
Definition graceful_continuation {B} `{NovaSonicClient B} (stage : nat) (sess : session)
  : outcome -> @prog B unit :=
  match stage with
  | 1%nat =>
      fun o => bind (resume o)
                 (fun _ => bind (await_session sess endPrompt)
                             (fun _ => await_session sess close))
  | 2%nat => fun o => bind (resume o) (fun _ => await_session sess close)
  | _ => resume
  end.

(** [handleClose], suspended in [await Promise.race(...)]. *)
Definition close_continuation {B} `{NovaSonicClient B} (ws : socket) (channelId : string)
  : outcome -> @prog B unit :=
  fun o =>
    bind
      (bind
         (try_catch
            (bind (resume o)
               (fun _ => console "log" ("Successfully cleaned up channel: " ++ channelId)))
            (forceClose channelId))
         (fun _ => removeChannel channelId))
      (fun _ => modify (with_clientChannels (map_delete ws))).

(** ** Scenarios and their description *)

(** The environment alone acts: a promise is settled or a timer is due. *)
Definition env_only {B} (ev : @event B) : Prop :=
  match what ev with
  | Settled _ _ | TimerDue _ => True
  | _ => False
  end.

(** The operations called on one session, in order. *)
Fixpoint session_ops (sess : session) (l : list effect) : list session_op :=
  match l with
  | [] => []
  | ECall (sessionCall s op) :: l' =>
      if Nat.eqb s sess then op :: session_ops sess l' else session_ops sess l'
  | _ :: l' => session_ops sess l'
  end.

(** The number of [closeSession(id)] calls. *)
Fixpoint closeSession_count (sid : string) (l : list effect) : nat :=
  match l with
  | [] => O
  | ECall (closeSession sid') :: l' =>
      if String.eqb sid' sid then S (closeSession_count sid l')
      else closeSession_count sid l'
  | _ :: l' => closeSession_count sid l'
  end.

(** *** The teardown of a channel, in the words of the specification

    After the last client left: the graceful sequence (end audio content,
    end prompt, close) advances one step per resolved operation, under a
    timer of 3000 ms; a rejected operation or the timer ends it by force;
    in both ways the channel ends removed. *)
Inductive teardown_phase :=
| Graceful (step_ : nat)        (* waiting for operation 1, 2 or 3 *)
| Removed (forced : bool).

Record teardown_view := {
  tv_now : Z;
  tv_armed : bool;              (* the timer has not fired yet *)
  tv_phase : teardown_phase
}.

(** The promise of the [k]-th operation, in a process that was idle. *)
Definition awaited_promise (k : nat) : promise :=
  match k with 1%nat => 1%nat | 2%nat => 3%nat | _ => 4%nat end.

Definition teardown_react {B} (t0 : Z) (v : teardown_view) (ev : @event B)
  : teardown_view :=
  if (tv_now v <=? at_ms ev)
     && (negb (tv_armed v) || (at_ms ev <=? t0 + 3000)) then
    match what ev with
    | TimerDue t =>
        if tv_armed v && Nat.eqb t 0 && (at_ms ev =? t0 + 3000) then
          {| tv_now := at_ms ev; tv_armed := false;
             tv_phase := match tv_phase v with
                         | Graceful _ => Removed true
                         | ph => ph
                         end |}
        else v
    | Settled p o =>
        {| tv_now := at_ms ev; tv_armed := tv_armed v;
           tv_phase :=
             match tv_phase v with
             | Graceful k =>
                 if Nat.eqb p (awaited_promise k) then
                   match o with
                   | Resolved => if Nat.eqb k 3 then Removed false else Graceful (S k)
                   | Rejected _ => Removed true
                   end
                 else Graceful k
             | ph => ph
             end |}
    | _ => v
    end
  else v.

Definition teardown_spec {B} (t0 : Z) (evs : list (@event B)) : teardown_view :=
  fold_left (teardown_react t0) evs
    {| tv_now := t0; tv_armed := true; tv_phase := Graceful 1 |}.

(** *** The configurations of a teardown in a process that was idle *)

Definition graceful_ops : list session_op := [endAudioContent; endPrompt; close].

Definition teardown_timer {B} (t0 : Z) : @timer_entry B :=
  {| tm_id := O; tm_due := t0 + cleanupTimeoutMs; tm_period := None;
     tm_callback :=
       Sys (SettlePromise 2%nat (Rejected (JsError "Session cleanup timeout"))) Ret |}.

Definition graceful_task {B} `{NovaSonicClient B} (k : nat) (p : promise) (sess : session)
  : @task B :=
  {| t_wait := WaitOn p;
     t_cont := graceful_continuation k sess;
     t_result := Some O |}.

Definition close_task {B} `{NovaSonicClient B} (ws : socket) (ch : string) : @task B :=
  {| t_wait := WaitRace [0%nat; 2%nat];
     t_cont := close_continuation ws ch;
     t_result := None |}.

(** The graceful sequence waits for its [k]-th operation. *)
Definition teardown_pending {B} `{NovaSonicClient B} (k : nat) (s : @state B)
    (t0 tnow : Z) (ws : socket) (ch : string) (sess : session) : config :=
  {| st := s;
     pool := match k with
             | 1%nat => [graceful_task 1 (awaited_promise 1) sess; close_task ws ch]
             | _ => [close_task ws ch; graceful_task k (awaited_promise k) sess]
             end;
     timers := [teardown_timer t0];
     settled := match k with
                | 1%nat => []
                | 2%nat => [(1%nat, Resolved)]
                | _ => [(1%nat, Resolved); (3%nat, Resolved)]
                end;
     pendingExternal := [awaited_promise k];
     nextPromise := match k with 1%nat => 3%nat | 2%nat => 4%nat | _ => 5%nat end;
     nextTimer := 1%nat; now := tnow; exited := None |}.

Definition pending_state {B} (s0 : @state B) (ch : string) (sess : session) (k : nat)
    (s : @state B) : Prop :=
  map_has ch (channelStreams s) = true
  /\ map_has ch (channelClients s) = true
  /\ exists l,
       trace s = trace s0 ++ l
       /\ session_ops sess l = firstn k graceful_ops
       /\ closeSession_count ch l = O.

(** The channel is removed; the async block may still be suspended. *)
Definition teardown_done {B} `{NovaSonicClient B} (s0 : @state B) (t0 : Z) (ws : socket)
    (ch : string) (sess : session) (forced : bool) (c : @config B) : Prop :=
  exited c = None
  /\ (timers c = [] \/ timers c = [teardown_timer t0])
  /\ map_get ch (channelStreams (st c)) = None
  /\ map_get ch (channelClients (st c)) = None
  /\ map_get ws (clientChannels (st c)) = None
  /\ exists l k,
       trace (st c) = trace s0 ++ l
       /\ closeSession_count ch l = (if forced then 1 else 0)%nat
       /\ session_ops sess l = firstn k graceful_ops
       /\ (1 <= k <= 3)%nat
       /\ (forced = false -> k = 3%nat)
       /\ (pool c = [] \/ exists p, pool c = [graceful_task k p sess]).

(** How the configuration matches the description of the teardown. *)
Definition teardown_rel {B} `{NovaSonicClient B} (s0 : @state B) (t0 : Z) (ws : socket)
    (ch : string) (sess : session) (v : teardown_view) (c : @config B) : Prop :=
  now c = tv_now v
  /\ match tv_phase v with
     | Graceful k =>
         (1 <= k <= 3)%nat /\ tv_armed v = true /\ tv_now v <= t0 + 3000
         /\ exists s,
              c = teardown_pending k s t0 (tv_now v) ws ch sess
              /\ pending_state s0 ch sess k s
     | Removed f =>
         teardown_done s0 t0 ws ch sess f c
         /\ (if tv_armed v
             then timers c = [teardown_timer t0] /\ tv_now v <= t0 + 3000
             else timers c = [])
     end.

(** The configuration after the [catch] block of the cleanup and the
    removal of the channel. *)
Definition force_closed {B} `{NovaSonicClient B} (ws : socket) (ch : string) (e : exn)
    (c : @config B) : config :=
  with_st
    (fun s =>
       with_clientChannels (map_delete ws)
         (with_channelClients (map_delete ch)
            (with_channelStreams (map_delete ch)
               (emit
                  (match closeSession_throws (bedrockClient (st c)) ch with
                   | Some e' =>
                       EConsole "error"
                         ("Failed to force close session for channel "
                          ++ ch ++ ": " ++ String_of e')
                   | None =>
                       EConsole "log" ("Force closed session for channel: " ++ ch)
                   end) s))))
    (called (closeSession ch)
       (with_st
          (emit (EConsole "error"
                   ("Error cleaning up channel " ++ ch ++ ": " ++ String_of e)))
          c)).

(** The configuration after a cleanup that succeeded and the removal of
    the channel. *)
Definition gracefully_closed {B} (ws : socket) (ch : string) (c : @config B) : config :=
  with_st
    (fun s =>
       with_clientChannels (map_delete ws)
         (with_channelClients (map_delete ch)
            (with_channelStreams (map_delete ch)
               (emit (EConsole "log" ("Successfully cleaned up channel: " ++ ch)) s))))
    c.

(** *** The configurations of a shutdown in a process that was idle *)

Definition exit_timer {B} (t0 : Z) : @timer_entry B :=
  {| tm_id := O; tm_due := t0 + forceExitMs; tm_period := None;
     tm_callback := forceExit |}.

Definition shutdown_task {B} `{NovaSonicClient B} (ps : list promise) (rest : @prog B unit)
  : @task B :=
  {| t_wait := WaitAll ps; t_cont := shutdown_continuation rest; t_result := None |}.

Definition all_resolved (l : list (promise * outcome)) (ps : list promise) : Prop :=
  Forall (fun p => map_get p l = Some Resolved) ps.

(** The sockets of the clients of the given channels that are open. *)
Definition open_sockets {B} (s : @state B) (chs : list string) : list socket :=
  flat_map (fun ch => filter (fun ws => is_OPEN (readyState s ws)) (clients_of ch s)) chs.

(** [n] more promises of collaborators are pending. *)
Definition allocated {B} (n : nat) (c : @config B) : config :=
  {| st := st c; pool := pool c; timers := timers c; settled := settled c;
     pendingExternal := pendingExternal c ++ seq (nextPromise c) n;
     nextPromise := (nextPromise c + n)%nat;
     nextTimer := nextTimer c; now := now c; exited := exited c |}.

(** What holds all along a shutdown that began at [t0] in an idle process
    with state [s0]: the first calls are [closeCalls], the sockets closed
    are [closed], the clock has not passed the bound, and the process has
    exited or waits, under the exit timer, for the sessions or for the
    servers. *)
Definition shutdown_inv {B} `{NovaSonicClient B} (s0 : @state B) (t0 : Z)
    (closeCalls : list client_call) (closed : list socket) (c : @config B) : Prop :=
  let n := List.length closeCalls in
  (exists l,
      trace (st c) = trace s0 ++ l
      /\ firstn n (calls l) = closeCalls
      /\ (forall ws, In ws (closes l) <-> In ws closed))
  /\ now c <= t0 + 5000
  /\ match exited c with
     | Some code =>
         (code = 0 \/ code = 1)
         /\ (code = 0 -> all_resolved (settled c) (seq 0 (n + 2)%nat))
     | None =>
         timers c = [exit_timer t0]
         /\ ((pool c = [shutdown_task (seq 0 n) (closeServers 0%nat)]
              /\ nextPromise c = n)
             \/ (pool c = [shutdown_task [n; S n] (finishShutdown 0%nat)]
                 /\ all_resolved (settled c) (seq 0 n)))
     end.

(** *** The configurations while clients join one new channel *)

Definition handshake_ops : list session_op :=
  [setupPromptStart; setupSystemPrompt systemPrompt; setupStartAudio].

(** The sockets that connect in a run. *)
Definition joiners {B} (evs : list (@event B)) : list socket :=
  flat_map (fun ev => match what ev with Connection ws _ _ => [ws] | _ => [] end) evs.

(** A client connects to the channel [ch], or a promise is resolved. *)
Definition joins_or_resolves {B} (ch : string) (ev : @event B) : Prop :=
  match what ev with
  | Connection _ channel uuid => resolve_channel channel uuid = ch
  | Settled _ o => o = Resolved
  | _ => False
  end.

(** The events come in the order of their times, from [t] on. *)
Fixpoint chronological {B} (t : Z) (evs : list (@event B)) : Prop :=
  match evs with
  | [] => True
  | ev :: evs' => t <= at_ms ev /\ chronological (at_ms ev) evs'
  end.

(** What is left of the handshake after [k] of its steps. *)
Definition handshake_rest {B} `{NovaSonicClient B} (k : nat) (sess : session) : @prog B bool :=
  match k with
  | 0%nat => handshake_after_promptStart sess
  | 1%nat => handshake_after_systemPrompt sess
  | _ => Ret true
  end.

(** The first joiner, suspended on the promise [p] of step [k] of the
    handshake. *)
Definition join_task {B} `{NovaSonicClient B} (k : nat) (p : promise) (sess : session)
    (ws : socket) (ch : string) : @task B :=
  {| t_wait := WaitOn p;
     t_cont := join_continuation (handshake_rest k sess) ws ch;
     t_result := Some 0%nat |}.

(** What can be seen of a channel [ch] opened by [ws1] on the session
    [sess], when [k] steps of the handshake are resolved and the sockets
    [joined] have connected since: [done] are the effects so far, [s0] the
    state before and [s] the state now. *)
Definition joined_view {B} (s0 : @state B) (ws1 : socket) (ch : string) (sess : session)
    (joined : list socket) (k : nat) (s : @state B) (done : list effect) : Prop :=
  let text := ("Connected to channel " ++ ch)%string in
  calls done
  = createStreamSession ch :: initiateSession ch ws1
    :: map (sessionCall sess) (firstn (S k) handshake_ops)
  /\ channelStreams s = map_set ch sess (channelStreams s0)
  /\ (forall ws, In ws (clients_of ch s) <-> In ws joined \/ (k = 3%nat /\ ws = ws1))
  /\ (forall ws, In ws joined ->
        map_get ws (clientChannels s) = Some ch
        /\ sends_to ws done = [MSessionReady text false])
  /\ sends_to ws1 done = (if Nat.eqb k 3 then [MSessionReady text true] else [])
  /\ (k = 3%nat -> map_get ws1 (clientChannels s) = Some ch).

(** The same with what the event loop holds. *)
Definition join_inv {B} `{NovaSonicClient B} (s0 : @state B) (ws1 : socket) (ch : string)
    (joined : list socket) (k : nat) (p : promise) (c : @config B) : Prop :=
  let sess := nextSession s0 in
  (exists l,
      trace (st c) = trace s0 ++ l
      /\ joined_view s0 ws1 ch sess joined k (st c) l
      /\ (forall ws, ~ In ws (ws1 :: joined) -> sends_to ws l = []))
  /\ (exists cl, map_get ch (channelClients (st c)) = Some cl)
  /\ exited c = None
  /\ timers c = []
  /\ (forall q, In q (map fst (settled c)) -> (q < nextPromise c)%nat)
  /\ (forall q, In q (pendingExternal c) -> (q < nextPromise c)%nat)
  /\ (k <= 3)%nat
  /\ if Nat.eqb k 3 then pool c = []
     else pool c = [join_task k p sess ws1 ch]
          /\ In p (pendingExternal c)
          /\ map_get p (settled c) = None.

(** The configuration after the promise the first joiner waits for is
    rejected. *)
Definition join_failed {B} `{NovaSonicClient B} (ws1 : socket) (p : promise) (e : exn)
    (t : Z) (c : @config B) : config :=
  settle 0%nat Resolved
    (with_st (fun s =>
       with_readyState
         (fun rs w =>
            if Nat.eqb w ws1
            then match rs w with CLOSED => CLOSED | _ => CLOSING end
            else rs w)
         (emit (EWsClose ws1)
            (emit (ESend ws1 (MError "Failed to initialize or join channel"
                                (String_of e))) s)))
       (with_pool (fun _ => []) (settle p (Rejected e) (with_now t c)))).

(** ** Scenarios *)

(** The scenarios run the server against the reference client. *)
Definition at_ (t : Z) (w : @stimulus SpecClient) : @event SpecClient :=
  {| at_ms := t; what := w |}.

(** A client opens the channel "abc" one second after start-up and the
    three steps of the handshake are resolved. *)
Definition joined_abc : @config SpecClient :=
  run false false
    [at_ 1000 (Connection 1%nat (Some "abc"%string) "uuid-1"%string);
     at_ 1010 (Settled 2%nat Resolved);
     at_ 1020 (Settled 3%nat Resolved);
     at_ 1030 (Settled 4%nat Resolved)]
    (boot sc_empty 0).

(** Nothing happens on "abc" for six minutes: six ticks of the cleanup. *)
Definition reaped_abc : @config SpecClient :=
  run false false
    (map (fun k => at_ (60000 * k) (TimerDue 0%nat)) [1; 2; 3; 4; 5; 6])
    joined_abc.

(** One channel, "abc", with the clients 1 and 2, both open. *)
Definition two_clients : @state SpecClient :=
  {| channelStreams := [("abc"%string, 0%nat)];
     channelClients := [("abc"%string, [1%nat; 2%nat])];
     clientChannels := [(1%nat, "abc"%string); (2%nat, "abc"%string)];
     readyState := fun _ => OPEN;
     listeners := [];
     bedrockClient :=
       {| sc_sessions := [("abc"%string, 0)]; sc_objects := [(0%nat, "abc"%string)];
          sc_created := 1%nat; sc_close_throws := [] |};
     nextSession := 1%nat;
     trace := [] |}.

(** One channel, "abc", with its last client. *)
Definition last_client : @state SpecClient :=
  {| channelStreams := [("abc"%string, 0%nat)];
     channelClients := [("abc"%string, [1%nat])];
     clientChannels := [(1%nat, "abc"%string)];
     readyState := fun _ => OPEN;
     listeners := [];
     bedrockClient :=
       {| sc_sessions := [("abc"%string, 0)]; sc_objects := [(0%nat, "abc"%string)];
          sc_created := 1%nat; sc_close_throws := [] |};
     nextSession := 1%nat;
     trace := [] |}.

(** Two channels: "abc", last active at time 0, with the open client 1, and
    "xyz", last active at 390000, with the client 2, which is closing. *)
Definition two_channels : @state SpecClient :=
  {| channelStreams := [("abc"%string, 0%nat); ("xyz"%string, 1%nat)];
     channelClients := [("abc"%string, [1%nat]); ("xyz"%string, [2%nat])];
     clientChannels := [(1%nat, "abc"%string); (2%nat, "xyz"%string)];
     readyState := fun ws => if Nat.eqb ws 1 then OPEN else CLOSING;
     listeners := [];
     bedrockClient :=
       {| sc_sessions := [("abc"%string, 0); ("xyz"%string, 390000)];
          sc_objects := [(0%nat, "abc"%string); (1%nat, "xyz"%string)];
          sc_created := 2%nat; sc_close_throws := [] |};
     nextSession := 2%nat;
     trace := [] |}.

(** A message that is not JSON. *)
Definition not_json : inbound := {| raw := [x7b]; parsed := None |}.

(** A tool use whose content is not JSON, one whose content is the text
    null, and a network that is down. *)
Definition bad_tool_use : Tools.toolUseContent :=
  {| Tools.promptName := "prompt-1"; Tools.content := Tools.NotJSON |}.

Definition null_tool_use : Tools.toolUseContent :=
  {| Tools.promptName := "prompt-1"; Tools.content := Tools.JSONNull |}.

Definition weather_tool_use : Tools.toolUseContent :=
  {| Tools.promptName := "prompt-1";
     Tools.content :=
       Tools.JSONValue
         {| Tools.affectsAllUserDevices := false;
            Tools.latitude := "48.85"; Tools.longitude := "2.35" |} |}.

Definition offline (url : string) : Tools.completion string :=
  Tools.Thrown (JsError "fetch failed").

(** Other clients connect to "abc" while its handshake goes on. *)
Definition more_joiners : list (@event SpecClient) :=
  [at_ 1 (Connection 2%nat (Some "abc"%string) "uuid-2"%string);
   at_ 2 (Settled 2%nat Resolved);
   at_ 3 (Connection 3%nat (Some "abc"%string) "uuid-3"%string)].

(** The three steps of a graceful teardown are resolved. *)
Definition graceful_steps : list (@event SpecClient) :=
  [at_ 10 (Settled 1%nat Resolved);
   at_ 20 (Settled 3%nat Resolved);
   at_ 30 (Settled 4%nat Resolved)].

(** The sessions and then the servers are closed. *)
Definition all_closed : list (@event SpecClient) :=
  [at_ 5 (Settled 0%nat Resolved);
   at_ 6 (Settled 1%nat Resolved);
   at_ 8 (Settled 2%nat Resolved);
   at_ 9 (Settled 3%nat Resolved)].

(** ** The life of an asynchronous function *)

(** [lives p c l r]: the asynchronous function [p], called in the
    configuration [c], ends as [r] (it returns, throws or exits) after the
    effects [l].  Each time it is suspended it goes on in whatever
    configuration the other handlers have made by then, with whatever
    outcome the promise it waits for has. *)
Inductive lives {B : Type} {A : Type}
  : @prog B A -> @config B -> list effect -> @status B A -> Prop :=
| lives_end p c c' r :
    run_sync p c = (c', r) ->
    match r with Blocked _ _ => False | _ => True end ->
    lives p c (effects_since c c') r
| lives_on p c c' w k o c2 l r :
    run_sync p c = (c', Blocked w k) ->
    lives (k o) c2 l r ->
    lives p c (effects_since c c' ++ l) r.

(** No [throw] of the program can leave it: every one is inside a [try]
    whose [catch] does not throw. *)
Fixpoint never_throws {B : Type} {A : Type} (p : @prog B A) : Prop :=
  match p with
  | Ret _ => True
  | Throw _ => False
  | Exit _ => True
  | Act _ k => forall x, never_throws (k x)
  | Sys _ k => forall x, never_throws (k x)
  | Await _ k => forall o, never_throws (k o)
  | Spawn _ k => forall r, never_throws (k r)
  | SetTimer _ _ _ k => forall t, never_throws (k t)
  end.

(** The program does not call [process.exit]. *)
Fixpoint never_exits {B : Type} {A : Type} (p : @prog B A) : Prop :=
  match p with
  | Ret _ => True
  | Throw _ => True
  | Exit _ => False
  | Act _ k => forall x, never_exits (k x)
  | Sys _ k => forall x, never_exits (k x)
  | Await _ k => forall o, never_exits (k o)
  | Spawn child k => never_exits child /\ forall r, never_exits (k r)
  | SetTimer _ _ _ k => forall t, never_exits (k t)
  end.

(** The program writes to no socket: its accesses to the state only add
    effects that are not writes, and so do the async blocks it calls. *)
Fixpoint never_sends {B : Type} {A : Type} (p : @prog B A) : Prop :=
  match p with
  | Ret _ => True
  | Throw _ => True
  | Exit _ => True
  | Act f k =>
      (forall s, exists l, trace (snd (f s)) = trace s ++ l /\ sends l = [])
      /\ forall x, never_sends (k x)
  | Sys _ k => forall x, never_sends (k x)
  | Await _ k => forall o, never_sends (k o)
  | Spawn child k => never_sends child /\ forall r, never_sends (k r)
  | SetTimer _ _ _ k => forall t, never_sends (k t)
  end.

(** *** What a message asks of the session *)

(** The audio that the browser adapter and the Vonage adapter stream for a
    message, and the session operations of a control message. *)
Definition browser_audio (isOn : bool) (msg : inbound) : list session_op :=
  if isOn then
    match parsed msg with
    | Some jsonMsg =>
        match audioInputContent jsonMsg with
        | Some audioBuffer => [streamAudio audioBuffer]
        | None => []
        end
    | None => []
    end
  else [].

Definition vonage_audio (isOn : bool) (msg : inbound) : list session_op :=
  if isOn then [streamAudio (raw msg)] else [].

Definition control_ops (msg : inbound) : list session_op :=
  match parsed msg with
  | Some jsonMsg =>
      match msgType jsonMsg with
      | Some type_ =>
          if String.eqb type_ "promptStart" then [setupPromptStart]
          else if String.eqb type_ "systemPrompt" then
            [setupSystemPrompt (msgData jsonMsg)]
          else if String.eqb type_ "audioStart" then [setupStartAudio]
          else if String.eqb type_ "stopAudio" then [endAudioContent; endPrompt]
          else []
      | None => []
      end
  | None => []
  end.

(** [lives_by p c os l r]: a life of [p] in which the promises that it
    waited for had the outcomes [os], in the order of its [await]s. *)
Inductive lives_by {B : Type} {A : Type}
  : @prog B A -> @config B -> list outcome -> list effect -> @status B A -> Prop :=
| lives_by_end p c c' r :
    run_sync p c = (c', r) ->
    match r with Blocked _ _ => False | _ => True end ->
    lives_by p c [] (effects_since c c') r
| lives_by_on p c c' w k o c2 os l r :
    run_sync p c = (c', Blocked w k) ->
    lives_by (k o) c2 os l r ->
    lives_by p c (o :: os) (effects_since c c' ++ l) r.

(** The calls that [await a(); await b(); ...] makes when the promises of
    the calls have the outcomes [os]: the first one, and each next one
    when the promise of the one before it is resolved. *)
Fixpoint awaited_calls (ops : list session_op) (os : list outcome)
  : list session_op :=
  match ops with
  | [] => []
  | op :: ops' =>
      op :: match os with
            | Resolved :: os' => awaited_calls ops' os'
            | _ => []
            end
  end.

(** The configuration of a teardown during which a client joined the
    channel: the promise of its [initializeOrJoinChannel] is resolved. *)
Definition teardown_joined {B} `{NovaSonicClient B} (k : nat) (s : @state B)
    (t0 tnow : Z) (ws : socket) (ch : string) (sess : session) : config :=
  let c := teardown_pending k s t0 tnow ws ch sess in
  {| st := s; pool := pool c; timers := timers c;
     settled := settled c ++ [(nextPromise c, Resolved)];
     pendingExternal := pendingExternal c;
     nextPromise := S (nextPromise c); nextTimer := 1%nat; now := tnow;
     exited := None |}.

(** *** A shutdown whose promises are resolved *)

(** Promises that resolve, each at its time. *)
Definition resolutions {B} (tps : list (Z * promise)) : list (@event B) :=
  map (fun tp => {| at_ms := fst tp; what := Settled (snd tp) Resolved |}) tps.

(** A shutdown that began at [t0] has made the calls [done], and no
    promise was rejected. *)
Definition shutdown_base {B} (s0 : @state B) (t0 : Z) (done : list client_call)
    (c : @config B) : Prop :=
  exited c = None
  /\ timers c = [exit_timer t0]
  /\ Forall (fun po => snd po = Resolved) (settled c)
  /\ (forall p, map_has p (settled c) = true -> (p < nextPromise c)%nat)
  /\ (forall p, In p (pendingExternal c) -> (p < nextPromise c)%nat)
  /\ exists l, trace (st c) = trace s0 ++ l /\ calls l = done.

(** The SIGINT handler waits for all of [ps], of which one at least is
    pending, and then goes on with [rest]. *)
Definition shutdown_waiting {B} `{NovaSonicClient B} (s0 : @state B) (t0 : Z)
    (ps : list promise) (rest : @prog B unit) (done : list client_call)
    (c : @config B) : Prop :=
  shutdown_base s0 t0 done c
  /\ pool c = [shutdown_task ps rest]
  /\ (forall p, In p ps -> map_has p (settled c) = false -> In p (pendingExternal c))
  /\ forallb (fun p => map_has p (settled c)) ps = false.

(** The three phases of a shutdown in which nothing is rejected: the
    handler waits for the sessions, then for the two servers, and then
    the process has exited with code 0. *)
Definition shutdown_phase {B} `{NovaSonicClient B} (s0 : @state B) (t0 : Z)
    (closeCalls : list client_call) (k : nat) (c : @config B) : Prop :=
  let n := List.length closeCalls in
  let allCalls := closeCalls ++ [serverClose false; serverClose true] in
  match k with
  | 0%nat =>
      shutdown_waiting s0 t0 (seq 0 n) (closeServers 0%nat) closeCalls c
      /\ nextPromise c = n
  | 1%nat =>
      shutdown_waiting s0 t0 [n; S n] (finishShutdown 0%nat) allCalls c
      /\ forallb (fun p => map_has p (settled c)) (seq 0 n) = true
  | _ =>
      exited c = Some 0
      /\ timers c = []
      /\ forallb (fun p => map_has p (settled c)) (seq 0 n) = true
      /\ exists l, trace (st c) = trace s0 ++ l /\ calls l = allCalls
  end.

(** The promises that the handler waits for in a phase. *)
Definition shutdown_awaited (n k : nat) : list promise :=
  match k with
  | 0%nat => seq 0 n
  | 1%nat => [n; S n]
  | _ => []
  end.

(** *** The registries of channels *)

(** [channelStreams] and [channelClients] have the same keys. *)
Definition registries_agree {B} (s : @state B) : Prop :=
  forall ch, map_has ch (channelStreams s) = map_has ch (channelClients s).

(** [maintains p Q s]: when [p] runs from the state [s], the state in
    which it returns, throws or is suspended satisfies [Q]; the state in
    which it exits has the registries agree; and whenever it is resumed
    later, in a state in which the registries agree, they agree again when
    it next stops.  A spawned function stops where its caller goes on; a
    timer callback starts in a state in which the registries agree. *)
Fixpoint maintains {B A} (p : @prog B A) (Q : @state B -> Prop) (s : @state B)
  : Prop :=
  match p with
  | Ret _ => Q s
  | Throw _ => Q s
  | Exit _ => registries_agree s
  | Act f k => maintains (k (fst (f s))) Q (snd (f s))
  | Sys _ k => forall x, maintains (k x) Q s
  | Await _ k =>
      Q s /\ forall o s', registries_agree s' ->
                          maintains (k o) registries_agree s'
  | Spawn child k => maintains child (fun s' => forall r, maintains (k r) Q s') s
  | SetTimer _ _ cb k =>
      (forall s', registries_agree s' -> maintains cb registries_agree s')
      /\ forall t, maintains (k t) Q s
  end.

(** A program that leaves the two registries as they are. *)
Fixpoint steady {B A} (p : @prog B A) : Prop :=
  match p with
  | Ret _ => True
  | Throw _ => True
  | Exit _ => True
  | Act f k =>
      (forall s, channelStreams (snd (f s)) = channelStreams s
                 /\ channelClients (snd (f s)) = channelClients s)
      /\ forall x, steady (k x)
  | Sys _ k => forall x, steady (k x)
  | Await _ k => forall o, steady (k o)
  | Spawn child k => steady child /\ forall r, steady (k r)
  | SetTimer _ _ cb k => steady cb /\ forall t, steady (k t)
  end.

(** Every suspended function and every timer callback maintains the
    agreement of the registries. *)
Definition agree_inv {B} `{NovaSonicClient B} (c : @config B) : Prop :=
  registries_agree (st c)
  /\ Forall (fun t => forall o s', registries_agree s' ->
                                   maintains (t_cont t o) registries_agree s')
            (pool c)
  /\ Forall (fun e => forall s', registries_agree s' ->
                                 maintains (tm_callback e) registries_agree s')
            (timers c).

(** The control message [{"type": "stopAudio"}]. *)
Definition stop_audio : inbound :=
  {| raw := [x7b; x7d];
     parsed := Some {| audioInputContent := None; msgType := Some "stopAudio"%string;
                       msgData := ""%string |} |}.

(** The client 1 of "abc" sends [stop_audio]; the session rejects
    [endAudioContent]. *)
Definition endAudioContent_rejected : outcome :=
  Rejected (JsError "stream closed").

(** The promises of the two sessions resolve, then those of the servers. *)
Definition sessions_closed : list (Z * promise) := [(5, 0%nat); (6, 1%nat)].
Definition servers_closed : list (Z * promise) := [(8, 2%nat); (9, 3%nat)].

(** * Properties *)

(** ** Maps and sets *)

Section JsMapFacts.
Context {K V : Type} `{KeyEq K}.

Lemma keqb_refl (k : K) : keqb k k = true.
Proof. destruct (keqb_spec k k); congruence. Qed.

Lemma keqb_neq (k k' : K) : k <> k' -> keqb k k' = false.
Proof. intros Hn. destruct (keqb_spec k k'); congruence. Qed.

Lemma map_get_set_eq (k : K) (v : V) m : map_get k (map_set k v m) = Some v.
Proof.
  induction m as [|[k' v'] m IH]; cbn.
  - now rewrite keqb_refl.
  - destruct (keqb_spec k k'); cbn.
    + now rewrite keqb_refl.
    + rewrite keqb_neq by assumption. exact IH.
Qed.

Lemma map_get_set_neq (k k' : K) (v : V) m :
  k <> k' -> map_get k (map_set k' v m) = map_get k m.
Proof.
  intros Hn. induction m as [|[k2 v2] m IH]; cbn.
  - now rewrite keqb_neq.
  - destruct (keqb_spec k' k2); cbn.
    + subst. now rewrite keqb_neq.
    + destruct (keqb k k2); [reflexivity | exact IH].
Qed.

Lemma map_get_delete_eq (k : K) (m : jsmap K V) : map_get k (map_delete k m) = None.
Proof.
  induction m as [|[k' v'] m IH]; cbn; [reflexivity|].
  destruct (keqb_spec k k'); cbn; [exact IH|].
  rewrite keqb_neq by assumption. exact IH.
Qed.

Lemma map_get_delete_neq (k k' : K) (m : jsmap K V) :
  k <> k' -> map_get k (map_delete k' m) = map_get k m.
Proof.
  intros Hn. induction m as [|[k2 v2] m IH]; cbn; [reflexivity|].
  destruct (keqb_spec k' k2); cbn.
  - subst. rewrite keqb_neq by assumption. exact IH.
  - destruct (keqb k k2); [reflexivity | exact IH].
Qed.

Lemma map_has_get (k : K) (m : jsmap K V) :
  map_has k m = true <-> exists v, map_get k m = Some v.
Proof.
  unfold map_has. destruct (map_get k m); split; intros Hx;
    try discriminate; eauto. now destruct Hx.
Qed.

Lemma map_has_false (k : K) (m : jsmap K V) :
  map_has k m = false <-> map_get k m = None.
Proof. unfold map_has. destruct (map_get k m); split; congruence. Qed.

Lemma map_get_keys (k : K) (m : jsmap K V) :
  In k (map_keys m) <-> exists v, map_get k m = Some v.
Proof.
  induction m as [|[k' v'] m IH]; cbn.
  - split; [tauto | intros [v Hv]; discriminate].
  - destruct (keqb_spec k k').
    + subst. split; eauto.
    + rewrite <- IH. unfold map_keys. split; [intros [Hk|Hk]; [congruence | exact Hk] | tauto].
Qed.

Lemma map_keys_set_fresh (k : K) (v : V) m :
  map_get k m = None -> map_keys (map_set k v m) = map_keys m ++ [k].
Proof.
  unfold map_keys. induction m as [|[k' v'] m IH]; cbn; [reflexivity|].
  destruct (keqb k k'); [discriminate|]. intros Hn. cbn. now rewrite IH.
Qed.

Lemma map_keys_set_present (k : K) (v : V) m :
  map_has k m = true -> map_keys (map_set k v m) = map_keys m.
Proof.
  unfold map_has, map_keys. induction m as [|[k' v'] m IH]; cbn; [discriminate|].
  destruct (keqb_spec k k'); cbn; [now subst|].
  intros Hh. now rewrite IH.
Qed.
End JsMapFacts.

Section JsSetFacts.
Context {K : Type} `{KeyEq K}.

Lemma set_has_In (k : K) (s : jsset K) : set_has k s = true <-> In k s.
Proof.
  unfold set_has. rewrite existsb_exists. split.
  - intros [x [Hx He]]. destruct (keqb_spec k x); congruence.
  - intros Hk. exists k. split; [assumption | apply keqb_refl].
Qed.

Lemma set_add_In (k k' : K) (s : jsset K) :
  In k' (set_add k s) <-> k' = k \/ In k' s.
Proof.
  unfold set_add. destruct (set_has k s) eqn:E.
  - apply set_has_In in E. split; [tauto | intros [->|Hx]; assumption].
  - rewrite in_app_iff. cbn. split; intros Hx; intuition congruence.
Qed.

Lemma set_add_NoDup (k : K) (s : jsset K) : NoDup s -> NoDup (set_add k s).
Proof.
  intros Hnd. unfold set_add. destruct (set_has k s) eqn:E; [assumption|].
  assert (~ In k s) as Hn by (rewrite <- set_has_In; congruence).
  clear E. induction Hnd as [|x l Hx Hl IH]; cbn.
  - constructor; [tauto | constructor].
  - constructor.
    + rewrite in_app_iff. cbn. cbn in Hn. intuition congruence.
    + apply IH. cbn in Hn. tauto.
Qed.

Lemma set_delete_In (k k' : K) (s : jsset K) :
  In k' (set_delete k s) <-> k' <> k /\ In k' s.
Proof.
  unfold set_delete. rewrite filter_In.
  destruct (keqb_spec k k'); cbn; intuition congruence.
Qed.

Lemma set_delete_single (k : K) : set_delete k [k] = [].
Proof. unfold set_delete. cbn. now rewrite keqb_refl. Qed.
End JsSetFacts.

(** ** The runtime *)

Section Runtime.
Context {B : Type} `{NovaSonicClient B}.
Implicit Types (c : @config B) (s : @state B).

Lemma config_eta c :
  {| st := st c; pool := pool c; timers := timers c; settled := settled c;
     pendingExternal := pendingExternal c; nextPromise := nextPromise c;
     nextTimer := nextTimer c; now := now c; exited := exited c |} = c.
Proof. now destruct c. Qed.

Lemma state_eta s :
  {| channelStreams := channelStreams s; channelClients := channelClients s;
     clientChannels := clientChannels s; readyState := readyState s;
     listeners := listeners s; bedrockClient := bedrockClient s;
     nextSession := nextSession s; trace := trace s |} = s.
Proof. now destruct s. Qed.

Lemma with_st_id c : with_st (fun s => s) c = c.
Proof. now destruct c. Qed.

Lemma emit_all_nil s : emit_all [] s = s.
Proof. destruct s. unfold emit_all. cbn. now rewrite app_nil_r. Qed.

Lemma emit_all_cons e l s : emit_all l (emit e s) = emit_all (e :: l) s.
Proof. destruct s. unfold emit_all, emit. cbn. now rewrite <- app_assoc. Qed.

Lemma emit_all_app l1 l2 s :
  emit_all l2 (emit_all l1 s) = emit_all (l1 ++ l2) s.
Proof. destruct s. unfold emit_all. cbn. now rewrite <- app_assoc. Qed.

Lemma emit_as_emit_all e s : emit e s = emit_all [e] s.
Proof. reflexivity. Qed.

Lemma effects_since_emit_all l c :
  effects_since c (with_st (emit_all l) c) = l.
Proof.
  unfold effects_since. cbn.
  rewrite skipn_app, skipn_all, Nat.sub_diag. reflexivity.
Qed.

Lemma run_sync_bind A C (m : prog A) (f : A -> prog C) c :
  run_sync (bind m f) c =
  match run_sync m c return config * @status B C with
  | (c', Finished a) => run_sync (f a) c'
  | (c', Failed e) => (c', Failed e)
  | (c', Exited) => (c', Exited)
  | (c', Blocked w k) => (c', Blocked w (fun o => bind (k o) f))
  end.
Proof.
  revert C f c. induction m as [| | | ? ? g k IH | ? ? op k IH | ? w k IH
                               | ? child IHc k IH | ? ms rep cb IHcb k IH];
    intros C f c; cbn; try reflexivity.
  - destruct (g (st c)) as [x s']. apply IH.
  - destruct (sys_exec op c) as [x c']. apply IH.
  - destruct (run_sync child _) as [c2 s]. destruct s; try apply IH. reflexivity.
  - apply IH.
Qed.

Lemma run_sync_try_catch A (m : prog A) (h : exn -> prog A) c :
  run_sync (try_catch m h) c =
  match run_sync m c return config * @status B A with
  | (c', Finished a) => (c', Finished a)
  | (c', Failed e) => run_sync (h e) c'
  | (c', Exited) => (c', Exited)
  | (c', Blocked w k) => (c', Blocked w (fun o => try_catch (k o) h))
  end.
Proof.
  revert h c. induction m as [| | | ? ? g k IH | ? ? op k IH | ? w k IH
                              | ? child IHc k IH | ? ms rep cb IHcb k IH];
    intros h c; cbn; try reflexivity.
  - destruct (g (st c)) as [x s']. apply IH.
  - destruct (sys_exec op c) as [x c']. apply IH.
  - destruct (run_sync child _) as [c2 s]. destruct s; try apply IH. reflexivity.
  - apply IH.
Qed.

End Runtime.

(** ** Fan-out *)

Section Broadcast.
Context {B : Type} `{NovaSonicClient B}.
Implicit Types (c : @config B) (s : @state B).

Lemma with_st_emit_nil c : with_st (emit_all []) c = c.
Proof. destruct c. unfold with_st. cbn. now rewrite emit_all_nil. Qed.

(** An open-socket broadcast writes to the open clients, in order. *)
Lemma run_sync_broadcast (clients : jsset socket) (m : message) c :
  run_sync (broadcast clients m) c =
  (with_st (emit_all
     (map (fun ws => ESend ws m)
          (filter (fun ws => is_OPEN (readyState (st c) ws)) clients))) c,
   Finished tt).
Proof.
  revert c. induction clients as [|ws l IH]; intros c.
  - cbn. now rewrite with_st_emit_nil.
  - unfold broadcast in *. cbn [for_each]. rewrite run_sync_bind. cbn.
    destruct (readyState (st c) ws) eqn:E; cbn; rewrite IH; cbn;
      try reflexivity.
    unfold with_st. cbn. now rewrite emit_all_cons.
Qed.

End Broadcast.

Section Fanout.
Context {B : Type} `{NovaSonicClient B}.
Implicit Types (c : @config B) (s : @state B).

Lemma sends_app l1 l2 : sends (l1 ++ l2) = sends l1 ++ sends l2.
Proof.
  induction l1 as [|e l1 IH]; cbn; [reflexivity|].
  destruct e; cbn; now rewrite IH.
Qed.

Lemma sends_map_ESend (l : list socket) (m : message) :
  sends (map (fun ws => ESend ws m) l) = map (fun ws => (ws, m)) l.
Proof. induction l as [|w l IH]; cbn; [reflexivity | now rewrite IH]. Qed.

Lemma sends_to_app ws l1 l2 : sends_to ws (l1 ++ l2) = sends_to ws l1 ++ sends_to ws l2.
Proof.
  induction l1 as [|e l1 IH]; cbn; [reflexivity|].
  destruct e; cbn; try exact IH.
  destruct (Nat.eqb ws0 ws); cbn; now rewrite IH.
Qed.

Lemma calls_app l1 l2 : calls (l1 ++ l2) = calls l1 ++ calls l2.
Proof.
  induction l1 as [|e l1 IH]; cbn; [reflexivity|].
  destruct e; cbn; now rewrite IH.
Qed.

Lemma closes_app l1 l2 : closes (l1 ++ l2) = closes l1 ++ closes l2.
Proof.
  induction l1 as [|e l1 IH]; cbn; [reflexivity|].
  destruct e; cbn; now rewrite IH.
Qed.

Lemma run_sync_send_chunks fuel pcm (clients : jsset socket) offset c :
  run_sync (send_chunks fuel pcm clients offset) c =
  (with_st (emit_all
     (flat_map
        (fun chunk =>
           map (fun ws => ESend ws (MAudio chunk))
               (filter (fun ws => is_OPEN (readyState (st c) ws)) clients))
        (frames_from fuel pcm offset))) c,
   Finished tt).
Proof.
  revert offset c. induction fuel as [|fuel IH]; intros offset c.
  - cbn. now rewrite with_st_emit_nil.
  - cbn [send_chunks frames_from].
    destruct (offset + SAMPLES_PER_CHUNK <=? List.length pcm)%nat.
    + rewrite run_sync_bind, run_sync_broadcast, IH. cbn [flat_map].
      unfold with_st. cbn. now rewrite emit_all_app.
    + cbn. now rewrite with_st_emit_nil.
Qed.

Lemma run_sync_onSessionEvent channelId eventName isError data c :
  run_sync (onSessionEvent channelId eventName isError data) c =
  (with_st (emit_all
     (EConsole (if isError then "error" else "debug")
               (eventName ++ " " ++ json data)
      :: map (fun ws => ESend ws (MEvent eventName data))
             (open_clients channelId (st c)))) c,
   Finished tt).
Proof.
  unfold onSessionEvent, console. cbn. rewrite run_sync_broadcast. cbn.
  unfold with_st. cbn. now rewrite emit_all_cons.
Qed.

Lemma run_sync_onStreamComplete channelId c :
  run_sync (onStreamComplete channelId) c =
  (with_st (emit_all
     (EConsole "log" ("Stream completed for channel: " ++ channelId)
      :: map (fun ws => ESend ws MStreamComplete)
             (open_clients channelId (st c)))) c,
   Finished tt).
Proof.
  unfold onStreamComplete, console. cbn. rewrite run_sync_broadcast. cbn.
  unfold with_st. cbn. now rewrite emit_all_cons.
Qed.

Lemma run_sync_onAudioOutput channelId j buffer c :
  run_sync (onAudioOutput channelId {| json := j; content := Some buffer |}) c =
  (with_st (emit_all
     (flat_map
        (fun chunk =>
           map (fun ws => ESend ws (MAudio chunk)) (open_clients channelId (st c)))
        (pcm_frames buffer))) c,
   Finished tt).
Proof.
  unfold onAudioOutput. cbn -[send_chunks]. rewrite run_sync_send_chunks.
  reflexivity.
Qed.

Lemma sends_flat_map_ESend (l : list socket) (ms : list message) :
  sends (flat_map (fun m => map (fun ws => ESend ws m) l) ms)
  = flat_map (fun m => map (fun ws => (ws, m)) l) ms.
Proof.
  induction ms as [|m ms IH]; cbn; [reflexivity|].
  now rewrite sends_app, sends_map_ESend, IH.
Qed.

(** C9. Every fan-out path (a named session event, streamComplete, an
    audio frame) writes to exactly the clients of the channel whose ready
    state is OPEN, in the order of the client set: a socket in another
    state is skipped, and the broadcast goes on and returns normally. *)
Theorem fanout_reaches_open_sockets_only channelId c :
  (forall eventName isError data,
      exists c',
        run_sync (onSessionEvent channelId eventName isError data) c
        = (c', Finished tt)
        /\ sends (effects_since c c')
           = map (fun ws => (ws, MEvent eventName data))
                 (open_clients channelId (st c)))
  /\ (exists c',
        run_sync (onStreamComplete channelId) c = (c', Finished tt)
        /\ sends (effects_since c c')
           = map (fun ws => (ws, MStreamComplete)) (open_clients channelId (st c)))
  /\ (forall j buffer,
        exists c',
          run_sync (onAudioOutput channelId {| json := j; content := Some buffer |}) c
          = (c', Finished tt)
          /\ sends (effects_since c c')
             = flat_map
                 (fun chunk =>
                    map (fun ws => (ws, MAudio chunk)) (open_clients channelId (st c)))
                 (pcm_frames buffer)).
Proof.
  split; [|split].
  - intros eventName isError data. eexists. split.
    + apply run_sync_onSessionEvent.
    + rewrite effects_since_emit_all. cbn. apply sends_map_ESend.
  - eexists. split.
    + apply run_sync_onStreamComplete.
    + rewrite effects_since_emit_all. cbn. apply sends_map_ESend.
  - intros j buffer. eexists. split.
    + apply run_sync_onAudioOutput.
    + rewrite effects_since_emit_all.
      generalize (pcm_frames buffer) as fs. intros fs.
      induction fs as [|f fs IH]; cbn; [reflexivity|].
      now rewrite sends_app, sends_map_ESend, IH.
Qed.
End Fanout.
(** ** Audio frames *)

Section Frames.
Import Tools.

Lemma byte_val_range b : 0 <= byte_val b < 256.
Proof.
  unfold byte_val. pose proof (Byte.to_N_bounded b) as Hb. lia.
Qed.

Lemma byte_of_Z_val b : byte_of_Z (byte_val b) = b.
Proof.
  unfold byte_of_Z, byte_val. rewrite N2Z.id, Byte.of_to_N. reflexivity.
Qed.

Lemma bytes_of_int16_of_bytes lo hi :
  bytes_of_int16 (int16_of_bytes lo hi) = [lo; hi].
Proof.
  pose proof (byte_val_range lo) as Hlo. pose proof (byte_val_range hi) as Hhi.
  unfold bytes_of_int16, int16_of_bytes.
  set (u := byte_val lo + 256 * byte_val hi).
  assert (Hu : (if u <? 32768 then u else u - 65536) mod 65536 = u).
  { destruct (u <? 32768) eqn:E.
    - apply Z.mod_small. subst u. lia.
    - replace (u - 65536) with (u + (-1) * 65536) by lia.
      rewrite Z.mod_add by lia. apply Z.mod_small. subst u. lia. }
  rewrite Hu. subst u.
  replace (byte_val lo + 256 * byte_val hi) with (byte_val lo + byte_val hi * 256) by lia.
  rewrite Z.mod_add by lia. rewrite Z.div_add by lia.
  rewrite Z.mod_small by lia. rewrite Z.div_small by lia. cbn [Z.add].
  now rewrite !byte_of_Z_val.
Qed.

Lemma list_pair_ind (X : Type) (P : list X -> Prop) :
  P [] -> (forall x, P [x]) -> (forall x y l, P l -> P (x :: y :: l)) ->
  forall l, P l.
Proof.
  intros H0 H1 H2.
  assert (forall l, P l /\ forall x, P (x :: l)) as Hboth.
  { induction l as [|x l [IH1 IH2]]; split; auto. }
  intros l. apply Hboth.
Qed.

Lemma Int16Array_of_length l :
  List.length (Int16Array_of l) = (List.length l / 2)%nat.
Proof.
  induction l as [| x | x y l IH] using list_pair_ind; try reflexivity.
  cbn [Int16Array_of List.length]. rewrite IH.
  change (S (S (List.length l))) with (1 * 2 + List.length l)%nat.
  rewrite Nat.div_add_l by lia. lia.
Qed.

Lemma bytes_of_Int16Array_of l :
  bytes_of_Int16Array (Int16Array_of l) = firstn (2 * (List.length l / 2)) l.
Proof.
  induction l as [| x | x y l IH] using list_pair_ind; try reflexivity.
  cbn [Int16Array_of bytes_of_Int16Array flat_map List.length].
  fold (bytes_of_Int16Array (Int16Array_of l)). rewrite IH.
  rewrite bytes_of_int16_of_bytes.
  change (S (S (List.length l))) with (1 * 2 + List.length l)%nat.
  rewrite Nat.div_add_l by lia.
  replace (2 * (1 + List.length l / 2))%nat with (S (S (2 * (List.length l / 2)))) by lia.
  reflexivity.
Qed.

Lemma Int16Array_of_skipn k l :
  Int16Array_of (skipn (2 * k) l) = skipn k (Int16Array_of l).
Proof.
  revert l. induction k as [|k IH]; intros l; [reflexivity|].
  replace (2 * S k)%nat with (S (S (2 * k))) by lia.
  destruct l as [|x [|y l]]; try reflexivity.
  cbn [skipn Int16Array_of]. apply IH.
Qed.

Lemma Int16Array_of_firstn k l :
  Int16Array_of (firstn (2 * k) l) = firstn k (Int16Array_of l).
Proof.
  revert l. induction k as [|k IH]; intros l; [reflexivity|].
  replace (2 * S k)%nat with (S (S (2 * k))) by lia.
  destruct l as [|x [|y l]]; try reflexivity.
  cbn [firstn Int16Array_of]. now rewrite IH.
Qed.

Lemma slice_Int16Array_of l a b :
  (a <= b)%nat ->
  slice (Int16Array_of l) a b = Int16Array_of (slice l (2 * a) (2 * b)).
Proof.
  intros Hab. unfold slice.
  replace (2 * b - 2 * a)%nat with (2 * (b - a))%nat by lia.
  now rewrite Int16Array_of_firstn, Int16Array_of_skipn.
Qed.

Lemma slice_length (X : Type) (l : list X) a b :
  (a <= b)%nat -> (b <= List.length l)%nat -> List.length (slice l a b) = (b - a)%nat.
Proof.
  intros Hab Hb. unfold slice. rewrite length_firstn, length_skipn. lia.
Qed.

(** The loop cuts the consecutive chunks that fit, while its fuel lasts. *)
Lemma frames_from_spec fuel pcm offset :
  ((List.length pcm - offset) / SAMPLES_PER_CHUNK < fuel)%nat ->
  frames_from fuel pcm offset =
  map (fun k => slice pcm (offset + SAMPLES_PER_CHUNK * k)
                      (offset + SAMPLES_PER_CHUNK * k + SAMPLES_PER_CHUNK))
      (seq 0 ((List.length pcm - offset) / SAMPLES_PER_CHUNK)).
Proof.
  change SAMPLES_PER_CHUNK with 320%nat.
  revert offset. induction fuel as [|fuel IH]; intros offset Hf; [lia|].
  cbn [frames_from]. change SAMPLES_PER_CHUNK with 320%nat.
  destruct (Nat.leb_spec (offset + 320) (List.length pcm)) as [Hle|Hgt].
  - assert (Hq : ((List.length pcm - offset) / 320
                  = S ((List.length pcm - (offset + 320)) / 320))%nat).
    { replace (List.length pcm - offset)%nat
        with (1 * 320 + (List.length pcm - (offset + 320)))%nat by lia.
      rewrite Nat.div_add_l by lia. lia. }
    rewrite Hq. cbn [seq map]. rewrite Nat.mul_0_r, Nat.add_0_r. f_equal.
    rewrite IH by lia. rewrite <- seq_shift, map_map.
    apply map_ext. intros k. f_equal; lia.
  - rewrite Nat.div_small by lia. reflexivity.
Qed.

Lemma pcm_frames_spec buffer :
  pcm_frames buffer =
  map (fun k => slice (Int16Array_of buffer) (320 * k) (320 * k + 320))
      (seq 0 (List.length buffer / 640)).
Proof.
  unfold pcm_frames. rewrite frames_from_spec.
  - rewrite Nat.sub_0_r, Int16Array_of_length.
    change SAMPLES_PER_CHUNK with 320%nat.
    rewrite Nat.Div0.div_div. change (2 * 320)%nat with 640%nat.
    apply map_ext. intros k. reflexivity.
  - rewrite Nat.sub_0_r. change SAMPLES_PER_CHUNK with 320%nat.
    apply Nat.lt_succ_r. apply Nat.Div0.div_le_upper_bound. lia.
Qed.

(** On the wire, the frames are the consecutive 640-byte pieces of the
    payload. *)
Lemma frame_bytes_spec buffer :
  map bytes_of_Int16Array (pcm_frames buffer) =
  map (fun k => slice buffer (640 * k) (640 * k + 640))
      (seq 0 (List.length buffer / 640)).
Proof.
  rewrite pcm_frames_spec, map_map. apply map_ext_in. intros k Hk.
  apply in_seq in Hk.
  assert (Hfit : (640 * k + 640 <= List.length buffer)%nat).
  { pose proof (Nat.Div0.mul_div_le (List.length buffer) 640). nia. }
  rewrite slice_Int16Array_of by lia.
  rewrite bytes_of_Int16Array_of.
  replace (2 * (320 * k))%nat with (640 * k)%nat by lia.
  replace (2 * (320 * k + 320))%nat with (640 * k + 640)%nat by lia.
  rewrite slice_length by lia.
  replace (640 * k + 640 - 640 * k)%nat with 640%nat by lia.
  change (2 * (640 / 2))%nat with 640%nat.
  apply firstn_all2. rewrite slice_length by lia. lia.
Qed.
End Frames.

Section Reframing.
Context {B : Type} `{NovaSonicClient B}.
Implicit Types (c : @config B) (s : @state B).

Lemma sends_to_map_absent ws (l : list socket) m :
  ~ In ws l -> sends_to ws (map (fun w => ESend w m) l) = [].
Proof.
  induction l as [|w l IH]; cbn; [reflexivity|]. intros Hn.
  destruct (Nat.eqb_spec w ws); [tauto|]. apply IH. tauto.
Qed.

Lemma sends_to_map_once ws (l : list socket) m :
  NoDup l -> In ws l -> sends_to ws (map (fun w => ESend w m) l) = [m].
Proof.
  induction 1 as [|w l Hw Hnd IH]; cbn; [tauto|]. intros [->|Hin].
  - rewrite Nat.eqb_refl, sends_to_map_absent; auto.
  - destruct (Nat.eqb_spec w ws); [subst; tauto|]. auto.
Qed.

Lemma firstn_plus (X : Type) (l : list X) a n :
  firstn (a + n) l = firstn a l ++ firstn n (skipn a l).
Proof.
  revert l. induction a as [|a IH]; intros l; [reflexivity|].
  destruct l as [|x l]; cbn.
  - now rewrite firstn_nil.
  - now rewrite IH.
Qed.

Lemma concat_slices (X : Type) (l : list X) n m :
  List.concat (map (fun k => slice l (n * k) (n * k + n)) (seq 0 m)) = firstn (n * m) l.
Proof.
  induction m as [|m IH].
  - now rewrite Nat.mul_0_r.
  - rewrite seq_S, map_app, concat_app, IH. cbn [map List.concat Nat.add].
    rewrite app_nil_r. unfold slice.
    replace (n * m + n - n * m)%nat with n by lia.
    replace (n * S m)%nat with (n * m + n)%nat by lia.
    now rewrite firstn_plus.
Qed.

Lemma audio_frames_map_MAudio fs :
  audio_frames (map MAudio fs) = map Tools.bytes_of_Int16Array fs.
Proof. induction fs as [|f fs IH]; cbn; [reflexivity | now rewrite IH]. Qed.

(** C2. An audioOutput payload of any length reaches each attached open
    client as the consecutive 640-byte (320-sample) pieces of the payload
    that fit, in order and nothing else: length/640 frames (rounded
    down), the trailing remainder under 640 bytes is dropped, not padded.
    For 2000 bytes: three frames, 1920 bytes, 80 dropped. *)
Theorem audio_reframing channelId j buffer ws c :
  NoDup (clients_of channelId (st c)) ->
  In ws (clients_of channelId (st c)) ->
  readyState (st c) ws = OPEN ->
  exists c',
    run_sync (onAudioOutput channelId {| json := j; content := Some buffer |}) c
    = (c', Finished tt)
    /\ let received := sends_to ws (effects_since c c') in
       let frames := audio_frames received in
       received = map MAudio (pcm_frames buffer)
       /\ frames = map (fun k => slice buffer (640 * k) (640 * k + 640))
                       (seq 0 (List.length buffer / 640))
       /\ List.length frames = (List.length buffer / 640)%nat
       /\ (forall f, In f frames -> List.length f = 640%nat)
       /\ List.concat frames = firstn (640 * (List.length buffer / 640)) buffer
       /\ (List.length buffer = 2000%nat ->
           List.length frames = 3%nat
           /\ List.length (List.concat frames) = 1920%nat
           /\ (List.length buffer - List.length (List.concat frames) = 80)%nat).
Proof.
  intros Hnd Hin Hopen. eexists. split; [apply run_sync_onAudioOutput|].
  rewrite effects_since_emit_all.
  assert (Hrecv :
    sends_to ws
      (flat_map
         (fun chunk =>
            map (fun w => ESend w (MAudio chunk)) (open_clients channelId (st c)))
         (pcm_frames buffer))
    = map MAudio (pcm_frames buffer)).
  { generalize (pcm_frames buffer) as fs.
    induction fs as [|f fs IH]; cbn; [reflexivity|].
    rewrite sends_to_app, IH, sends_to_map_once; [reflexivity | |].
    - unfold open_clients. now apply NoDup_filter.
    - unfold open_clients. apply filter_In. split; [assumption|].
      now rewrite Hopen. }
  cbv zeta. rewrite Hrecv, audio_frames_map_MAudio, frame_bytes_spec.
  assert (Hlen : List.length
            (map (fun k => slice buffer (640 * k) (640 * k + 640))
                 (seq 0 (List.length buffer / 640)))
          = (List.length buffer / 640)%nat)
    by now rewrite length_map, length_seq.
  assert (Hcat : List.concat
            (map (fun k => slice buffer (640 * k) (640 * k + 640))
                 (seq 0 (List.length buffer / 640)))
          = firstn (640 * (List.length buffer / 640)) buffer)
    by apply concat_slices.
  repeat split; try assumption.
  - intros f Hf. apply in_map_iff in Hf. destruct Hf as [k [<- Hk]].
    apply in_seq in Hk.
    pose proof (Nat.Div0.mul_div_le (List.length buffer) 640).
    rewrite slice_length by nia. lia.
  - rewrite Hlen, H0. reflexivity.
  - rewrite Hcat, length_firstn, H0. reflexivity.
  - rewrite Hcat, length_firstn, H0. reflexivity.
Qed.
End Reframing.

(** ** Inbound messages *)

Section Inbound.
Context {B : Type} `{NovaSonicClient B}.
Variables browser_isOn vonage_isOn : bool.
Implicit Types (c : @config B) (s : @state B).

(** C10. A message on a socket with no channel in [clientChannels], or
    whose channel has no session in [channelStreams], is answered with one
    structured error event on that socket and nothing else: the handler
    returns at once, no adapter and no session operation is called, no
    function is left suspended, and the maps are unchanged. *)
Theorem message_without_channel_or_session ws msg c :
  falsy (map_get ws (clientChannels (st c))) = true
  \/ (exists channelId,
        map_get ws (clientChannels (st c)) = Some channelId
        /\ map_get channelId (channelStreams (st c)) = None) ->
  let c' := start None (handleMessage browser_isOn vonage_isOn ws msg) c in
  exists m d,
    c' = with_st (emit (ESend ws (MError m d))) c
    /\ effects_since c c' = [ESend ws (MError m d)]
    /\ calls (effects_since c c') = []
    /\ channelStreams (st c') = channelStreams (st c)
    /\ channelClients (st c') = channelClients (st c)
    /\ clientChannels (st c') = clientChannels (st c)
    /\ pool c' = pool c.
Proof.
  intros Hcase c'.
  assert (Hc' : exists m d, c' = with_st (emit (ESend ws (MError m d))) c).
  { subst c'. unfold start, handleMessage. cbn.
    destruct (map_get ws (clientChannels (st c))) as [channelId|] eqn:Hch.
    - cbn in Hcase. destruct (String.eqb channelId "") eqn:He.
      + cbn. do 2 eexists. reflexivity.
      + destruct Hcase as [Hf | [ch [Hch' Hs]]]; [discriminate|].
        injection Hch' as <-. cbn. rewrite Hs. cbn. do 2 eexists. reflexivity.
    - cbn. do 2 eexists. reflexivity. }
  destruct Hc' as [m [d Hc']]. exists m, d. rewrite Hc'.
  pose proof (effects_since_emit_all [ESend ws (MError m d)] c) as He.
  change (@emit_all B [ESend ws (MError m d)])
    with (@emit B (ESend ws (MError m d))) in He.
  rewrite He. cbn. tauto.
Qed.
End Inbound.

(** ** Running the primitive statements *)

Section Primitives.
Context {B : Type} `{NovaSonicClient B}.
Implicit Types (c : @config B) (s : @state B).

Lemma run_sync_Ret A (a : A) c : run_sync (Ret a) c = (c, Finished a).
Proof. reflexivity. Qed.

Lemma run_sync_Throw A e c : run_sync (@Throw B A e) c = (c, Failed e).
Proof. reflexivity. Qed.

Lemma run_sync_skip c : run_sync skip c = (c, Finished tt).
Proof. reflexivity. Qed.

Lemma run_sync_get X (f : state -> X) c : run_sync (get f) c = (c, Finished (f (st c))).
Proof. destruct c. reflexivity. Qed.

Lemma run_sync_modify f c : run_sync (modify f) c = (with_st f c, Finished tt).
Proof. reflexivity. Qed.

Lemma run_sync_console level text c :
  run_sync (console level text) c = (with_st (emit (EConsole level text)) c, Finished tt).
Proof. reflexivity. Qed.

Lemma run_sync_ws_send ws m c :
  run_sync (ws_send ws m) c = (with_st (emit (ESend ws m)) c, Finished tt).
Proof. reflexivity. Qed.

Lemma run_sync_sendError ws m d c :
  run_sync (sendError ws m d) c = (with_st (emit (ESend ws (MError m d))) c, Finished tt).
Proof. reflexivity. Qed.

Lemma run_sync_now c : run_sync (Sys DateNow Ret) c = (c, Finished (now c)).
Proof. reflexivity. Qed.

Lemma run_sync_call cc c : run_sync (call cc) c = (called cc c, Finished (nextPromise c)).
Proof. destruct c. reflexivity. Qed.

Lemma run_sync_closeSession_ sid c :
  run_sync (closeSession_ sid) c =
  (called (closeSession sid) c,
   match closeSession_throws (bedrockClient (st c)) sid with
   | Some e => Failed e
   | None => Finished (nextPromise c)
   end).
Proof.
  unfold closeSession_. rewrite run_sync_bind, run_sync_get.
  rewrite run_sync_bind, run_sync_call.
  destruct (closeSession_throws (bedrockClient (st c)) sid); reflexivity.
Qed.

Lemma trace_called cc c : trace (st (called cc c)) = trace (st c) ++ [ECall cc].
Proof. reflexivity. Qed.

Lemma effects_since_trace c c' l :
  trace (st c') = trace (st c) ++ l -> effects_since c c' = l.
Proof.
  intros Ht. unfold effects_since. rewrite Ht.
  rewrite skipn_app, skipn_all, Nat.sub_diag. reflexivity.
Qed.
End Primitives.

Create Rewrite HintDb run_sync.

#[export] Hint Rewrite @run_sync_Ret @run_sync_Throw @run_sync_skip @run_sync_get
  @run_sync_modify @run_sync_console @run_sync_ws_send @run_sync_sendError
  @run_sync_now @run_sync_call @run_sync_closeSession_ @run_sync_bind
  @run_sync_try_catch : run_sync.

Ltac run_step := autorewrite with run_sync; cbv beta iota.
Ltac run_steps := repeat (progress run_step).

(** ** The session reaper *)

Section Reaper.
Context {B : Type} `{NovaSonicClient B}.
Implicit Types (c : @config B) (s : @state B).
#[local] Arguments String.append : simpl never.

(** What the client must guarantee: closing one session neither moves
    the last activity of another session nor decides whether closing
    another session throws. *)
Hypothesis close_keeps_activity : forall t sid sid' (b : B),
  sid' <> sid ->
  getLastActivityTime (after_call t (closeSession sid) b) sid'
  = getLastActivityTime b sid'.
Hypothesis close_keeps_throws : forall t sid sid' (b : B),
  sid' <> sid ->
  closeSession_throws (after_call t (closeSession sid) b) sid'
  = closeSession_throws b sid'.

Lemma closeIfInactive_run sessionId c :
  exists c',
    run_sync (closeIfInactive (now c) sessionId) c = (c', Finished tt)
    /\ trace (st c') = trace (st c) ++ cleanup_effects (now c) (bedrockClient (st c)) sessionId
    /\ channelStreams (st c') = channelStreams (st c)
    /\ channelClients (st c') = channelClients (st c)
    /\ clientChannels (st c') = clientChannels (st c)
    /\ pool c' = pool c /\ timers c' = timers c /\ now c' = now c
    /\ exited c' = exited c
    /\ (forall sid', sid' <> sessionId ->
          getLastActivityTime (bedrockClient (st c')) sid'
          = getLastActivityTime (bedrockClient (st c)) sid'
          /\ closeSession_throws (bedrockClient (st c')) sid'
             = closeSession_throws (bedrockClient (st c)) sid').
Proof.
  unfold closeIfInactive, cleanup_effects, idle_session. run_steps.
  destruct (now c - getLastActivityTime (bedrockClient (st c)) sessionId >? fiveMinsInMs).
  - run_steps. cbn [st with_st emit bedrockClient].
    destruct (closeSession_throws (bedrockClient (st c)) sessionId) as [e|];
      run_steps; eexists; (split; [reflexivity|]); cbn.
    + rewrite <- !app_assoc. cbn. repeat split; auto.
    + rewrite <- !app_assoc. cbn. repeat split; auto.
  - eexists. split; [reflexivity|]. rewrite app_nil_r. repeat split; auto.
Qed.

Lemma cleanup_loop ids c :
  NoDup ids ->
  exists c',
    run_sync (for_each ids (closeIfInactive (now c))) c = (c', Finished tt)
    /\ trace (st c')
       = trace (st c) ++ flat_map (cleanup_effects (now c) (bedrockClient (st c))) ids
    /\ channelStreams (st c') = channelStreams (st c)
    /\ channelClients (st c') = channelClients (st c)
    /\ clientChannels (st c') = clientChannels (st c)
    /\ pool c' = pool c /\ timers c' = timers c /\ now c' = now c
    /\ exited c' = exited c.
Proof.
  intros Hnd. revert c. induction Hnd as [|sid ids Hsid Hnd IH]; intros c.
  - exists c. cbn. rewrite app_nil_r. repeat split; reflexivity.
  - destruct (closeIfInactive_run sid c)
      as (c1 & Hrun & Htr & Hs & Hc & Hcc & Hp & Ht & Hn & He & Hframe).
    destruct (IH c1) as (c2 & Hrun2 & Htr2 & Hs2 & Hc2 & Hcc2 & Hp2 & Ht2 & Hn2 & He2).
    exists c2. cbn [for_each flat_map]. rewrite run_sync_bind, Hrun.
    rewrite <- Hn, Hrun2. split; [reflexivity|].
    repeat split; try congruence.
    rewrite Htr2, Htr, <- app_assoc. rewrite Hn. do 2 f_equal.
    rewrite !flat_map_concat_map. f_equal. apply map_ext_in.
    intros sid' Hin. assert (sid' <> sid) as Hne by (intros ->; contradiction).
    unfold cleanup_effects, idle_session.
    destruct (Hframe sid' Hne) as [-> ->]. reflexivity.
Qed.

Lemma calls_cleanup_effects now_ (b : B) ids :
  calls (flat_map (cleanup_effects now_ b) ids)
  = map closeSession (filter (idle_session now_ b) ids).
Proof.
  induction ids as [|sid ids IH]; cbn [flat_map filter]; [reflexivity|].
  rewrite calls_app, IH. unfold cleanup_effects.
  destruct (idle_session now_ b sid); [|reflexivity].
  destruct (closeSession_throws b sid); reflexivity.
Qed.

Lemma console_errors_app l1 l2 :
  console_errors (l1 ++ l2) = console_errors l1 ++ console_errors l2.
Proof.
  induction l1 as [|e l1 IH]; cbn; [reflexivity|].
  destruct e; cbn; try exact IH.
  destruct (String.eqb level "error"); cbn; now rewrite IH.
Qed.

Lemma console_errors_cleanup_effects now_ (b : B) ids :
  console_errors (flat_map (cleanup_effects now_ b) ids)
  = flat_map
      (fun sid =>
         match closeSession_throws b sid with
         | Some e =>
             [("Error force closing inactive session " ++ sid ++ ": "
               ++ String_of e)%string]
         | None => []
         end)
      (filter (idle_session now_ b) ids).
Proof.
  induction ids as [|sid ids IH]; cbn [flat_map filter]; [reflexivity|].
  rewrite console_errors_app, IH. unfold cleanup_effects.
  destruct (idle_session now_ b sid); [|reflexivity].
  cbn [flat_map]. destruct (closeSession_throws b sid); reflexivity.
Qed.

(** C5, as the code has it. On a tick of the cleanup interval
    (every 60000 ms), [closeSession] is called for exactly the active
    sessions whose last activity is more than five minutes old, whatever
    clients are attached; a close that throws is logged and the pass goes
    on with the remaining sessions.  The pass leaves the three maps of the
    server as they are, so each channel is still listed by [GET /channels],
    with the same client count. *)
Theorem reaper_closes_idle_sessions c :
  NoDup (getActiveSessions (bedrockClient (st c))) ->
  let b := bedrockClient (st c) in
  let idle := filter (idle_session (now c) b) (getActiveSessions b) in
  (forall b0 t0,
      timers (boot b0 t0)
      = [{| tm_id := O; tm_due := t0 + 60000; tm_period := Some 60000;
            tm_callback := sessionCleanup |}])
  /\ exists c',
       run_sync sessionCleanup c = (c', Finished tt)
       /\ calls (effects_since c c') = map closeSession idle
       /\ console_errors (effects_since c c')
          = flat_map
              (fun sid =>
                 match closeSession_throws b sid with
                 | Some e =>
                     [("Error force closing inactive session " ++ sid ++ ": "
                       ++ String_of e)%string]
                 | None => []
                 end) idle
       /\ channelStreams (st c') = channelStreams (st c)
       /\ channelClients (st c') = channelClients (st c)
       /\ clientChannels (st c') = clientChannels (st c)
       /\ map id (getChannels (st c')) = map id (getChannels (st c))
       /\ map clientCount (getChannels (st c')) = map clientCount (getChannels (st c)).
Proof.
  intros Hnd b idle. split; [reflexivity|].
  unfold sessionCleanup. run_steps.
  set (c0 := with_st (emit (EConsole "log" "Running session cleanup check")) c).
  destruct (@cleanup_loop (getActiveSessions b) c0 Hnd)
    as (c' & Hrun & Htr & Hs & Hc & Hcc & _).
  exists c'. cbn [st with_st emit bedrockClient]. fold b.
  change (now c0) with (now c) in *. split; [exact Hrun|].
  assert (Heff : effects_since c c'
                 = EConsole "log" "Running session cleanup check"
                   :: flat_map (cleanup_effects (now c) b) (getActiveSessions b)).
  { apply effects_since_trace. rewrite Htr. subst c0. cbn.
    now rewrite <- app_assoc. }
  rewrite Heff. cbn [calls console_errors String.eqb Ascii.eqb Bool.eqb].
  rewrite calls_cleanup_effects, console_errors_cleanup_effects.
  repeat split; try (subst c0; cbn in *; congruence).
  - unfold getChannels. rewrite Hc. subst c0. cbn. rewrite !map_map.
    apply map_ext. intros [k v]. reflexivity.
  - unfold getChannels. rewrite Hc. subst c0. cbn. rewrite !map_map.
    apply map_ext. intros [k v]. reflexivity.
Qed.
End Reaper.

(** ** Tools *)

Section ToolFacts.
Import Tools.
Variable fetch_json : string -> completion string.
#[local] Arguments String.append : simpl never.

Lemma offsets_from_step len i :
  (i < len)%nat -> offsets_from len i = S (offsets_from len (i + 1024)).
Proof.
  intros Hi. unfold offsets_from.
  destruct (Nat.le_gt_cases len (i + 1024)) as [Hle|Hgt].
  - replace (len - (i + 1024))%nat with 0%nat by lia.
    change ((0 + 1023) / 1024)%nat with 0%nat.
    symmetry. apply Nat.div_unique with (r := (len - i - 1)%nat); lia.
  - replace (len - i + 1023)%nat with (1 * 1024 + (len - (i + 1024) + 1023))%nat by lia.
    rewrite Nat.div_add_l by lia. lia.
Qed.

Lemma offsets_from_done len i : (len <= i)%nat -> offsets_from len i = 0%nat.
Proof.
  intros Hi. unfold offsets_from. replace (len - i)%nat with 0%nat by lia.
  reflexivity.
Qed.

Lemma offsets_from_le len i : (offsets_from len i <= len - i)%nat.
Proof.
  unfold offsets_from.
  destruct (Nat.eq_dec (len - i) 0) as [->|Hn]; [cbn; lia|].
  apply Nat.Div0.div_le_upper_bound. lia.
Qed.

Lemma send_per_offset_spec fuel e len i :
  (offsets_from len i <= fuel)%nat ->
  send_per_offset fuel e len i = repeat e (offsets_from len i).
Proof.
  revert i. induction fuel as [|fuel IH]; intros i Hf.
  - assert (offsets_from len i = 0%nat) as -> by lia. reflexivity.
  - cbn [send_per_offset]. destruct (Nat.ltb_spec i len) as [Hlt|Hge].
    + change chunkSize with 1024%nat.
      rewrite (offsets_from_step Hlt) in *. cbn [repeat]. f_equal.
      apply IH. lia.
    + now rewrite offsets_from_done.
Qed.

Lemma stream_chunks_spec fuel pn cn audio i :
  (offsets_from (List.length audio) i <= fuel)%nat ->
  stream_chunks fuel pn cn audio i =
  flat_map
    (fun k => repeat (audioInput pn cn (chunk_payload audio (i + 1024 * k)))
                     (offsets_from (List.length audio) 0))
    (seq 0 (offsets_from (List.length audio) i)).
Proof.
  revert i. induction fuel as [|fuel IH]; intros i Hf.
  - assert (offsets_from (List.length audio) i = 0%nat) as -> by lia. reflexivity.
  - cbn [stream_chunks]. destruct (Nat.ltb_spec i (List.length audio)) as [Hlt|Hge].
    + change chunkSize with 1024%nat.
      rewrite (offsets_from_step Hlt) in *. cbn [seq flat_map]. f_equal.
      * unfold chunk_events. rewrite Nat.mul_0_r, Nat.add_0_r.
        apply send_per_offset_spec.
        pose proof (offsets_from_le (List.length audio) 0). lia.
      * rewrite IH by lia. rewrite <- seq_shift.
        rewrite !flat_map_concat_map, map_map. f_equal.
        apply map_ext. intros k. do 3 f_equal. lia.
    + rewrite (@offsets_from_done (List.length audio) i) by lia. reflexivity.
Qed.

Lemma chunk_payload_spec audio i :
  chunk_payload audio i =
  let chunk := slice audio i (Nat.min (i + 1024) (List.length audio)) in
  firstn (2 * (List.length chunk / 2)) chunk.
Proof. unfold chunk_payload. cbv zeta. apply bytes_of_Int16Array_of. Qed.


Lemma registeredTools_get toolName :
  map_get toolName (registerXMLTools fetch_json registeredTools)
  = match functions fetch_json toolName with
    | Some func => Some (ToolClass_execute fetch_json toolName)
    | None => None
    end.
Proof.
  unfold registerXMLTools, registeredTools, functions.
  cbn [fold_left tool_id tool_function_name].
  destruct (String.eqb_spec toolName "get_weather") as [-> | H4]; [reflexivity|].
  rewrite map_get_set_neq by congruence.
  destruct (String.eqb_spec toolName "check_for_outage") as [-> | H3]; [reflexivity|].
  rewrite map_get_set_neq by congruence.
  destruct (String.eqb_spec toolName "check_connection") as [-> | H2]; [reflexivity|].
  rewrite map_get_set_neq by congruence.
  destruct (String.eqb_spec toolName "check_messages") as [-> | H1]; [reflexivity|].
  rewrite map_get_set_neq by congruence. reflexivity.
Qed.

Lemma own_function_result functionName func toolUse messagesList :
  functions fetch_json functionName = Some func ->
  result (func toolUse messagesList) <> Returned REmpty.
Proof.
  unfold functions.
  destruct (String.eqb functionName "check_messages");
    [intros [= <-]; discriminate|].
  destruct (String.eqb functionName "check_connection");
    [intros [= <-]; discriminate|].
  destruct (String.eqb functionName "check_for_outage").
  { intros [= <-]. unfold check_for_outage.
    destruct (content toolUse) as [| |input]; try discriminate.
    destruct (affectsAllUserDevices input); discriminate. }
  destruct (String.eqb functionName "get_weather"); [|discriminate].
  intros [= <-]. unfold get_weather.
  destruct (content toolUse) as [| |input]; try discriminate.
  destruct (fetch_json _); discriminate.
Qed.

(** C4, as the code has it.  [ToolRegistry.execute] catches nothing and
    converts nothing.  A tool name that is not registered throws "Tool
    <name> not supported"; the outcome of the handler of a registered
    tool, a result or an exception, is the outcome of the dispatch call:
    so [get_weather] throws what a failed weather request threw, and
    [get_weather] and [check_for_outage] throw on an input that is not
    JSON or is null.  With the tools of the module no dispatch gives the
    empty result: a tool class gives it exactly when its function name is
    neither a property of the table of functions nor one that the table
    inherits. *)
Theorem tool_errors_propagate messagesList toolUse :
  let tools := registerXMLTools fetch_json registeredTools in
  (forall toolName,
      map_get toolName tools = None ->
      result (execute tools messagesList toolName toolUse)
      = Thrown (JsError ("Tool " ++ toolName ++ " not supported")))
  /\ (forall toolName handler,
        map_get toolName tools = Some handler ->
        execute tools messagesList toolName toolUse = handler toolUse messagesList)
  /\ (forall input e,
        content toolUse = JSONValue input ->
        fetch_json ("https://api.open-meteo.com/v1/forecast?latitude="
                    ++ latitude input ++ "&longitude=" ++ longitude input
                    ++ "&current_weather=true") = Thrown e ->
        result (execute tools messagesList "get_weather" toolUse) = Thrown e)
  /\ (content toolUse = NotJSON ->
      result (execute tools messagesList "get_weather" toolUse)
      = Thrown (JsError "Unexpected token in JSON")
      /\ result (execute tools messagesList "check_for_outage" toolUse)
         = Thrown (JsError "Unexpected token in JSON"))
  /\ (content toolUse = JSONNull ->
      exists m1 m2,
        result (execute tools messagesList "get_weather" toolUse)
        = Thrown (JsTypeError m1)
        /\ result (execute tools messagesList "check_for_outage" toolUse)
           = Thrown (JsTypeError m2))
  /\ (forall toolName,
        result (execute tools messagesList toolName toolUse) <> Returned REmpty)
  /\ (forall functionName,
        result (ToolClass_execute fetch_json functionName toolUse messagesList)
        = Returned REmpty
        <-> functions fetch_json functionName = None
            /\ Object_prototype functionName = None).
Proof.
  intros tools.
  split; [|split; [|split; [|split; [|split; [|split]]]]].
  - intros toolName Hn. unfold execute. now rewrite Hn.
  - intros toolName handler Hh. unfold execute. now rewrite Hh.
  - intros input e Hc Hf. cbn. unfold ToolClass_execute, get_weather. cbn.
    rewrite Hc, Hf. reflexivity.
  - intros Hc. split; cbn; unfold ToolClass_execute; cbn;
      [unfold get_weather | unfold check_for_outage]; now rewrite Hc.
  - intros Hc. do 2 eexists. split; cbn; unfold ToolClass_execute; cbn;
      [unfold get_weather | unfold check_for_outage]; rewrite Hc; reflexivity.
  - intros toolName. unfold execute. subst tools. rewrite registeredTools_get.
    destruct (functions fetch_json toolName) as [func|] eqn:Hf; [|discriminate].
    unfold ToolClass_execute, functions_get. rewrite Hf.
    now apply own_function_result with (functionName := toolName).
  - intros functionName. unfold ToolClass_execute, functions_get.
    destruct (functions fetch_json functionName) as [func|] eqn:Hf.
    + split; [|intros [[=] _]].
      intros Hr. exfalso. revert Hr.
      now apply own_function_result with (functionName := functionName).
    + destruct (Object_prototype functionName) as [[| | |]|];
        cbn; split; try discriminate; try (intros [_ [=]]); auto.
Qed.
End ToolFacts.

(** ** The event loop *)

Section EventLoop.
Context {B : Type} `{NovaSonicClient B}.
Variables browser_isOn vonage_isOn : bool.
Implicit Types (c : @config B) (s : @state B).

Lemma drain_quiescent n c :
  find_ready (settled c) (pool c) = None -> drain n c = c.
Proof.
  intros Hq. destruct n as [|n]; [reflexivity|]. cbn.
  destruct (exited c); [reflexivity|]. now rewrite Hq.
Qed.

Lemma drain_exited n c code : exited c = Some code -> drain n c = c.
Proof. intros He. destruct n as [|n]; [reflexivity|]. cbn. now rewrite He. Qed.

Lemma drain_resume n c t o rest :
  exited c = None ->
  find_ready (settled c) (pool c) = Some (t, o, rest) ->
  drain (S n) c
  = drain n (start (t_result t) (t_cont t o) (with_pool (fun _ => rest) c)).
Proof. intros He Hf. cbn. now rewrite He, Hf. Qed.

(** What every resumption preserves, the draining preserves. *)
Lemma drain_preserves (P : config -> Prop) :
  (forall c t o rest,
      P c -> exited c = None ->
      find_ready (settled c) (pool c) = Some (t, o, rest) ->
      P (start (t_result t) (t_cont t o) (with_pool (fun _ => rest) c))) ->
  forall n c, P c -> P (drain n c).
Proof.
  intros Hstep n. induction n as [|n IH]; intros c Hc; [exact Hc|].
  cbn. destruct (exited c) eqn:He; [exact Hc|].
  destruct (find_ready (settled c) (pool c)) as [[[t o] rest]|] eqn:Hf; [|exact Hc].
  apply IH. now apply Hstep.
Qed.

Lemma find_ready_none l (ts : list (@task B)) :
  Forall (fun t => ready l (t_wait t) = None) ts -> find_ready l ts = None.
Proof.
  induction 1 as [|t ts Ht Hts IH]; cbn; [reflexivity|]. now rewrite Ht, IH.
Qed.

Lemma step_disabled c ev :
  enabled ev c = false -> step browser_isOn vonage_isOn c ev = c.
Proof. intros He. unfold step. now rewrite He. Qed.

Lemma step_enabled c ev :
  enabled ev c = true ->
  step browser_isOn vonage_isOn c ev
  = let c' := react browser_isOn vonage_isOn (what ev) (with_now (at_ms ev) c) in
    drain (microtask_budget c') c'.
Proof. intros He. unfold step. now rewrite He. Qed.

Lemma run_snoc evs ev c :
  run browser_isOn vonage_isOn (evs ++ [ev]) c
  = step browser_isOn vonage_isOn (run browser_isOn vonage_isOn evs c) ev.
Proof. unfold run. now rewrite fold_left_app. Qed.

Lemma run_cons evs ev c :
  run browser_isOn vonage_isOn (ev :: evs) c
  = run browser_isOn vonage_isOn evs (step browser_isOn vonage_isOn c ev).
Proof. reflexivity. Qed.

Lemma step_exited c ev code :
  exited c = Some code -> step browser_isOn vonage_isOn c ev = c.
Proof. intros He. apply step_disabled. unfold enabled. now rewrite He. Qed.
End EventLoop.


(** ** Teardown after the last client left *)

Section Teardown.
Context {B : Type} `{NovaSonicClient B}.
Variables browser_isOn vonage_isOn : bool.
Implicit Types (c : @config B) (s : @state B).
#[local] Arguments String.append : simpl never.

Abbreviation step' := (step browser_isOn vonage_isOn).
Abbreviation run' := (run browser_isOn vonage_isOn).

Lemma close_last_client s t0 ws ch sess :
  map_get ws (clientChannels s) = Some ch ->
  String.eqb ch "" = false ->
  map_get ch (channelClients s) = Some [ws] ->
  map_get ch (channelStreams s) = Some sess ->
  isSessionActive (bedrockClient s) ch = true ->
  exists s1,
    step' (idle s t0) {| at_ms := t0; what := SocketClosed ws |}
    = teardown_pending 1 s1 t0 t0 ws ch sess
    /\ pending_state s ch sess 1 s1
    /\ exists l, trace s1 = trace s ++ l
                 /\ calls l = [sessionCall sess endAudioContent].
Proof.
  intros Hc Hne Hcl Hs Ha. rewrite step_enabled.
  2:{ unfold enabled. cbn. now rewrite Z.leb_refl. }
  cbn -[drain]. unfold start, handleClose.
  cbn -[drain]. rewrite Hc. cbn -[drain]. rewrite Hne. cbn -[drain].
  rewrite Hcl. cbn -[drain].
  rewrite Nat.eqb_refl. cbn -[drain]. rewrite Hs, Ha. cbn.
  eexists. split; [reflexivity|]. unfold pending_state. cbn.
  repeat split.
  - unfold map_has. now rewrite Hs.
  - unfold map_has. now rewrite map_get_set_eq.
  - eexists. rewrite <- !app_assoc. split; [reflexivity|]. cbn.
    now rewrite Nat.eqb_refl.
  - eexists. rewrite <- !app_assoc. split; reflexivity.
Qed.

Lemma session_ops_app sess l1 l2 :
  session_ops sess (l1 ++ l2) = session_ops sess l1 ++ session_ops sess l2.
Proof.
  induction l1 as [|e l1 IH]; cbn; [reflexivity|].
  destruct e as [| |cc| |]; cbn; try exact IH.
  destruct cc; cbn; try exact IH.
  destruct (Nat.eqb s sess); cbn; now rewrite IH.
Qed.

Lemma closeSession_count_app sid l1 l2 :
  closeSession_count sid (l1 ++ l2)
  = (closeSession_count sid l1 + closeSession_count sid l2)%nat.
Proof.
  induction l1 as [|e l1 IH]; cbn; [reflexivity|].
  destruct e as [| |cc| |]; cbn; try exact IH.
  destruct cc; cbn; try exact IH.
  destruct (String.eqb sessionId sid); cbn; now rewrite IH.
Qed.

(** *** The suspended functions, one resumption at a time *)

Lemma graceful_rejected k sess e c :
  run_sync (graceful_continuation k sess (Rejected e)) c = (c, Failed e).
Proof. destruct k as [|[|[|k]]]; reflexivity. Qed.

Lemma graceful_resolved_1 sess c :
  run_sync (graceful_continuation 1 sess Resolved) c
  = (called (sessionCall sess endPrompt) c,
     Blocked (WaitOn (nextPromise c)) (graceful_continuation 2 sess)).
Proof. destruct c. reflexivity. Qed.

Lemma graceful_resolved_2 sess c :
  run_sync (graceful_continuation 2 sess Resolved) c
  = (called (sessionCall sess close) c,
     Blocked (WaitOn (nextPromise c)) (graceful_continuation 3 sess)).
Proof. destruct c. reflexivity. Qed.

Lemma graceful_resolved_3 sess c :
  run_sync (graceful_continuation 3 sess Resolved) c = (c, Finished tt).
Proof. reflexivity. Qed.

Lemma close_resolved ws ch c :
  run_sync (close_continuation ws ch Resolved) c
  = (gracefully_closed ws ch c, Finished tt).
Proof. reflexivity. Qed.

Lemma close_rejected ws ch e c :
  run_sync (close_continuation ws ch (Rejected e)) c
  = (force_closed ws ch e c, Finished tt).
Proof.
  unfold close_continuation, force_closed, forceClose, removeChannel.
  cbn [resume]. run_steps. cbn [st with_st emit bedrockClient].
  destruct (closeSession_throws (bedrockClient (st c)) ch); run_steps; reflexivity.
Qed.

#[local] Arguments graceful_continuation : simpl never.
#[local] Arguments close_continuation : simpl never.

Ltac resume_one :=
  erewrite drain_resume; [ | reflexivity | cbn; reflexivity ];
  cbn -[drain start]; unfold start.
Ltac no_more := rewrite drain_quiescent by (cbn; reflexivity).

Lemma pending_enabled k s t0 tnow ws ch sess t w :
  enabled {| at_ms := t; what := w |} (teardown_pending k s t0 tnow ws ch sess)
  = (tnow <=? t) && (t <=? t0 + 3000)
    && match w with
       | TimerDue tm => Nat.eqb tm 0 && (t0 + 3000 =? t)
       | _ => true
       end.
Proof.
  unfold enabled. cbn. unfold cleanupTimeoutMs. rewrite andb_true_r.
  f_equal. destruct w; try reflexivity.
  unfold find_timer. cbn. destruct t1 as [|t1]; reflexivity.
Qed.

Lemma pending_resolved_1 s t0 tnow ws ch sess t :
  tnow <= t -> t <= t0 + 3000 ->
  step' (teardown_pending 1 s t0 tnow ws ch sess)
        {| at_ms := t; what := Settled 1%nat Resolved |}
  = teardown_pending 2
      (with_bedrockClient (after_call t (sessionCall sess endPrompt))
         (emit (ECall (sessionCall sess endPrompt)) s))
      t0 t ws ch sess.
Proof.
  intros H1 H2. rewrite step_enabled.
  2:{ rewrite pending_enabled. apply andb_true_intro. split; [|reflexivity].
      apply andb_true_intro. split; now apply Z.leb_le. }
  cbv zeta. cbn -[drain start].
  resume_one. rewrite graceful_resolved_1. cbn -[drain].
  no_more. reflexivity.
Qed.

Lemma pending_resolved_2 s t0 tnow ws ch sess t :
  tnow <= t -> t <= t0 + 3000 ->
  step' (teardown_pending 2 s t0 tnow ws ch sess)
        {| at_ms := t; what := Settled 3%nat Resolved |}
  = teardown_pending 3
      (with_bedrockClient (after_call t (sessionCall sess close))
         (emit (ECall (sessionCall sess close)) s))
      t0 t ws ch sess.
Proof.
  intros H1 H2. rewrite step_enabled.
  2:{ rewrite pending_enabled. apply andb_true_intro. split; [|reflexivity].
      apply andb_true_intro. split; now apply Z.leb_le. }
  cbv zeta. cbn -[drain start].
  resume_one. rewrite graceful_resolved_2. cbn -[drain].
  no_more. reflexivity.
Qed.

Lemma pending_resolved_3 s t0 tnow ws ch sess t :
  tnow <= t -> t <= t0 + 3000 ->
  step' (teardown_pending 3 s t0 tnow ws ch sess)
        {| at_ms := t; what := Settled 4%nat Resolved |}
  = gracefully_closed ws ch
      {| st := s; pool := []; timers := [teardown_timer t0];
         settled := [(1%nat, Resolved); (3%nat, Resolved); (4%nat, Resolved);
                     (0%nat, Resolved)];
         pendingExternal := []; nextPromise := 5%nat; nextTimer := 1%nat;
         now := t; exited := None |}.
Proof.
  intros H1 H2. rewrite step_enabled.
  2:{ rewrite pending_enabled. apply andb_true_intro. split; [|reflexivity].
      apply andb_true_intro. split; now apply Z.leb_le. }
  cbv zeta. cbn -[drain start].
  resume_one. rewrite graceful_resolved_3. cbn -[drain start].
  resume_one. rewrite close_resolved. cbn -[drain].
  no_more. reflexivity.
Qed.

Lemma pending_rejected k s t0 tnow ws ch sess t e :
  (1 <= k <= 3)%nat -> tnow <= t -> t <= t0 + 3000 ->
  step' (teardown_pending k s t0 tnow ws ch sess)
        {| at_ms := t; what := Settled (awaited_promise k) (Rejected e) |}
  = force_closed ws ch e
      {| st := s; pool := []; timers := [teardown_timer t0];
         settled := settled (teardown_pending k s t0 tnow ws ch sess)
                    ++ [(awaited_promise k, Rejected e); (0%nat, Rejected e)];
         pendingExternal := [];
         nextPromise := nextPromise (teardown_pending k s t0 tnow ws ch sess);
         nextTimer := 1%nat; now := t; exited := None |}.
Proof.
  intros Hk H1 H2. rewrite step_enabled.
  2:{ rewrite pending_enabled. apply andb_true_intro. split; [|reflexivity].
      apply andb_true_intro. split; now apply Z.leb_le. }
  assert (Hk' : k = 1%nat \/ k = 2%nat \/ k = 3%nat) by lia.
  destruct Hk' as [-> | [-> | ->]]; cbv zeta; cbn -[drain start];
    resume_one; rewrite graceful_rejected; cbn -[drain start];
    resume_one; rewrite close_rejected; cbn -[drain force_closed];
    no_more; reflexivity.
Qed.

Lemma pending_other k s t0 tnow ws ch sess t p o :
  (1 <= k <= 3)%nat -> tnow <= t -> t <= t0 + 3000 ->
  p <> awaited_promise k ->
  step' (teardown_pending k s t0 tnow ws ch sess)
        {| at_ms := t; what := Settled p o |}
  = teardown_pending k s t0 t ws ch sess.
Proof.
  intros Hk H1 H2 Hp. rewrite step_enabled.
  2:{ rewrite pending_enabled. apply andb_true_intro. split; [|reflexivity].
      apply andb_true_intro. split; now apply Z.leb_le. }
  apply Nat.eqb_neq in Hp.
  assert (Hk' : k = 1%nat \/ k = 2%nat \/ k = 3%nat) by lia.
  destruct Hk' as [-> | [-> | ->]]; cbv zeta; cbn -[drain start] in *;
    rewrite Hp; cbn -[drain start]; no_more; reflexivity.
Qed.

Lemma pending_timeout k s t0 tnow ws ch sess :
  (1 <= k <= 3)%nat -> tnow <= t0 + 3000 ->
  step' (teardown_pending k s t0 tnow ws ch sess)
        {| at_ms := t0 + 3000; what := TimerDue 0%nat |}
  = force_closed ws ch (JsError "Session cleanup timeout")
      {| st := s; pool := [graceful_task k (awaited_promise k) sess]; timers := [];
         settled := settled (teardown_pending k s t0 tnow ws ch sess)
                    ++ [(2%nat, Rejected (JsError "Session cleanup timeout"))];
         pendingExternal := [awaited_promise k];
         nextPromise := nextPromise (teardown_pending k s t0 tnow ws ch sess);
         nextTimer := 1%nat; now := t0 + 3000; exited := None |}.
Proof.
  intros Hk H1. rewrite step_enabled.
  2:{ rewrite pending_enabled. cbn. rewrite Z.eqb_refl, Z.leb_refl.
      rewrite !andb_true_r. now apply Z.leb_le. }
  assert (Hk' : k = 1%nat \/ k = 2%nat \/ k = 3%nat) by lia.
  destruct Hk' as [-> | [-> | ->]]; cbv zeta; cbn -[drain start];
    unfold fire, start; cbn -[drain start];
    resume_one; rewrite close_rejected; cbn -[drain force_closed];
    no_more; reflexivity.
Qed.

(** *** The channel ends removed *)

Lemma force_closed_done s0 t0 ws ch sess k e c l :
  exited c = None ->
  (timers c = [] \/ timers c = [teardown_timer t0]) ->
  trace (st c) = trace s0 ++ l ->
  closeSession_count ch l = 0%nat ->
  session_ops sess l = firstn k graceful_ops ->
  (1 <= k <= 3)%nat ->
  (pool c = [] \/ exists p, pool c = [graceful_task k p sess]) ->
  teardown_done s0 t0 ws ch sess true (force_closed ws ch e c).
Proof.
  intros He Ht Htr Hcnt Hops Hk Hpool. unfold teardown_done, force_closed.
  cbn. repeat split; try assumption.
  - apply map_get_delete_eq.
  - apply map_get_delete_eq.
  - apply map_get_delete_eq.
  - eexists. exists k. rewrite Htr, <- !app_assoc. split; [reflexivity|].
    rewrite closeSession_count_app, session_ops_app, Hcnt, Hops.
    destruct (closeSession_throws (bedrockClient (st c)) ch); cbn;
      rewrite String.eqb_refl, app_nil_r; repeat split; try lia;
      try assumption; discriminate.
Qed.

Lemma gracefully_closed_done s0 t0 ws ch sess c l :
  exited c = None ->
  (timers c = [] \/ timers c = [teardown_timer t0]) ->
  trace (st c) = trace s0 ++ l ->
  closeSession_count ch l = 0%nat ->
  session_ops sess l = firstn 3 graceful_ops ->
  pool c = [] ->
  teardown_done s0 t0 ws ch sess false (gracefully_closed ws ch c).
Proof.
  intros He Ht Htr Hcnt Hops Hpool. unfold teardown_done, gracefully_closed.
  cbn. repeat split; try assumption.
  - apply map_get_delete_eq.
  - apply map_get_delete_eq.
  - apply map_get_delete_eq.
  - eexists. exists 3%nat. rewrite Htr, <- !app_assoc. split; [reflexivity|].
    rewrite closeSession_count_app, session_ops_app, Hcnt, Hops. cbn.
    repeat split; try lia. now left.
Qed.

(** Once the channel is removed, the async block that may remain only
    calls the session. *)
Lemma done_resume s0 t0 ws ch sess f tl tnow c t o rest :
  teardown_done s0 t0 ws ch sess f c /\ timers c = tl /\ now c = tnow ->
  exited c = None ->
  find_ready (settled c) (pool c) = Some (t, o, rest) ->
  let c' := start (t_result t) (t_cont t o) (with_pool (fun _ => rest) c) in
  teardown_done s0 t0 ws ch sess f c' /\ timers c' = tl /\ now c' = tnow.
Proof.
  intros [(He & Ht & Hs & Hc & Hw & l & k & Htr & Hcnt & Hops & Hk & Hf & Hpool)
            [Htl Hnow]] _ Hready.
  destruct Hpool as [Hp | [p Hp]]; rewrite Hp in Hready; cbn in Hready;
    [discriminate|].
  destruct (map_get p (settled c)) as [o'|]; [|discriminate].
  injection Hready as <- <- <-. cbv zeta. cbn [t_result t_cont graceful_task].
  unfold start, teardown_done.
  destruct o' as [|e].
  - assert (Hk' : k = 1%nat \/ k = 2%nat \/ k = 3%nat) by lia.
    destruct Hk' as [-> | [-> | ->]].
    + rewrite graceful_resolved_1. cbn. repeat split; try assumption.
      eexists. exists 2%nat. rewrite Htr, <- app_assoc. split; [reflexivity|].
      rewrite closeSession_count_app, session_ops_app, Hcnt, Hops. cbn.
      rewrite Nat.eqb_refl. repeat split; try lia.
      * intros Hff. apply Hf in Hff. lia.
      * right. eexists. reflexivity.
    + rewrite graceful_resolved_2. cbn. repeat split; try assumption.
      eexists. exists 3%nat. rewrite Htr, <- app_assoc. split; [reflexivity|].
      rewrite closeSession_count_app, session_ops_app, Hcnt, Hops. cbn.
      rewrite Nat.eqb_refl. repeat split; try lia.
      right. eexists. reflexivity.
    + rewrite graceful_resolved_3. cbn. repeat split; try assumption.
      exists l, 3%nat. repeat split; try assumption; try lia. now left.
  - rewrite graceful_rejected. cbn. repeat split; try assumption.
    exists l, k. repeat split; try assumption; try lia. now left.
Qed.

Lemma done_drain s0 t0 ws ch sess f tl tnow n c :
  teardown_done s0 t0 ws ch sess f c /\ timers c = tl /\ now c = tnow ->
  teardown_done s0 t0 ws ch sess f (drain n c)
  /\ timers (drain n c) = tl /\ now (drain n c) = tnow.
Proof.
  apply (drain_preserves
           (fun c => teardown_done s0 t0 ws ch sess f c
                     /\ timers c = tl /\ now c = tnow)).
  intros c0 t o rest HP He Hr. now apply done_resume.
Qed.

Lemma done_settle s0 t0 ws ch sess f c p o :
  teardown_done s0 t0 ws ch sess f c ->
  teardown_done s0 t0 ws ch sess f (settle p o c).
Proof. intros Hd. exact Hd. Qed.

Lemma done_with_now s0 t0 ws ch sess f c t :
  teardown_done s0 t0 ws ch sess f c ->
  teardown_done s0 t0 ws ch sess f (with_now t c).
Proof. intros Hd. exact Hd. Qed.

Lemma done_step s0 t0 ws ch sess f (armed : bool) tnow c ev :
  teardown_done s0 t0 ws ch sess f c ->
  now c = tnow ->
  (if armed then timers c = [teardown_timer t0] /\ tnow <= t0 + 3000
   else timers c = []) ->
  env_only ev ->
  teardown_rel s0 t0 ws ch sess
    (teardown_react t0
       {| tv_now := tnow; tv_armed := armed; tv_phase := Removed f |} ev)
    (step' c ev).
Proof.
  intros Hd Hnow Harm Henv.
  assert (He : exited c = None) by apply Hd.
  assert (Hsame : teardown_rel s0 t0 ws ch sess
                    {| tv_now := tnow; tv_armed := armed; tv_phase := Removed f |} c).
  { unfold teardown_rel. cbn [tv_now tv_armed tv_phase].
    split; [exact Hnow | split; [exact Hd | exact Harm]]. }
  destruct ev as [t w]. destruct w; try contradiction; clear Henv;
    unfold teardown_react; cbn [tv_now tv_armed tv_phase at_ms what].
  - (* a promise is settled *)
    assert (Hen : enabled {| at_ms := t; what := Settled p o |} c
                  = (tnow <=? t) && (negb armed || (t <=? t0 + 3000))).
    { unfold enabled. rewrite He, Hnow. cbn [at_ms what]. rewrite andb_true_r.
      f_equal. destruct armed.
      - destruct Harm as [-> _]. cbn. unfold cleanupTimeoutMs.
        now rewrite andb_true_r.
      - rewrite Harm. reflexivity. }
    destruct ((tnow <=? t) && (negb armed || (t <=? t0 + 3000))) eqn:Hc.
    2:{ now rewrite step_disabled. }
    rewrite step_enabled by assumption. cbv zeta. cbn [react what at_ms].
    set (c1 := if set_has p (pendingExternal (with_now t c))
               then settle p o (with_now t c) else with_now t c).
    assert (H1 : teardown_done s0 t0 ws ch sess f c1
                 /\ timers c1 = timers c /\ now c1 = t).
    { subst c1. destruct (set_has p (pendingExternal (with_now t c)));
        repeat split; try apply Hd; reflexivity. }
    destruct (done_drain (microtask_budget c1) H1) as (Hd' & Ht' & Hn').
    unfold teardown_rel. cbn [tv_now tv_armed tv_phase].
    split; [exact Hn'|]. split; [exact Hd'|].
    rewrite Ht'. destruct armed; [|assumption].
    split; [apply Harm|]. apply andb_prop in Hc. destruct Hc as [_ Hc].
    cbn in Hc. now apply Z.leb_le.
  - (* the timer is due *)
    destruct armed.
    + destruct Harm as [Htm Hle].
      assert (Hen : enabled {| at_ms := t; what := TimerDue t1 |} c
                    = (tnow <=? t) && (t <=? t0 + 3000)
                      && (Nat.eqb t1 0 && (t =? t0 + 3000))).
      { unfold enabled, find_timer. rewrite He, Hnow, Htm. cbn.
        unfold cleanupTimeoutMs. rewrite andb_true_r. f_equal.
        destruct t1 as [|t1]; cbn; [apply Z.eqb_sym | reflexivity]. }
      cbn [negb orb andb].
      destruct ((tnow <=? t) && (t <=? t0 + 3000)) eqn:Hc;
        [|rewrite step_disabled; [exact Hsame | now rewrite Hen]].
      destruct (Nat.eqb t1 0 && (t =? t0 + 3000)) eqn:Hc2;
        [|rewrite step_disabled; [exact Hsame | now rewrite Hen]].
      apply andb_prop in Hc2. destruct Hc2 as [Ht1 Hteq].
      apply Nat.eqb_eq in Ht1. apply Z.eqb_eq in Hteq. subst t1 t.
      rewrite step_enabled by (now rewrite Hen).
      cbv zeta. cbn [react what at_ms]. unfold find_timer.
      cbn [timers with_now]. rewrite Htm. cbn [find tm_id teardown_timer Nat.eqb].
      unfold fire, start. cbn -[drain].
      set (c1 := settle 2%nat (Rejected (JsError "Session cleanup timeout"))
                   (remove_timer 0%nat (with_now (t0 + 3000) c))).
      assert (H1 : teardown_done s0 t0 ws ch sess f c1
                   /\ timers c1 = [] /\ now c1 = t0 + 3000).
      { subst c1. repeat split; try apply Hd.
        - left. cbn. now rewrite Htm.
        - cbn. now rewrite Htm. }
      destruct (done_drain (microtask_budget c1) H1) as (Hd' & Ht' & Hn').
      unfold teardown_rel. cbn [tv_now tv_armed tv_phase].
      split; [exact Hn' | split; [exact Hd' | exact Ht']].
    + assert (Hen : enabled {| at_ms := t; what := TimerDue t1 |} c = false).
      { unfold enabled, find_timer. rewrite He, Harm. cbn.
        now rewrite andb_false_r. }
      rewrite step_disabled by assumption.
      cbn [andb]. destruct ((tnow <=? t) && (negb false || (t <=? t0 + 3000)));
        exact Hsame.
Qed.

Lemma pending_state_call s0 ch sess k s t op :
  pending_state s0 ch sess k s ->
  firstn k graceful_ops ++ [op] = firstn (S k) graceful_ops ->
  pending_state s0 ch sess (S k)
    (with_bedrockClient (after_call t (sessionCall sess op))
       (emit (ECall (sessionCall sess op)) s)).
Proof.
  intros (Hs & Hc & l & Htr & Hops & Hcnt) Hnext. unfold pending_state. cbn.
  repeat split; try assumption.
  exists (l ++ [ECall (sessionCall sess op)]).
  rewrite Htr, <- app_assoc, session_ops_app, closeSession_count_app, Hops, Hcnt.
  cbn. rewrite Nat.eqb_refl. now rewrite Hnext.
Qed.

Lemma pending_step s0 t0 ws ch sess k s tnow ev :
  (1 <= k <= 3)%nat -> tnow <= t0 + 3000 ->
  pending_state s0 ch sess k s ->
  env_only ev ->
  teardown_rel s0 t0 ws ch sess
    (teardown_react t0
       {| tv_now := tnow; tv_armed := true; tv_phase := Graceful k |} ev)
    (step' (teardown_pending k s t0 tnow ws ch sess) ev).
Proof.
  intros Hk Hnow Hps Henv.
  assert (Hsame : teardown_rel s0 t0 ws ch sess
                    {| tv_now := tnow; tv_armed := true; tv_phase := Graceful k |}
                    (teardown_pending k s t0 tnow ws ch sess)).
  { unfold teardown_rel. cbn [tv_now tv_armed tv_phase].
    split; [reflexivity|]. repeat split; try lia. now exists s. }
  destruct Hps as (Hs & Hc & l & Htr & Hops & Hcnt).
  assert (Hps : pending_state s0 ch sess k s) by (unfold pending_state; eauto 10).
  destruct ev as [t w]. destruct w; try contradiction; clear Henv;
    unfold teardown_react; cbn [tv_now tv_armed tv_phase at_ms what negb orb].
  - (* a promise is settled *)
    destruct ((tnow <=? t) && (t <=? t0 + 3000)) eqn:Hen.
    2:{ rewrite step_disabled; [exact Hsame|].
        rewrite pending_enabled, Hen. reflexivity. }
    apply andb_prop in Hen. destruct Hen as [H1 H2].
    apply Z.leb_le in H1, H2.
    destruct (Nat.eqb_spec p (awaited_promise k)) as [-> | Hp].
    + destruct o as [|e].
      * assert (Hk' : k = 1%nat \/ k = 2%nat \/ k = 3%nat) by lia.
        destruct Hk' as [-> | [-> | ->]]; cbn [Nat.eqb awaited_promise].
        -- rewrite pending_resolved_1 by assumption.
           unfold teardown_rel. cbn [tv_now tv_armed tv_phase].
           split; [reflexivity|]. repeat split; try lia.
           eexists. split; [reflexivity|]. now apply pending_state_call.
        -- rewrite pending_resolved_2 by assumption.
           unfold teardown_rel. cbn [tv_now tv_armed tv_phase].
           split; [reflexivity|]. repeat split; try lia.
           eexists. split; [reflexivity|]. now apply pending_state_call.
        -- rewrite pending_resolved_3 by assumption.
           unfold teardown_rel. cbn [tv_now tv_armed tv_phase].
           split; [reflexivity|]. split.
           ++ eapply gracefully_closed_done; try eassumption; try reflexivity.
              now right.
           ++ split; [reflexivity | assumption].
      * rewrite pending_rejected by assumption.
        unfold teardown_rel. cbn [tv_now tv_armed tv_phase].
        split; [reflexivity|]. split.
        -- eapply force_closed_done; try eassumption; try reflexivity.
           ++ now right.
           ++ now left.
        -- split; [reflexivity | assumption].
    + rewrite pending_other by assumption.
      unfold teardown_rel. cbn [tv_now tv_armed tv_phase].
      split; [reflexivity|]. repeat split; try lia. now exists s.
  - (* the timer is due *)
    destruct ((tnow <=? t) && (t <=? t0 + 3000)) eqn:Hen.
    2:{ rewrite step_disabled; [exact Hsame|].
        rewrite pending_enabled, Hen. reflexivity. }
    cbn [andb].
    destruct (Nat.eqb t1 0 && (t =? t0 + 3000)) eqn:Hen2.
    2:{ rewrite step_disabled; [exact Hsame|].
        rewrite pending_enabled, Hen. cbn [andb].
        rewrite (Z.eqb_sym (t0 + 3000) t). exact Hen2. }
    apply andb_prop in Hen2. destruct Hen2 as [Ht1 Hteq].
    apply Nat.eqb_eq in Ht1. apply Z.eqb_eq in Hteq. subst t1 t.
    rewrite pending_timeout by assumption.
    unfold teardown_rel. cbn [tv_now tv_armed tv_phase].
    split; [reflexivity|]. split; [|reflexivity].
    eapply force_closed_done; try eassumption; try reflexivity.
    + now left.
    + right. eexists. reflexivity.
Qed.

Lemma teardown_step s0 t0 ws ch sess v c ev :
  teardown_rel s0 t0 ws ch sess v c ->
  env_only ev ->
  teardown_rel s0 t0 ws ch sess (teardown_react t0 v ev) (step' c ev).
Proof.
  intros [Hnow Hrel] Henv. destruct v as [tnow armed ph]. cbn in Hnow, Hrel.
  destruct ph as [k | f].
  - destruct Hrel as (Hk & -> & Hle & s & -> & Hps).
    now apply pending_step.
  - destruct Hrel as (Hd & Harm). now apply done_step.
Qed.

Lemma teardown_run s0 t0 ws ch sess evs v c :
  teardown_rel s0 t0 ws ch sess v c ->
  Forall env_only evs ->
  teardown_rel s0 t0 ws ch sess
    (fold_left (teardown_react t0) evs v) (run' evs c).
Proof.
  intros Hrel Hevs. revert v c Hrel.
  induction Hevs as [|ev evs Hev Hevs IH]; intros v c Hrel; [exact Hrel|].
  cbn [fold_left]. rewrite run_cons. apply IH. now apply teardown_step.
Qed.

(** C6. The last client of a channel with an active session
    disconnects, in a process that was idle.  The handler starts the
    graceful sequence (end audio content, then end prompt, then close, one
    after the other as each resolves) under a timer of 3000 ms.  Whatever
    the environment then does (promises settle, the timer fires), the run
    follows the description [teardown_spec]: while the sequence is under
    way the channel is registered and nothing was closed by force; once
    an operation is rejected or the timer fires, [closeSession] is called
    once; and in every case the channel is then out of [channelStreams]
    and [channelClients] (and the socket out of [clientChannels]).  The
    sequence is never under way after the 3000 ms. *)
Theorem last_client_teardown s t0 ws ch sess evs :
  map_get ws (clientChannels s) = Some ch ->
  String.eqb ch "" = false ->
  map_get ch (channelClients s) = Some [ws] ->
  map_get ch (channelStreams s) = Some sess ->
  isSessionActive (bedrockClient s) ch = true ->
  Forall env_only evs ->
  let c1 := step' (idle s t0) {| at_ms := t0; what := SocketClosed ws |} in
  let c := run' evs c1 in
  let v := teardown_spec t0 evs in
  let done := effects_since (idle s t0) c in
  calls (effects_since (idle s t0) c1) = [sessionCall sess endAudioContent]
  /\ map tm_due (timers c1) = [t0 + 3000]
  /\ now c = tv_now v
  /\ match tv_phase v with
     | Graceful k =>
         map_has ch (channelStreams (st c)) = true
         /\ map_has ch (channelClients (st c)) = true
         /\ session_ops sess done = firstn k graceful_ops
         /\ closeSession_count ch done = 0%nat
     | Removed forced =>
         map_get ch (channelStreams (st c)) = None
         /\ map_get ch (channelClients (st c)) = None
         /\ map_get ws (clientChannels (st c)) = None
         /\ closeSession_count ch done = (if forced then 1 else 0)%nat
         /\ (forced = false -> session_ops sess done = graceful_ops)
     end
  /\ (t0 + 3000 < now c -> exists forced, tv_phase v = Removed forced).
Proof.
  intros Hc Hne Hcl Hs Ha Hevs c1 c v done.
  destruct (@close_last_client s t0 ws ch sess Hc Hne Hcl Hs Ha)
    as (s1 & Hc1 & Hps & l1 & Htr1 & Hcalls1).
  fold c1 in Hc1.
  assert (Hrel : teardown_rel s t0 ws ch sess
                   {| tv_now := t0; tv_armed := true; tv_phase := Graceful 1 |} c1).
  { rewrite Hc1. unfold teardown_rel. cbn [tv_now tv_armed tv_phase].
    split; [reflexivity|]. repeat split; try lia. now exists s1. }
  pose proof (@teardown_run s t0 ws ch sess evs _ c1 Hrel Hevs) as [Hnow Hfin].
  fold c in Hnow, Hfin. change (fold_left (teardown_react t0) evs _) with v in *.
  split; [|split; [|split; [exact Hnow|split]]].
  - rewrite (@effects_since_trace B (idle s t0) c1 l1); [exact Hcalls1|].
    rewrite Hc1. exact Htr1.
  - rewrite Hc1. reflexivity.
  - destruct (tv_phase v) as [k | f].
    + destruct Hfin as (Hk & Harm & Hle & s' & Hcs & Hs' & Hc' & l & Htr & Hops & Hcnt).
      assert (Hdone : done = l).
      { subst done. apply effects_since_trace. rewrite Hcs. exact Htr. }
      rewrite Hdone, Hcs. cbn. repeat split; assumption.
    + destruct Hfin as ((He & Ht & Hs' & Hc' & Hw & l & k & Htr & Hcnt & Hops & Hk & Hf & Hp) & _).
      assert (Hdone : done = l).
      { subst done. apply effects_since_trace. exact Htr. }
      rewrite Hdone. repeat split; try assumption.
      intros Hff. rewrite Hops, (Hf Hff). reflexivity.
  - intros Hlate. destruct (tv_phase v) as [k | f]; [|eauto].
    destruct Hfin as (_ & _ & Hle & _). lia.
Qed.
End Teardown.


(** ** Shutdown *)

Section Shutdown.
Context {B : Type} `{NovaSonicClient B}.
Variables browser_isOn vonage_isOn : bool.
Implicit Types (c : @config B) (s : @state B).
#[local] Arguments String.append : simpl never.

Abbreviation step' := (step browser_isOn vonage_isOn).
Abbreviation run' := (run browser_isOn vonage_isOn).

Hypothesis close_keeps_throws : forall t sid sid' (b : B),
  sid' <> sid ->
  closeSession_throws (after_call t (closeSession sid) b) sid'
  = closeSession_throws b sid'.

Lemma run_sync_ws_close ws c :
  run_sync (ws_close ws) c
  = (with_st (fun s =>
       with_readyState
         (fun rs w =>
            if Nat.eqb w ws
            then match rs w with CLOSED => CLOSED | _ => CLOSING end
            else rs w)
         (emit (EWsClose ws) s)) c,
     Finished tt).
Proof. reflexivity. Qed.

(** The inner loop of the shutdown: [close()] on the open sockets. *)
Lemma close_open_sockets (clients : jsset socket) c :
  exists s',
    run_sync
      (for_each clients (fun ws =>
         bind (get (fun s => readyState s ws))
              (fun rs => if is_OPEN rs then ws_close ws else skip))) c
    = (with_st (fun _ => s') c, Finished tt)
    /\ channelStreams s' = channelStreams (st c)
    /\ channelClients s' = channelClients (st c)
    /\ clientChannels s' = clientChannels (st c)
    /\ bedrockClient s' = bedrockClient (st c)
    /\ exists l,
         trace s' = trace (st c) ++ l
         /\ calls l = []
         /\ (forall ws, In ws (closes l) <->
                        In ws clients /\ readyState (st c) ws = OPEN)
         /\ (forall ws, readyState s' ws = OPEN <->
                        readyState (st c) ws = OPEN /\ ~ In ws clients).
Proof.
  revert c. induction clients as [|w clients IH]; intros c.
  - exists (st c). cbn. split; [now destruct c|]. repeat split; try reflexivity.
    exists []. rewrite app_nil_r. split; [reflexivity|]. split; [reflexivity|].
    split; intros ws; cbn; tauto.
  - cbn [for_each]. rewrite run_sync_bind, run_sync_bind, run_sync_get.
    destruct (readyState (st c) w) eqn:Hw; cbn [is_OPEN].
    2:{ (* open: closed now *)
        rewrite run_sync_ws_close.
        destruct (IH (with_st (fun s =>
                       with_readyState
                         (fun rs w' =>
                            if Nat.eqb w' w
                            then match rs w' with CLOSED => CLOSED | _ => CLOSING end
                            else rs w')
                         (emit (EWsClose w) s)) c))
          as (s' & Hrun & Hs & Hc & Hcc & Hb & l & Htr & Hcalls & Hcl & Hop).
        exists s'. rewrite Hrun. split; [reflexivity|].
        cbn in Hs, Hc, Hcc, Hb, Htr, Hcl, Hop.
        repeat split; try assumption.
        exists (EWsClose w :: l). rewrite Htr, <- app_assoc.
        split; [reflexivity|]. split; [exact Hcalls|]. split.
        - intros ws. cbn. rewrite Hcl.
          destruct (Nat.eqb_spec ws w) as [-> | Hne].
          + rewrite Hw. split; [intros _; auto | auto].
          + split; [intros [Heq | [Hin Hr]]; [congruence | auto]
                   | intros [[Heq | Hin] Hr]; [congruence | auto]].
        - intros ws. rewrite Hop. cbn.
          destruct (Nat.eqb_spec ws w) as [-> | Hne].
          + rewrite Hw. split; [intros [Hx _]; discriminate | intros [_ Hx]; tauto].
          + split; [intros [Hr Hn]; split; [exact Hr | intros [Heq | Hin]; congruence]
                   | intros [Hr Hn]; split; [exact Hr | tauto]]. }
    all: rewrite run_sync_skip;
      destruct (IH c) as (s' & Hrun & Hs & Hc & Hcc & Hb & l & Htr & Hcalls & Hcl & Hop);
      exists s'; rewrite Hrun; (split; [reflexivity|]);
      repeat split; try assumption;
      exists l; (split; [exact Htr|]); (split; [exact Hcalls|]); split;
      [ intros ws; rewrite Hcl; cbn; split;
        [ intros [Hin Hr]; auto
        | intros [[Heq | Hin] Hr]; [subst; congruence | auto] ]
      | intros ws; rewrite Hop; cbn; split;
        [ intros [Hr Hn]; split; [exact Hr | intros [Heq | Hin]; [subst; congruence | tauto]]
        | intros [Hr Hn]; split; [exact Hr | tauto] ] ].
Qed.

Lemma clients_of_ext ch s s' :
  channelClients s' = channelClients s -> clients_of ch s' = clients_of ch s.
Proof. intros Hc. unfold clients_of. now rewrite Hc. Qed.

Lemma closes_cons_call cc l : closes (ECall cc :: l) = closes l.
Proof. reflexivity. Qed.

(** The loop of the shutdown over the channels. *)
Lemma closeAll_run entries acc c :
  NoDup (map fst entries) ->
  (forall ch, In ch (map fst entries) ->
              closeSession_throws (bedrockClient (st c)) ch = None) ->
  exists s',
    run_sync (closeAllChannels entries acc) c
    = (with_st (fun _ => s') (allocated (List.length entries) c),
       Finished (acc ++ seq (nextPromise c) (List.length entries)))
    /\ channelStreams s' = channelStreams (st c)
    /\ channelClients s' = channelClients (st c)
    /\ clientChannels s' = clientChannels (st c)
    /\ exists l,
         trace s' = trace (st c) ++ l
         /\ calls l = map closeSession (map fst entries)
         /\ (forall ws,
                In ws (closes l) <->
                exists ch, In ch (map fst entries)
                           /\ In ws (clients_of ch (st c))
                           /\ readyState (st c) ws = OPEN)
         /\ (forall ws, readyState s' ws = OPEN <->
                        readyState (st c) ws = OPEN /\ ~ In ws (closes l)).
Proof.
  revert acc c. induction entries as [|[ch sess] entries IH]; intros acc c Hnd Hthrow.
  - exists (st c). cbn. rewrite app_nil_r. split.
    + f_equal. destruct c. unfold allocated, with_st. cbn.
      now rewrite app_nil_r, Nat.add_0_r.
    + repeat split. exists []. rewrite app_nil_r.
      split; [reflexivity|]. split; [reflexivity|].
      split; intros ws; cbn; [|tauto].
      split; [tauto | intros (ch & [] & _)].
  - cbn [closeAllChannels]. cbn [map fst] in Hnd, Hthrow.
    apply NoDup_cons_iff in Hnd. destruct Hnd as [Hch Hnd].
    rewrite run_sync_bind, run_sync_console. cbv beta iota.
    rewrite run_sync_bind, run_sync_closeSession_.
    cbn [st with_st emit bedrockClient].
    rewrite (Hthrow ch) by now left. cbv beta iota.
    rewrite run_sync_bind, run_sync_get. cbv beta iota.
    rewrite run_sync_bind.
    set (c1 := called (closeSession ch)
                 (with_st (emit (EConsole "log"
                    ("Closing session for channel " ++ ch ++ " during shutdown"))) c)).
    destruct (close_open_sockets (clients_of ch (st c1)) c1)
      as (s2 & Hrun2 & Hs2 & Hc2 & Hcc2 & Hb2 & l2 & Htr2 & Hcalls2 & Hcl2 & Hop2).
    rewrite Hrun2. cbv beta iota.
    set (c3 := with_st (fun _ => s2) c1).
    assert (Hthrow3 : forall ch', In ch' (map fst entries) ->
              closeSession_throws (bedrockClient (st c3)) ch' = None).
    { intros ch' Hin. subst c3. cbn [st with_st]. rewrite Hb2. subst c1. cbn.
      rewrite close_keeps_throws; [apply Hthrow; now right|].
      intros ->. contradiction. }
    destruct (IH (acc ++ [nextPromise c]) c3 Hnd Hthrow3)
      as (s' & Hrun & Hs & Hc & Hcc & l & Htr & Hcalls & Hcl & Hop).
    exists s'. change (nextPromise (with_st _ c)) with (nextPromise c).
    rewrite Hrun. split.
    + f_equal.
      * subst c3 c1. destruct c. unfold allocated, with_st, called. cbn.
        f_equal; [now rewrite <- app_assoc | lia].
      * subst c3 c1. cbn. now rewrite <- app_assoc.
    + subst c3 c1. cbn in Hs, Hc, Hcc, Htr, Hcl, Hop, Hs2, Hc2, Hcc2, Htr2, Hcl2, Hop2.
      repeat split; try congruence.
      exists ([EConsole "log"
                 ("Closing session for channel " ++ ch ++ " during shutdown");
               ECall (closeSession ch)] ++ l2 ++ l).
      assert (Hcl_ch : forall ch', clients_of ch' s2 = clients_of ch' (st c)).
      { intros ch'. unfold clients_of. now rewrite Hc2. }
      split; [|split; [|split]].
      * rewrite Htr, Htr2, <- !app_assoc. reflexivity.
      * cbn. rewrite calls_app, Hcalls2, Hcalls. reflexivity.
      * intros ws. cbn [app closes]. rewrite closes_app, in_app_iff, Hcl2, Hcl.
        unfold clients_of at 1. cbn [channelClients with_st st].
        fold (clients_of ch (st c)).
        split.
        -- intros [[Hin Hr] | (ch' & Hch' & Hin & Hr)].
           ++ exists ch. cbn. auto.
           ++ exists ch'. rewrite Hcl_ch in Hin. apply Hop2 in Hr.
              cbn. tauto.
        -- intros (ch' & [<- | Hch'] & Hin & Hr); [left; auto|].
           destruct (in_dec Nat.eq_dec ws (clients_of ch (st c))) as [Hi | Hni];
             [left; auto|].
           right. exists ch'. rewrite Hcl_ch. split; [assumption|].
           split; [assumption|]. apply Hop2. split; [assumption|].
           unfold clients_of at 1. cbn [channelClients with_st st]. exact Hni.
      * intros ws. cbn [app closes]. rewrite closes_app, in_app_iff, Hop, Hop2, Hcl2.
        unfold clients_of. cbn [channelClients with_st st]. tauto.
Qed.

(** *** The suspended handler, one resumption at a time *)

Lemma shutdown_rejected rest e c :
  run_sync (shutdown_continuation rest (Rejected e)) c
  = (with_exited 1
       (with_st (emit (EConsole "error"
                         ("Error during server shutdown: " ++ String_of e))) c),
     Exited).
Proof. reflexivity. Qed.

Lemma shutdown_resolved_1 tm c :
  run_sync (shutdown_continuation (closeServers tm) Resolved) c
  = (called (serverClose true) (called (serverClose false) c),
     Blocked (WaitAll [nextPromise c; S (nextPromise c)])
       (shutdown_continuation (finishShutdown tm))).
Proof. destruct c. reflexivity. Qed.

Lemma shutdown_resolved_2 tm c :
  run_sync (shutdown_continuation (finishShutdown tm) Resolved) c
  = (with_exited 0
       (with_st (emit (EConsole "log" "Servers shut down")) (remove_timer tm c)),
     Exited).
Proof. reflexivity. Qed.

#[local] Arguments shutdown_continuation : simpl never.

Lemma first_rejected_none ps l p e :
  first_rejected ps l = None -> In p ps -> map_get p l <> Some (Rejected e).
Proof.
  induction l as [|[q o] l IH]; cbn; [discriminate|]. intros Hf Hin.
  destruct (Nat.eqb_spec p q) as [-> | Hne].
  - destruct o as [|e']; [discriminate|].
    assert (Hs : set_has q ps = true) by (apply set_has_In; exact Hin).
    rewrite Hs in Hf. discriminate.
  - apply IH; [|exact Hin]. destruct o as [|e']; [exact Hf|].
    destruct (set_has q ps); [discriminate | exact Hf].
Qed.

Lemma ready_all_resolved l ps :
  ready l (WaitAll ps) = Some Resolved -> all_resolved l ps.
Proof.
  cbn. destruct (first_rejected ps l) as [o|] eqn:Hf.
  - intros Ho. injection Ho as ->. exfalso. clear - Hf.
    induction l as [|[q o] l IH]; cbn in Hf; [discriminate|].
    destruct o as [|e]; [auto|]. destruct (set_has q ps); [discriminate | auto].
  - destruct (forallb (fun p => map_has p l) ps) eqn:Hall; [|discriminate].
    intros _. unfold all_resolved. apply Forall_forall. intros p Hp.
    rewrite forallb_forall in Hall. specialize (Hall p Hp).
    apply map_has_get in Hall. destruct Hall as [[|e] Hv]; [exact Hv|].
    exfalso. exact (@first_rejected_none ps l p e Hf Hp Hv).
Qed.

Lemma map_get_settle p q o v c :
  map_get p (settled c) = Some v -> map_get p (settled (settle q o c)) = Some v.
Proof.
  intros Hv. cbn. destruct (map_has q (settled c)); [exact Hv|].
  clear - Hv. induction (settled c) as [|[k x] l IH]; cbn in *; [discriminate|].
  destruct (Nat.eqb p k); [exact Hv | auto].
Qed.

Lemma all_resolved_settle ps q o c :
  all_resolved (settled c) ps -> all_resolved (settled (settle q o c)) ps.
Proof.
  unfold all_resolved. rewrite !Forall_forall. intros Ha p Hp.
  apply map_get_settle. auto.
Qed.

Lemma firstn_calls_app n l l' K :
  firstn n (calls l) = K -> List.length K = n ->
  firstn n (calls (l ++ l')) = K.
Proof.
  intros HK Hlen. rewrite calls_app, firstn_app.
  assert (Hge : (n <= List.length (calls l))%nat).
  { rewrite <- HK in Hlen. rewrite length_firstn in Hlen. lia. }
  replace (n - List.length (calls l))%nat with 0%nat by lia.
  cbn. now rewrite app_nil_r.
Qed.

Lemma run_sync_forceExit c :
  run_sync forceExit c
  = (with_exited 1
       (with_st (emit (EConsole "error" "Forcing server shutdown after timeout")) c),
     Exited).
Proof. reflexivity. Qed.

Lemma shutdown_resume s0 t0 K O c t o rest :
  shutdown_inv s0 t0 K O c ->
  exited c = None ->
  find_ready (settled c) (pool c) = Some (t, o, rest) ->
  shutdown_inv s0 t0 K O
    (start (t_result t) (t_cont t o) (with_pool (fun _ => rest) c)).
Proof.
  intros ((l & Htr & HK & HO) & Hnow & Hex) He Hready.
  rewrite He in Hex. destruct Hex as (Htm & Hpool).
  destruct Hpool as [[Hp Hnp] | [Hp Hall]]; rewrite Hp in Hready;
    cbn [find_ready shutdown_task t_wait] in Hready.
  - (* waiting for the sessions *)
    destruct (ready (settled c) (WaitAll (seq 0 (List.length K)))) as [o'|] eqn:Hr;
      [|discriminate].
    injection Hready as <- <- <-. cbn [t_result t_cont shutdown_task].
    unfold start. destruct o' as [|e].
    + rewrite shutdown_resolved_1. unfold shutdown_inv. cbn.
      rewrite He. split; [|split; [exact Hnow|]].
      * eexists. rewrite Htr, <- !app_assoc. split; [reflexivity|].
        split; [apply firstn_calls_app; [exact HK | reflexivity]|].
        intros ws. rewrite closes_app. cbn. rewrite app_nil_r. apply HO.
      * split; [exact Htm|]. right. rewrite Hnp. split; [reflexivity|].
        now apply ready_all_resolved.
    + rewrite shutdown_rejected. unfold shutdown_inv. cbn.
      split; [|split; [exact Hnow|]].
      * eexists. rewrite Htr, <- !app_assoc. split; [reflexivity|].
        split; [apply firstn_calls_app; [exact HK | reflexivity]|].
        intros ws. rewrite closes_app. cbn. rewrite app_nil_r. apply HO.
      * split; [now right | discriminate].
  - (* waiting for the servers *)
    destruct (ready (settled c)
                (WaitAll [List.length K; S (List.length K)])) as [o'|] eqn:Hr;
      [|discriminate].
    injection Hready as <- <- <-. cbn [t_result t_cont shutdown_task].
    unfold start. destruct o' as [|e].
    + rewrite shutdown_resolved_2. unfold shutdown_inv. cbn.
      split; [|split; [exact Hnow|]].
      * eexists. rewrite Htr, <- !app_assoc. split; [reflexivity|].
        split; [apply firstn_calls_app; [exact HK | reflexivity]|].
        intros ws. rewrite closes_app. cbn. rewrite app_nil_r. apply HO.
      * split; [now left|]. intros _. unfold all_resolved.
        rewrite seq_app. apply Forall_app. split; [exact Hall|].
        apply ready_all_resolved in Hr. exact Hr.
    + rewrite shutdown_rejected. unfold shutdown_inv. cbn.
      split; [|split; [exact Hnow|]].
      * eexists. rewrite Htr, <- !app_assoc. split; [reflexivity|].
        split; [apply firstn_calls_app; [exact HK | reflexivity]|].
        intros ws. rewrite closes_app. cbn. rewrite app_nil_r. apply HO.
      * split; [now right | discriminate].
Qed.

Lemma shutdown_drain s0 t0 K O n c :
  shutdown_inv s0 t0 K O c -> shutdown_inv s0 t0 K O (drain n c).
Proof.
  apply (drain_preserves (shutdown_inv s0 t0 K O)).
  intros c0 t o rest HP He Hr. now apply shutdown_resume.
Qed.

Lemma shutdown_step s0 t0 K O c ev :
  shutdown_inv s0 t0 K O c -> env_only ev ->
  shutdown_inv s0 t0 K O (step' c ev).
Proof.
  intros Hinv Henv. destruct (exited c) as [code|] eqn:He.
  { now rewrite (step_exited browser_isOn vonage_isOn c ev He). }
  destruct (enabled ev c) eqn:Hen; [|now rewrite step_disabled].
  rewrite step_enabled by assumption. cbv zeta. apply shutdown_drain.
  pose proof Hinv as ((l & Htr & HK & HO) & Hnow & Hex).
  rewrite He in Hex. destruct Hex as (Htm & Hpool).
  unfold enabled in Hen. rewrite He, Htm in Hen. cbn in Hen.
  apply andb_prop in Hen. destruct Hen as [Hen Hw].
  apply andb_prop in Hen. destruct Hen as [Hle1 Hle2].
  rewrite andb_true_r in Hle2. apply Z.leb_le in Hle1, Hle2.
  unfold forceExitMs in Hle2.
  destruct ev as [t w]. cbn [at_ms what] in *.
  destruct w; try contradiction; cbn [react].
  - (* a promise is settled *)
    assert (Hbase : shutdown_inv s0 t0 K O (with_now t c)).
    { unfold shutdown_inv. cbn. rewrite He.
      split; [eauto|]. split; [exact Hle2|]. split; assumption. }
    destruct (set_has p (pendingExternal (with_now t c))); [|exact Hbase].
    unfold shutdown_inv. cbn [st settle now exited timers pool nextPromise with_now].
    rewrite He. split; [eauto|]. split; [exact Hle2|]. split; [exact Htm|].
    destruct Hpool as [[Hp Hnp] | [Hp Hall]]; [left; auto|].
    right. split; [exact Hp|].
    apply (@all_resolved_settle _ p o (with_now t c)). exact Hall.
  - (* the exit timer is due *)
    unfold find_timer in *. cbn [timers with_now] in *. rewrite Htm in *.
    cbn [find tm_id exit_timer] in *.
    destruct (Nat.eqb 0 t1); [|discriminate].
    unfold fire, start. cbn [tm_period tm_callback exit_timer tm_id].
    rewrite run_sync_forceExit. unfold shutdown_inv. cbn.
    split; [|split; [exact Hle2|]].
    + eexists. rewrite Htr, <- !app_assoc. split; [reflexivity|].
      split; [apply firstn_calls_app; [exact HK | reflexivity]|].
      intros ws. rewrite closes_app. cbn. rewrite app_nil_r. apply HO.
    + split; [now right | discriminate].
Qed.

Lemma shutdown_run s0 t0 K O evs c :
  shutdown_inv s0 t0 K O c -> Forall env_only evs ->
  shutdown_inv s0 t0 K O (run' evs c).
Proof.
  intros Hinv Hevs. revert c Hinv.
  induction Hevs as [|ev evs Hev Hevs IH]; intros c Hinv; [exact Hinv|].
  rewrite run_cons. apply IH. now apply shutdown_step.
Qed.

Lemma in_open_sockets s chs ws :
  In ws (open_sockets s chs) <->
  exists ch, In ch chs /\ In ws (clients_of ch s) /\ readyState s ws = OPEN.
Proof.
  unfold open_sockets. rewrite in_flat_map. split.
  - intros (ch & Hch & Hin). apply filter_In in Hin. destruct Hin as [Hin Ho].
    exists ch. repeat split; try assumption. now destruct (readyState s ws).
  - intros (ch & Hch & Hin & Ho). exists ch. split; [assumption|].
    apply filter_In. split; [assumption|]. now rewrite Ho.
Qed.

Lemma run_sync_SetTimer ms rep cb c :
  run_sync (SetTimer ms rep cb Ret) c
  = (snd (add_timer ms rep cb c), Finished (nextTimer c)).
Proof. reflexivity. Qed.

Lemma run_sync_await_all ps c :
  run_sync (await_all ps) c = (c, Blocked (WaitAll ps) resume).
Proof. reflexivity. Qed.

Lemma sigint_react s t0 :
  NoDup (map_keys (channelStreams s)) ->
  (forall ch, In ch (map_keys (channelStreams s)) ->
              closeSession_throws (bedrockClient s) ch = None) ->
  shutdown_inv s t0 (map closeSession (map_keys (channelStreams s)))
    (open_sockets s (map_keys (channelStreams s)))
    (start None onSIGINT (idle s t0)).
Proof.
  intros Hnd Hthrow. unfold start, onSIGINT.
  rewrite run_sync_bind, run_sync_console. cbv beta iota.
  rewrite run_sync_bind, run_sync_SetTimer. cbv beta iota.
  rewrite run_sync_try_catch, run_sync_bind, run_sync_get. cbv beta iota.
  rewrite run_sync_bind.
  set (c0 := snd (add_timer forceExitMs false forceExit
                    (with_st (emit (EConsole "log" "Shutting down servers...")) (idle s t0)))).
  destruct (closeAll_run (channelStreams (st c0)) [] c0)
    as (s' & Hrun & Hs & Hc & Hcc & l & Htr & Hcalls & Hcl & Hop);
    [exact Hnd | exact Hthrow |].
  rewrite Hrun. cbv beta iota. rewrite run_sync_bind, run_sync_await_all.
  cbv beta iota. unfold conclude.
  subst c0. cbn in Hs, Hc, Hcc, Htr, Hcalls, Hcl, Hop.
  unfold shutdown_inv, map_keys. rewrite !length_map.
  cbn [st with_pool with_st allocated add_timer snd idle now exited timers pool
       nextPromise emit channelStreams app].
  split; [|split; [lia|]].
  - exists (EConsole "log" "Shutting down servers..." :: l).
    split; [rewrite Htr, <- app_assoc; reflexivity|]. split.
    + cbn [calls]. rewrite Hcalls. apply firstn_all2. rewrite !length_map. lia.
    + intros ws. cbn [closes]. rewrite Hcl, in_open_sockets. reflexivity.
  - split; [reflexivity|]. left. split; reflexivity.
Qed.

Lemma sigint_step s t0 :
  NoDup (map_keys (channelStreams s)) ->
  (forall ch, In ch (map_keys (channelStreams s)) ->
              closeSession_throws (bedrockClient s) ch = None) ->
  shutdown_inv s t0 (map closeSession (map_keys (channelStreams s)))
    (open_sockets s (map_keys (channelStreams s)))
    (step' (idle s t0) {| at_ms := t0; what := SIGINT |}).
Proof.
  intros Hnd Hthrow. rewrite step_enabled.
  2:{ unfold enabled. cbn. now rewrite Z.leb_refl. }
  cbv zeta. apply shutdown_drain. now apply sigint_react.
Qed.

(** At the bound the exit timer ends a shutdown that is still waiting. *)
Lemma shutdown_forced s0 t0 K O c :
  shutdown_inv s0 t0 K O c -> exited c = None ->
  exited (step' c {| at_ms := t0 + 5000; what := TimerDue 0%nat |}) = Some 1.
Proof.
  intros (_ & Hnow & Hex) He. rewrite He in Hex. destruct Hex as (Htm & _).
  rewrite step_enabled.
  2:{ unfold enabled, find_timer. rewrite He, Htm. cbn.
      unfold forceExitMs. rewrite Z.leb_refl, Z.eqb_refl.
      apply Z.leb_le in Hnow. now rewrite Hnow. }
  cbv zeta.
  assert (Hc' : exited (react browser_isOn vonage_isOn (TimerDue 0%nat) (with_now (t0 + 5000) c)) = Some 1).
  { unfold react, find_timer. cbn [timers with_now]. rewrite Htm.
    cbn [find tm_id exit_timer Nat.eqb]. unfold fire, start.
    cbn [tm_period tm_callback exit_timer tm_id].
    rewrite run_sync_forceExit. reflexivity. }
  erewrite drain_exited; [exact Hc' | exact Hc'].
Qed.

(** C7.  A SIGINT at [t0] in an idle process, with the channels of the
    stream registry in [keys], on which [closeSession] does not throw
    before it returns its promise.  In the same turn [closeSession] is
    called for every channel of the snapshot, in order and before
    anything is awaited, and [close()] is called on exactly the sockets of
    those channels that are open.  Whatever the collaborators then do, the
    clock of the process never passes [t0 + 5000]: while the process has
    not exited the exit timer is armed for that instant, and when it fires
    the process exits with code 1, whatever is still pending.  The process
    exits with code 0 or 1 only, and with 0 only when the promises of all
    the sessions and of the two servers are resolved. *)
Theorem sigint_shutdown_bounded s t0 evs :
  let keys := map_keys (channelStreams s) in
  NoDup keys ->
  (forall ch, In ch keys -> closeSession_throws (bedrockClient s) ch = None) ->
  Forall env_only evs ->
  let c := run' evs (step' (idle s t0) {| at_ms := t0; what := SIGINT |}) in
  let done := effects_since (idle s t0) c in
  firstn (List.length keys) (calls done) = map closeSession keys
  /\ (forall ws, In ws (closes done) <->
                 exists ch, In ch keys /\ In ws (clients_of ch s)
                            /\ readyState s ws = OPEN)
  /\ now c <= t0 + 5000
  /\ (exited c = None ->
      map tm_due (timers c) = [t0 + 5000]
      /\ exited (step' c {| at_ms := t0 + 5000; what := TimerDue 0%nat |}) = Some 1)
  /\ (forall code, exited c = Some code ->
        (code = 0 \/ code = 1)
        /\ (code = 0 ->
            all_resolved (settled c) (seq 0 (List.length keys + 2)%nat))).
Proof.
  intros keys Hnd Hthrow Hevs c done.
  assert (Hinv : shutdown_inv s t0 (map closeSession keys) (open_sockets s keys) c).
  { apply shutdown_run; [|exact Hevs]. now apply sigint_step. }
  pose proof Hinv as ((l & Htr & HK & HO) & Hnow & Hex).
  rewrite length_map in HK, Hex.
  assert (Hdone : done = l).
  { unfold done, effects_since. cbn [st idle]. rewrite Htr.
    rewrite skipn_app, skipn_all, Nat.sub_diag. reflexivity. }
  rewrite Hdone. split; [exact HK|]. split.
  { intros ws. rewrite HO. apply in_open_sockets. }
  split; [exact Hnow|]. split.
  - intros He. rewrite He in Hex. destruct Hex as (Htm & _). split.
    + rewrite Htm. reflexivity.
    + exact (shutdown_forced Hinv He).
  - intros code He. rewrite He in Hex. exact Hex.
Qed.
End Shutdown.

(** ** Joining *)

Section Joining.
Context {B : Type} `{NovaSonicClient B}.
Variables browser_isOn vonage_isOn : bool.
Implicit Types (c : @config B) (s : @state B).
#[local] Arguments String.append : simpl never.
#[local] Opaque systemPrompt.

Abbreviation step' := (step browser_isOn vonage_isOn).
Abbreviation run' := (run browser_isOn vonage_isOn).

Lemma first_join s t0 ws1 channel uuid :
  map_has (resolve_channel channel uuid) (channelStreams s) = false ->
  let c := step' (idle s t0) {| at_ms := t0; what := Connection ws1 channel uuid |} in
  join_inv s ws1 (resolve_channel channel uuid) [] 0%nat 2%nat c /\ now c = t0.
Proof.
  intros Hh. set (ch := resolve_channel channel uuid) in *.
  rewrite step_enabled.
  2:{ unfold enabled. cbn. now rewrite Z.leb_refl. }
  cbn -[drain]. unfold start, onSocket. fold ch.
  cbn -[drain]. rewrite Hh. cbn. split; [|reflexivity].
  unfold join_inv. cbn.
  split; [|split; [|split; [|split; [|split; [|split; [|split]]]]]].
  - eexists. rewrite <- !app_assoc. split; [reflexivity|].
    split; [|intros ws Hws; reflexivity].
    unfold joined_view. cbn.
    split; [reflexivity|]. split; [reflexivity|]. split.
    + intros ws. unfold clients_of. cbn. rewrite map_get_set_eq. cbn. lia.
    + split; [intros ws []|]. split; [reflexivity | discriminate].
  - rewrite map_get_set_eq. eauto.
  - reflexivity.
  - reflexivity.
  - intros q [].
  - intros q [<- | [<- | []]]; lia.
  - lia.
  - split; [reflexivity|]. split; [auto | reflexivity].
Qed.

(** *** Promises *)

Lemma map_get_snoc_other (l : list (promise * outcome)) (p q : promise) o :
  p <> q -> map_get p (l ++ [(q, o)]) = map_get p l.
Proof.
  intros Hne. induction l as [|[k x] l IH]; cbn.
  - now rewrite (proj2 (Nat.eqb_neq p q) Hne).
  - destruct (Nat.eqb p k); [reflexivity | exact IH].
Qed.

Lemma map_get_settle_other (p q : promise) o c :
  p <> q -> map_get p (settled (settle q o c)) = map_get p (settled c).
Proof.
  intros Hne. cbn. destruct (map_has q (settled c)); [reflexivity|].
  now apply map_get_snoc_other.
Qed.

Lemma settled_settle_fst p o c q :
  In q (map fst (settled (settle p o c))) -> In q (map fst (settled c)) \/ q = p.
Proof.
  cbn. destruct (map_has p (settled c)); [auto|].
  rewrite map_app, in_app_iff. cbn. intuition.
Qed.

Lemma map_get_fresh (l : list (promise * outcome)) (n : promise) :
  (forall q, In q (map fst l) -> (q < n)%nat) -> map_get n l = None.
Proof.
  induction l as [|[k x] l IH]; cbn; [reflexivity|]. intros Hlt.
  assert (Hk : (k < n)%nat) by (apply Hlt; now left).
  rewrite (proj2 (Nat.eqb_neq n k)) by lia. apply IH. intros q Hq. apply Hlt. now right.
Qed.

Lemma later_join s0 ws1 ch joined k p c t ws channel uuid :
  join_inv s0 ws1 ch joined k p c ->
  resolve_channel channel uuid = ch ->
  ~ In ws (ws1 :: joined) ->
  now c <= t ->
  let c' := step' c {| at_ms := t; what := Connection ws channel uuid |} in
  join_inv s0 ws1 ch (joined ++ [ws]) k p c' /\ now c' = t.
Proof.
  intros ((l & Htr & Hview & Hnone) & (cl & Hcl) & He & Htm & Hset & Hpend & Hk & Hpool)
         Hch Hfresh Hnow c'.
  destruct Hview as (Hcalls & Hstreams & Hclients & Hjoined & Hws1 & Hcc1).
  assert (Hhas : map_has ch (channelStreams (st c)) = true).
  { unfold map_has. now rewrite Hstreams, map_get_set_eq. }
  subst c'. rewrite step_enabled.
  2:{ unfold enabled. rewrite He, Htm. cbn. apply Z.leb_le in Hnow. now rewrite Hnow. }
  cbv zeta. cbn [what at_ms react]. unfold start, onSocket. rewrite Hch.
  cbn -[drain]. rewrite Hhas. cbn -[drain]. rewrite Hcl. cbn -[drain].
  assert (Hnp : map_has (nextPromise c) (settled c) = false).
  { unfold map_has. now rewrite (map_get_fresh _ Hset). }
  match goal with |- context [drain ?n ?x] => set (c1 := x); set (n1 := n) end.
  assert (Hq : find_ready (settled c1) (pool c1) = None).
  { subst c1. cbn. rewrite Hnp.
    destruct (Nat.eqb k 3); [now rewrite Hpool|].
    destruct Hpool as (-> & Hin & Hun). cbn.
    rewrite map_get_snoc_other, Hun; [reflexivity|].
    specialize (Hpend p Hin). lia. }
  rewrite (drain_quiescent n1 c1 Hq). subst c1 n1. split; [|reflexivity].
  unfold join_inv. cbn. rewrite Hnp.
  assert (Hws : ws <> ws1 /\ ~ In ws joined) by (cbn in Hfresh; intuition).
  destruct Hws as [Hne Hnj].
  split; [|split; [|split; [|split; [|split; [|split; [|split]]]]]].
  - exists (l ++ [EConsole "log" ("Client requesting connection to channel: " ++ ch);
                  EConsole "log" ("Client joining existing channel: " ++ ch);
                  EConsole "log"
                    ("Channel " ++ ch ++ " has "
                     ++ show_nat (List.length (set_add ws cl)) ++ " connected clients");
                  ESend ws (MSessionReady ("Connected to channel " ++ ch) false)]).
    split; [rewrite Htr, <- !app_assoc; reflexivity|]. split.
    + unfold joined_view. cbn.
      rewrite calls_app. cbn. rewrite app_nil_r.
      split; [exact Hcalls|]. split; [exact Hstreams|]. split.
      * intros w. unfold clients_of. cbn. rewrite map_get_set_eq.
        rewrite set_add_In, in_app_iff. cbn.
        specialize (Hclients w). unfold clients_of in Hclients.
        rewrite Hcl in Hclients. rewrite Hclients. intuition.
      * split; [|split].
        -- intros w Hw. rewrite sends_to_app. cbn.
           apply in_app_iff in Hw. destruct Hw as [Hw | [<- | []]].
           ++ destruct (Nat.eqb_spec ws w) as [-> | Hww]; [contradiction|].
              rewrite map_get_set_neq by congruence.
              rewrite app_nil_r. apply Hjoined. exact Hw.
           ++ rewrite map_get_set_eq, Nat.eqb_refl.
              rewrite (Hnone ws) by exact Hfresh. split; reflexivity.
        -- rewrite sends_to_app. cbn.
           rewrite (proj2 (Nat.eqb_neq ws ws1) Hne). now rewrite app_nil_r.
        -- intros Hk3. rewrite map_get_set_neq by congruence. now apply Hcc1.
    + intros w Hw. rewrite sends_to_app. cbn.
      destruct (Nat.eqb_spec ws w) as [-> | Hww].
      * exfalso. apply Hw. right. apply in_app_iff. right. now left.
      * rewrite app_nil_r. apply Hnone. intros [<- | Hin]; apply Hw;
          [now left | right; apply in_app_iff; now left].
  - rewrite map_get_set_eq. eauto.
  - exact He.
  - exact Htm.
  - intros q Hq'. rewrite map_app, in_app_iff in Hq'. cbn in Hq'.
    destruct Hq' as [Hq' | [<- | []]]; [specialize (Hset q Hq')|]; lia.
  - intros q Hq'. apply filter_In in Hq'. destruct Hq' as [Hq' _].
    specialize (Hpend q Hq'). lia.
  - exact Hk.
  - destruct (Nat.eqb k 3); [exact Hpool|].
    destruct Hpool as (Hp & Hin & Hun). specialize (Hpend p Hin).
    split; [exact Hp|]. split.
    + apply filter_In. split; [exact Hin|].
      rewrite (proj2 (Nat.eqb_neq (nextPromise c) p)) by lia. reflexivity.
    + rewrite map_get_snoc_other; [exact Hun | lia].
Qed.

Lemma map_get_snoc_fresh (l : list (promise * outcome)) (p : promise) o :
  map_get p l = None -> map_get p (l ++ [(p, o)]) = Some o.
Proof.
  induction l as [|[k x] l IH]; cbn; [now rewrite Nat.eqb_refl|].
  destruct (Nat.eqb p k); [discriminate | exact IH].
Qed.

Lemma join_inv_quiescent s0 ws1 ch joined k p c :
  join_inv s0 ws1 ch joined k p c -> find_ready (settled c) (pool c) = None.
Proof.
  intros (_ & _ & _ & _ & _ & _ & _ & Hpool).
  destruct (Nat.eqb k 3); [now rewrite Hpool|].
  destruct Hpool as (-> & _ & Hun). cbn. now rewrite Hun.
Qed.

Lemma join_inv_with_now s0 ws1 ch joined k p c t :
  join_inv s0 ws1 ch joined k p c -> join_inv s0 ws1 ch joined k p (with_now t c).
Proof. intros Hinv. exact Hinv. Qed.

Lemma join_inv_settle_other s0 ws1 ch joined k p c q o :
  join_inv s0 ws1 ch joined k p c ->
  (q < nextPromise c)%nat -> (k < 3 -> q <> p)%nat ->
  join_inv s0 ws1 ch joined k p (settle q o c).
Proof.
  intros (Hl & Hcl & He & Htm & Hset & Hpend & Hk & Hpool) Hq Hne.
  unfold join_inv. cbn [st settle exited timers nextPromise pool pendingExternal].
  split; [exact Hl|]. split; [exact Hcl|]. split; [exact He|]. split; [exact Htm|].
  split; [|split; [|split; [exact Hk|]]].
  - intros q' Hq'. apply settled_settle_fst in Hq'.
    destruct Hq' as [Hq' | ->]; [now apply Hset | exact Hq].
  - intros q' Hq'. apply filter_In in Hq'. apply Hpend. tauto.
  - destruct (Nat.eqb_spec k 3) as [Hk3 | Hk3]; [exact Hpool|].
    destruct Hpool as (Hp & Hin & Hun). assert (Hqp : q <> p) by (apply Hne; lia).
    split; [exact Hp|]. split.
    + apply filter_In. split; [exact Hin|]. cbn.
      now rewrite (proj2 (Nat.eqb_neq q p) Hqp).
    + change (map_get p (settled (settle q o c)) = None).
      rewrite map_get_settle_other by congruence. exact Hun.
Qed.

(** *** The first joiner, one resumption at a time *)

Lemma join_resolved_0 sess ws ch c :
  run_sync (join_continuation (handshake_rest 0 sess) ws ch Resolved) c
  = (called (sessionCall sess (setupSystemPrompt systemPrompt)) c,
     Blocked (WaitOn (nextPromise c))
       (join_continuation (handshake_rest 1 sess) ws ch)).
Proof. destruct c. reflexivity. Qed.

Lemma join_resolved_1 sess ws ch c :
  run_sync (join_continuation (handshake_rest 1 sess) ws ch Resolved) c
  = (called (sessionCall sess setupStartAudio) c,
     Blocked (WaitOn (nextPromise c))
       (join_continuation (handshake_rest 2 sess) ws ch)).
Proof. destruct c. reflexivity. Qed.

Lemma join_resolved_2 sess ws ch cl c :
  map_get ch (channelClients (st c)) = Some cl ->
  run_sync (join_continuation (handshake_rest 2 sess) ws ch Resolved) c
  = (with_st (fun s =>
       emit_all [EConsole "log"
                   ("Channel " ++ ch ++ " has "
                    ++ show_nat (List.length (set_add ws cl)) ++ " connected clients");
                 ESend ws (MSessionReady ("Connected to channel " ++ ch) true)]
         (with_clientChannels (map_set ws ch)
            (with_channelClients (map_set ch (set_add ws cl)) s))) c,
     Finished tt).
Proof.
  intros Hcl. unfold join_continuation, handshake_rest, attachClient. cbn [resume].
  cbn. rewrite Hcl. cbn. destruct c as [s ? ? ? ? ? ? ? ?]. cbn.
  unfold with_st. cbn. do 2 f_equal. unfold emit_all, emit. cbn.
  now rewrite <- app_assoc.
Qed.

Lemma join_rejected k sess ws ch e c :
  run_sync (join_continuation (handshake_rest k sess) ws ch (Rejected e)) c
  = run_sync (onJoinFailure ws e) c.
Proof. destruct k as [|[|k]]; reflexivity. Qed.

#[local] Arguments join_continuation : simpl never.
#[local] Arguments handshake_rest : simpl never.

Lemma join_advance s0 ws1 ch joined k p c t op :
  join_inv s0 ws1 ch joined k p c ->
  (k < 2)%nat ->
  firstn (S (S k)) handshake_ops = firstn (S k) handshake_ops ++ [op] ->
  join_inv s0 ws1 ch joined (S k) (nextPromise c)
    (with_pool
       (fun l => l ++ [join_task (S k) (nextPromise c) (nextSession s0) ws1 ch])
       (called (sessionCall (nextSession s0) op)
          (with_pool (fun _ => []) (settle p Resolved (with_now t c))))).
Proof.
  intros ((l & Htr & Hview & Hnone) & (cl & Hcl) & He & Htm & Hset & Hpend & Hk & Hpool)
         Hk2 Hop.
  destruct Hview as (Hcalls & Hstreams & Hclients & Hjoined & Hws1 & Hcc1).
  assert (Hk3 : Nat.eqb k 3 = false) by (apply Nat.eqb_neq; lia).
  assert (Hk4 : Nat.eqb (S k) 3 = false) by (apply Nat.eqb_neq; lia).
  rewrite Hk3 in Hpool, Hws1. destruct Hpool as (Hp & Hin & Hun).
  assert (Hnh : map_has p (settled c) = false) by (unfold map_has; now rewrite Hun).
  unfold join_inv. rewrite Hk4. cbn. rewrite Hnh.
  split; [|split; [|split; [|split; [|split; [|split; [|split]]]]]].
  - exists (l ++ [ECall (sessionCall (nextSession s0) op)]).
    split; [rewrite Htr, <- app_assoc; reflexivity|]. split.
    + unfold joined_view. rewrite Hk4, calls_app, Hcalls, Hop, map_app. cbn.
      split; [reflexivity|].
      split; [exact Hstreams|]. split.
      * intros ws. rewrite (Hclients ws). split; (intros [Hw | [Hx _]]; [now left | lia]).
      * split; [|split].
        -- intros ws Hw. rewrite sends_to_app. cbn. rewrite app_nil_r. now apply Hjoined.
        -- rewrite sends_to_app. cbn. now rewrite app_nil_r.
        -- lia.
    + intros ws Hw. rewrite sends_to_app. cbn. rewrite app_nil_r. now apply Hnone.
  - eauto.
  - exact He.
  - exact Htm.
  - intros q Hq. rewrite map_app, in_app_iff in Hq. cbn in Hq.
    destruct Hq as [Hq | [<- | []]]; [specialize (Hset q Hq)|specialize (Hpend p Hin)]; lia.
  - intros q Hq. rewrite in_app_iff in Hq. cbn in Hq.
    destruct Hq as [Hq | [<- | []]]; [|lia].
    apply filter_In in Hq. destruct Hq as [Hq _]. specialize (Hpend q Hq). lia.
  - lia.
  - split; [reflexivity|]. split; [apply in_app_iff; right; now left|].
    rewrite map_get_snoc_other by (specialize (Hpend p Hin); lia).
    apply map_get_fresh. exact Hset.
Qed.

Lemma join_complete s0 ws1 ch joined p c t cl :
  join_inv s0 ws1 ch joined 2 p c ->
  ~ In ws1 joined ->
  map_get ch (channelClients (st c)) = Some cl ->
  join_inv s0 ws1 ch joined 3 p
    (settle 0%nat Resolved
       (with_st (fun s =>
          emit_all [EConsole "log"
                      ("Channel " ++ ch ++ " has "
                       ++ show_nat (List.length (set_add ws1 cl))
                       ++ " connected clients");
                    ESend ws1 (MSessionReady ("Connected to channel " ++ ch) true)]
            (with_clientChannels (map_set ws1 ch)
               (with_channelClients (map_set ch (set_add ws1 cl)) s)))
          (with_pool (fun _ => []) (settle p Resolved (with_now t c))))).
Proof.
  intros ((l & Htr & Hview & Hnone) & _ & He & Htm & Hset & Hpend & Hk & Hpool)
         Hn1 Hcl.
  destruct Hview as (Hcalls & Hstreams & Hclients & Hjoined & Hws1 & Hcc1).
  cbn [Nat.eqb] in Hpool, Hws1. destruct Hpool as (Hp & Hin & Hun).
  specialize (Hpend p Hin) as Hlt.
  unfold join_inv. cbn [Nat.eqb].
  split; [|split; [|split; [|split; [|split; [|split; [|split]]]]]].
  - eexists. split; [cbn; rewrite Htr, <- app_assoc; reflexivity|]. split.
    + unfold joined_view. cbn [Nat.eqb]. rewrite calls_app. cbn.
      rewrite app_nil_r. split; [exact Hcalls|]. split; [exact Hstreams|]. split.
      * intros ws. unfold clients_of. cbn. rewrite map_get_set_eq.
        rewrite set_add_In. specialize (Hclients ws). unfold clients_of in Hclients.
        rewrite Hcl in Hclients. rewrite Hclients.
        split; [intros [-> | [Hw | [Hx _]]]; [now right | now left | discriminate]
               | intros [Hw | [_ ->]]; [right; now left | now left]].
      * split; [|split].
        -- intros ws Hw. rewrite sends_to_app. cbn.
           destruct (Nat.eqb_spec ws1 ws) as [-> | Hne]; [contradiction|].
           rewrite map_get_set_neq by congruence. rewrite app_nil_r. now apply Hjoined.
        -- rewrite sends_to_app, Hws1. cbn. now rewrite Nat.eqb_refl.
        -- intros _. cbn. apply map_get_set_eq.
    + intros ws Hw. rewrite sends_to_app. cbn.
      destruct (Nat.eqb_spec ws1 ws) as [-> | Hne]; [exfalso; apply Hw; now left|].
      rewrite app_nil_r. now apply Hnone.
  - cbn. rewrite map_get_set_eq. eauto.
  - exact He.
  - exact Htm.
  - intros q Hq. apply settled_settle_fst in Hq. destruct Hq as [Hq | ->].
    + apply settled_settle_fst in Hq. destruct Hq as [Hq | ->]; [now apply Hset | exact Hlt].
    + cbn. lia.
  - intros q Hq. cbn in Hq. apply filter_In in Hq. destruct Hq as [Hq _].
    apply filter_In in Hq. destruct Hq as [Hq _]. now apply Hpend.
  - lia.
  - reflexivity.
Qed.

Lemma resolve_step s0 ws1 ch joined k p c t q :
  join_inv s0 ws1 ch joined k p c ->
  ~ In ws1 joined ->
  now c <= t ->
  let c' := step' c {| at_ms := t; what := Settled q Resolved |} in
  now c' = t
  /\ ((join_inv s0 ws1 ch joined k p c' /\ ((k < 3)%nat -> q <> p))
      \/ (q = p /\ (k < 3)%nat /\ exists p', join_inv s0 ws1 ch joined (S k) p' c')).
Proof.
  intros Hinv Hn1 Hnow c'.
  pose proof Hinv as ((l & Htr & Hview & Hnone) & (cl & Hcl) & He & Htm & Hset & Hpend
                      & Hk & Hpool).
  subst c'. rewrite step_enabled.
  2:{ unfold enabled. rewrite He, Htm. cbn. apply Z.leb_le in Hnow. now rewrite Hnow. }
  cbv zeta. cbn [what at_ms react].
  change (pendingExternal (with_now t c)) with (pendingExternal c).
  destruct (set_has q (pendingExternal c)) eqn:Hq.
  2:{ rewrite drain_quiescent
        by (apply (@join_inv_quiescent s0 ws1 ch joined k p); exact Hinv).
      split; [reflexivity|]. left. split; [exact Hinv|].
      intros Hk3 ->. destruct (Nat.eqb_spec k 3) as [|_]; [lia|].
      destruct Hpool as (_ & Hin & _). apply set_has_In in Hin. congruence. }
  apply set_has_In in Hq. pose proof (Hpend q Hq) as Hlt.
  destruct (Nat.eqb_spec k 3) as [Hk3 | Hk3].
  { assert (Hinv' : join_inv s0 ws1 ch joined k p (settle q Resolved (with_now t c))).
    { apply join_inv_settle_other; [exact Hinv | exact Hlt | lia]. }
    rewrite drain_quiescent by (apply (join_inv_quiescent Hinv')).
    split; [reflexivity|]. left. split; [exact Hinv' | lia]. }
  destruct (Nat.eq_dec q p) as [-> | Hqp].
  2:{ assert (Hinv' : join_inv s0 ws1 ch joined k p (settle q Resolved (with_now t c))).
      { apply join_inv_settle_other; [exact Hinv | exact Hlt | auto]. }
      rewrite drain_quiescent by (apply (join_inv_quiescent Hinv')).
      split; [reflexivity|]. left. split; [exact Hinv' | auto]. }
  destruct Hpool as (Hp & Hin & Hun).
  assert (Hnh : map_has p (settled c) = false) by (unfold map_has; now rewrite Hun).
  set (c0 := settle p Resolved (with_now t c)).
  assert (Hset0 : settled c0 = settled c ++ [(p, Resolved)]).
  { subst c0. cbn. now rewrite Hnh. }
  assert (Hready : find_ready (settled c0) (pool c0)
                   = Some (join_task k p (nextSession s0) ws1 ch, Resolved, [])).
  { rewrite Hset0. subst c0. cbn [pool settle with_now]. rewrite Hp. cbn.
    now rewrite (@map_get_snoc_fresh (settled c) p Resolved Hun). }
  assert (Hb : microtask_budget c0 = 6%nat).
  { unfold microtask_budget. subst c0. cbn [pool settle with_now]. now rewrite Hp. }
  rewrite Hb, (drain_resume 5 c0 He Hready).
  unfold start. cbn [t_result t_cont join_task].
  destruct Hview as (Hcalls & Hstreams & Hclients & Hjoined & Hws1 & Hcc1).
  rewrite (proj2 (Nat.eqb_neq k 3) Hk3) in Hws1.
  assert (Hk' : k = 0%nat \/ k = 1%nat \/ k = 2%nat) by lia.
  destruct Hk' as [-> | [-> | ->]].
  - rewrite join_resolved_0. cbn [conclude].
    change (nextPromise (with_pool (fun _ => []) c0)) with (nextPromise c).
    assert (Hinv' := @join_advance s0 ws1 ch joined 0 p c t _ Hinv ltac:(lia) eq_refl).
    rewrite drain_quiescent by (apply (join_inv_quiescent Hinv')).
    split; [reflexivity|]. right. split; [reflexivity|]. split; [lia|]. eauto.
  - rewrite join_resolved_1. cbn [conclude].
    change (nextPromise (with_pool (fun _ => []) c0)) with (nextPromise c).
    assert (Hinv' := @join_advance s0 ws1 ch joined 1 p c t _ Hinv ltac:(lia) eq_refl).
    rewrite drain_quiescent by (apply (join_inv_quiescent Hinv')).
    split; [reflexivity|]. right. split; [reflexivity|]. split; [lia|]. eauto.
  - rewrite (@join_resolved_2 (nextSession s0) ws1 ch cl) by exact Hcl. cbn [conclude].
    assert (Hinv' := @join_complete s0 ws1 ch joined p c t cl Hinv Hn1 Hcl).
    rewrite drain_quiescent by (apply (join_inv_quiescent Hinv')).
    split; [reflexivity|]. right. split; [reflexivity|]. split; [lia|]. eauto.
Qed.

Lemma join_run s0 ws1 ch evs :
  forall joined k p c,
    join_inv s0 ws1 ch joined k p c ->
    Forall (joins_or_resolves ch) evs ->
    chronological (now c) evs ->
    NoDup (ws1 :: joined ++ joiners evs) ->
    exists k' p', join_inv s0 ws1 ch (joined ++ joiners evs) k' p' (run' evs c).
Proof.
  induction evs as [|ev evs IH]; intros joined k p c Hinv Hevs Hchr Hnd.
  - cbn. rewrite app_nil_r. eauto.
  - apply Forall_cons_iff in Hevs. destruct Hevs as [Hev Hevs].
    destruct Hchr as [Hle Hchr]. rewrite run_cons.
    destruct ev as [t w]. unfold joins_or_resolves in Hev. cbn [what at_ms] in *.
    destruct w; try contradiction.
    + (* one more client *)
      change (joiners ({| at_ms := t; what := Connection ws channel uuid |} :: evs))
        with (ws :: joiners evs) in *.
      assert (Hfresh : ~ In ws (ws1 :: joined)).
      { apply NoDup_cons_iff in Hnd. destruct Hnd as [Hn1 Hnd].
        intros [<- | Hin].
        - apply Hn1. apply in_app_iff. right. now left.
        - apply NoDup_remove_2 in Hnd. apply Hnd. apply in_app_iff. now left. }
      destruct (@later_join s0 ws1 ch joined k p c t ws channel uuid
                  Hinv Hev Hfresh Hle) as [Hinv' Hnow'].
      replace (joined ++ ws :: joiners evs) with ((joined ++ [ws]) ++ joiners evs)
        by (rewrite <- app_assoc; reflexivity).
      apply (IH (joined ++ [ws]) k p); try assumption.
      * now rewrite Hnow'.
      * now rewrite <- app_assoc.
    + (* a promise is resolved *)
      subst o.
      change (joiners ({| at_ms := t; what := Settled p0 Resolved |} :: evs))
        with (joiners evs) in *.
      assert (Hn1 : ~ In ws1 joined).
      { apply NoDup_cons_iff in Hnd. destruct Hnd as [Hn1 _].
        intros Hin. apply Hn1. apply in_app_iff. now left. }
      destruct (@resolve_step s0 ws1 ch joined k p c t p0 Hinv Hn1 Hle)
        as [Hnow' [[Hinv' _] | (_ & _ & p' & Hinv')]].
      * apply (IH joined k p); try assumption. now rewrite Hnow'.
      * apply (IH joined (S k) p'); try assumption. now rewrite Hnow'.
Qed.

Lemma join_inv_view s0 t0 ws1 ch joined k p c :
  join_inv s0 ws1 ch joined k p c ->
  joined_view s0 ws1 ch (nextSession s0) joined k (st c) (effects_since (idle s0 t0) c).
Proof.
  intros ((l & Htr & Hview & _) & _). unfold effects_since. cbn [st idle].
  rewrite Htr, skipn_app, skipn_all, Nat.sub_diag. exact Hview.
Qed.

End Joining.

(** ** A handshake that fails *)

Section FailedHandshake.
Context {B : Type} `{NovaSonicClient B}.
Variables browser_isOn vonage_isOn : bool.
Implicit Types (c : @config B) (s : @state B).
#[local] Arguments String.append : simpl never.
#[local] Opaque systemPrompt.
#[local] Arguments join_continuation : simpl never.
#[local] Arguments handshake_rest : simpl never.

Abbreviation step' := (step browser_isOn vonage_isOn).
Abbreviation run' := (run browser_isOn vonage_isOn).

Lemma run_sync_onJoinFailure ws e c :
  run_sync (onJoinFailure ws e) c
  = (with_st (fun s =>
       with_readyState
         (fun rs w =>
            if Nat.eqb w ws
            then match rs w with CLOSED => CLOSED | _ => CLOSING end
            else rs w)
         (emit (EWsClose ws)
            (emit (ESend ws (MError "Failed to initialize or join channel"
                               (String_of e))) s))) c,
     Finished tt).
Proof. reflexivity. Qed.

Lemma reject_step s0 ws1 ch joined k p c t e :
  join_inv s0 ws1 ch joined k p c ->
  (k < 3)%nat ->
  now c <= t ->
  step' c {| at_ms := t; what := Settled p (Rejected e) |} = join_failed ws1 p e t c.
Proof.
  intros ((l & Htr & Hview & Hnone) & (cl & Hcl) & He & Htm & Hset & Hpend & Hk & Hpool)
         Hk3 Hnow.
  rewrite (proj2 (Nat.eqb_neq k 3)) in Hpool by lia.
  destruct Hpool as (Hp & Hin & Hun).
  rewrite step_enabled.
  2:{ unfold enabled. rewrite He, Htm. cbn. apply Z.leb_le in Hnow. now rewrite Hnow. }
  cbv zeta. cbn [what at_ms react].
  change (pendingExternal (with_now t c)) with (pendingExternal c).
  rewrite (proj2 (set_has_In p (pendingExternal c)) Hin).
  assert (Hnh : map_has p (settled c) = false) by (unfold map_has; now rewrite Hun).
  set (c0 := settle p (Rejected e) (with_now t c)).
  assert (Hset0 : settled c0 = settled c ++ [(p, Rejected e)]).
  { subst c0. cbn. now rewrite Hnh. }
  assert (Hready : find_ready (settled c0) (pool c0)
                   = Some (join_task k p (nextSession s0) ws1 ch, Rejected e, [])).
  { rewrite Hset0. subst c0. cbn [pool settle with_now]. rewrite Hp. cbn.
    now rewrite (@map_get_snoc_fresh (settled c) p (Rejected e) Hun). }
  assert (Hb : microtask_budget c0 = 6%nat).
  { unfold microtask_budget. subst c0. cbn [pool settle with_now]. now rewrite Hp. }
  rewrite Hb, (drain_resume 5 c0 He Hready).
  unfold start. cbn [t_result t_cont join_task].
  rewrite join_rejected, run_sync_onJoinFailure. cbn [conclude].
  rewrite drain_quiescent by reflexivity. reflexivity.
Qed.

(** A client that connects to a channel of the registry, in a process
    with nothing suspended. *)
Lemma join_existing c t ws channel uuid ch cl :
  resolve_channel channel uuid = ch ->
  map_has ch (channelStreams (st c)) = true ->
  map_get ch (channelClients (st c)) = Some cl ->
  exited c = None -> timers c = [] -> pool c = [] -> now c <= t ->
  let c' := step' c {| at_ms := t; what := Connection ws channel uuid |} in
  clients_of ch (st c') = set_add ws cl
  /\ map_get ws (clientChannels (st c')) = Some ch
  /\ effects_since c c'
     = [EConsole "log" ("Client requesting connection to channel: " ++ ch);
        EConsole "log" ("Client joining existing channel: " ++ ch);
        EConsole "log"
          ("Channel " ++ ch ++ " has "
           ++ show_nat (List.length (set_add ws cl)) ++ " connected clients");
        ESend ws (MSessionReady ("Connected to channel " ++ ch) false)].
Proof.
  intros Hch Hhas Hcl He Htm Hp Hnow c'. subst c'. rewrite step_enabled.
  2:{ unfold enabled. rewrite He, Htm. cbn. apply Z.leb_le in Hnow. now rewrite Hnow. }
  cbv zeta. cbn [what at_ms react]. unfold start, onSocket. rewrite Hch.
  cbn -[drain]. rewrite Hhas. cbn -[drain]. rewrite Hcl. cbn -[drain].
  rewrite drain_quiescent by (cbn; rewrite Hp; reflexivity).
  unfold clients_of, effects_since. cbn. rewrite !map_get_set_eq.
  split; [reflexivity|]. split; [reflexivity|].
  rewrite <- !app_assoc, skipn_app, skipn_all, Nat.sub_diag. reflexivity.
Qed.

(** C3.  A client [ws1] opens a channel that is not in the stream registry
    of an idle process; other clients connect to it and promises are
    resolved, in the order of their times.  While the handshake is not
    over ([k] of its three steps are resolved, [k < 3]), let the promise
    [ws1] waits for be rejected with [e]: [ws1] is sent the error event
    and [close()] is called on it, and nothing else is written or closed;
    but the channel keeps its entry in the stream registry and its client
    set, so that a client [ws2] that connects to the same channel id later
    finds it, is added to its client set and is sent [sessionReady] with
    [isNewChannel] false, without any call to the upstream client. *)
Theorem rejected_handshake_leaves_channel_joinable s t0 ws1 channel uuid evs :
  let ch := resolve_channel channel uuid in
  map_has ch (channelStreams s) = false ->
  Forall (joins_or_resolves ch) evs ->
  chronological t0 evs ->
  NoDup (ws1 :: joiners evs) ->
  let c := run' evs (step' (idle s t0)
                       {| at_ms := t0; what := Connection ws1 channel uuid |}) in
  exists k p,
    joined_view s ws1 ch (nextSession s) (joiners evs) k (st c)
      (effects_since (idle s t0) c)
    /\ ((k < 3)%nat ->
        forall e t, now c <= t ->
          let c1 := step' c {| at_ms := t; what := Settled p (Rejected e) |} in
          effects_since c c1
          = [ESend ws1 (MError "Failed to initialize or join channel" (String_of e));
             EWsClose ws1]
          /\ map_get ch (channelStreams (st c1)) = Some (nextSession s)
          /\ (forall ws, In ws (clients_of ch (st c1)) <-> In ws (joiners evs))
          /\ forall ws2 channel2 uuid2 t2,
               resolve_channel channel2 uuid2 = ch -> t <= t2 ->
               let c2 := step' c1 {| at_ms := t2;
                                     what := Connection ws2 channel2 uuid2 |} in
               In ws2 (clients_of ch (st c2))
               /\ map_get ws2 (clientChannels (st c2)) = Some ch
               /\ sends (effects_since c1 c2)
                  = [(ws2, MSessionReady ("Connected to channel " ++ ch) false)]
               /\ calls (effects_since c1 c2) = []).
Proof.
  intros ch Hunseen Hevs Hchr Hnd c.
  destruct (@first_join _ _ browser_isOn vonage_isOn s t0 ws1 channel uuid Hunseen)
    as [Hinv0 Hnow0].
  fold ch in Hinv0.
  destruct (@join_run _ _ browser_isOn vonage_isOn s ws1 ch evs [] 0%nat 2%nat _
              Hinv0 Hevs) as (k & p & Hinv).
  { now rewrite Hnow0. }
  { exact Hnd. }
  cbn [app] in Hinv. fold c in Hinv. exists k, p.
  split; [exact (@join_inv_view _ _ s t0 ws1 ch _ k p c Hinv)|].
  intros Hk3 e t Ht c1. subst c1.
  rewrite (@reject_step s ws1 ch (joiners evs) k p c t e Hinv Hk3 Ht).
  destruct Hinv as ((l & Htr & Hview & Hnone) & (cl & Hcl) & He & Htm & Hset & Hpend
                    & Hk & Hpool).
  destruct Hview as (Hcalls & Hstreams & Hclients & Hjoined & Hws1 & Hcc1).
  split; [|split; [|split]].
  - unfold effects_since, join_failed. cbn.
    rewrite <- !app_assoc, skipn_app, skipn_all, Nat.sub_diag. reflexivity.
  - unfold join_failed. cbn. rewrite Hstreams. apply map_get_set_eq.
  - intros ws. unfold join_failed, clients_of. cbn.
    specialize (Hclients ws). unfold clients_of in Hclients.
    rewrite Hclients. split; [intros [Hw | [Hx _]]; [exact Hw | lia] | now left].
  - intros ws2 channel2 uuid2 t2 Hch2 Ht2 c2.
    destruct (@join_existing (join_failed ws1 p e t c) t2 ws2 channel2 uuid2 ch cl)
      as (Hcl2 & Hcc2 & Heff); try assumption; try reflexivity.
    + unfold join_failed, map_has. cbn. now rewrite Hstreams, map_get_set_eq.
    + subst c2. rewrite Hcl2, Heff. split; [|split; [exact Hcc2|split; reflexivity]].
      apply set_add_In. now left.
Qed.
End FailedHandshake.

(** ** The reference client, and the scenarios *)

Lemma sc_close_keeps_activity t sid sid' (b : SpecClient) :
  sid' <> sid ->
  getLastActivityTime (after_call t (closeSession sid) b) sid'
  = getLastActivityTime b sid'.
Proof.
  intros Hne. cbn. destruct (set_has sid (sc_close_throws b)); [reflexivity|].
  cbn. now rewrite map_get_delete_neq.
Qed.

Lemma sc_close_keeps_throws t sid sid' (b : SpecClient) :
  sid' <> sid ->
  closeSession_throws (after_call t (closeSession sid) b) sid'
  = closeSession_throws b sid'.
Proof.
  intros Hne. cbn. destruct (set_has sid (sc_close_throws b)); reflexivity.
Qed.

(** C5, where the spec says otherwise: "abc" is idle for more than five
    minutes, the cleanup calls [closeSession] for it, and the channel is
    still in both registries and in the answer of [GET /channels]. *)
Lemma reaped_channel_still_listed :
  calls (effects_since joined_abc reaped_abc) = [closeSession "abc"]
  /\ map_get "abc"%string (channelStreams (st reaped_abc)) = Some 0%nat
  /\ map_get "abc"%string (channelClients (st reaped_abc)) = Some [1%nat]
  /\ getChannels (st reaped_abc)
     = [{| id := "abc"; clientCount := 1; active := false |}].
Proof. vm_compute. repeat split; reflexivity. Qed.

(** C4, where the spec says otherwise: the dispatch of a tool name that is
    not registered throws, and so does the weather tool when the request
    fails or its input is not JSON, and the outage tool when its input is
    null. *)
Lemma unregistered_tool_throws :
  let tools := Tools.registerXMLTools offline Tools.registeredTools in
  Tools.result (Tools.execute tools [] "transfer_call" bad_tool_use)
  = Tools.Thrown (JsError "Tool transfer_call not supported")
  /\ Tools.result (Tools.execute tools [] "get_weather" weather_tool_use)
     = Tools.Thrown (JsError "fetch failed")
  /\ Tools.result (Tools.execute tools [] "get_weather" bad_tool_use)
     = Tools.Thrown (JsError "Unexpected token in JSON")
  /\ Tools.result (Tools.execute tools [] "check_for_outage" null_tool_use)
     = Tools.Thrown (JsTypeError
         "Cannot destructure property 'affectsAllUserDevices' of 'JSON.parse(...)' as it is null.").
Proof. vm_compute. repeat split; reflexivity. Qed.


(** C2 on a block of 2000 bytes sent to the first of two open clients. *)
Lemma audio_reframing_2000_bytes :
  (NoDup (clients_of "abc"%string two_clients)
   /\ In 1%nat (clients_of "abc"%string two_clients)
   /\ readyState two_clients 1%nat = OPEN)
  /\ exists c',
       run_sync (onAudioOutput "abc"%string
                   {| json := "{}"%string; content := Some (repeat x00 2000) |})
                (idle two_clients 0)
       = (c', Finished tt)
       /\ List.length (audio_frames (sends_to 1%nat (effects_since (idle two_clients 0) c')))
          = 3%nat.
Proof.
  assert (Hnd : NoDup (clients_of "abc"%string two_clients)).
  { vm_compute. repeat constructor; cbn; intuition discriminate. }
  assert (Hin : In 1%nat (clients_of "abc"%string two_clients)) by (vm_compute; auto).
  assert (Hopen : readyState two_clients 1%nat = OPEN) by reflexivity.
  split; [auto|].
  destruct (@audio_reframing SpecClient "abc"%string "{}"%string (repeat x00 2000) 1%nat
              (idle two_clients 0) Hnd Hin Hopen)
    as (c' & Hrun & _ & _ & _ & _ & _ & H2000).
  exists c'. split; [exact Hrun|]. apply H2000. apply repeat_length.
Defined.

(** C10 on a message from a socket that joined no channel. *)
Lemma message_from_unknown_socket :
  let c := idle (initial_state sc_empty) 0 in
  (falsy (map_get 7%nat (clientChannels (st c))) = true
   \/ exists channelId,
        map_get 7%nat (clientChannels (st c)) = Some channelId
        /\ map_get channelId (channelStreams (st c)) = None)
  /\ exists m d,
       effects_since c (start None (handleMessage true true 7%nat not_json) c)
       = [ESend 7%nat (MError m d)].
Proof.
  intros c.
  assert (Hcase : falsy (map_get 7%nat (clientChannels (st c))) = true
                  \/ exists channelId,
                       map_get 7%nat (clientChannels (st c)) = Some channelId
                       /\ map_get channelId (channelStreams (st c)) = None)
    by (left; reflexivity).
  split; [exact Hcase|].
  destruct (@message_without_channel_or_session SpecClient _ true true 7%nat not_json c
              Hcase) as (m & d & _ & Heff & _).
  exists m, d. exact Heff.
Defined.

(** C5 on a pass of the cleanup over two sessions, one of them idle. *)
Lemma cleanup_of_two_sessions :
  let c := idle two_channels 400000 in
  NoDup (getActiveSessions (bedrockClient (st c)))
  /\ exists c',
       run_sync sessionCleanup c = (c', Finished tt)
       /\ calls (effects_since c c') = [closeSession "abc"]
       /\ map id (getChannels (st c')) = ["abc"%string; "xyz"%string].
Proof.
  intros c.
  assert (Hnd : NoDup (getActiveSessions (bedrockClient (st c)))).
  { vm_compute. repeat constructor; cbn; intuition discriminate. }
  split; [exact Hnd|].
  destruct (@reaper_closes_idle_sessions SpecClient _ sc_close_keeps_activity
              sc_close_keeps_throws c Hnd)
    as (_ & c' & Hrun & Hcalls & _ & _ & _ & _ & Hids & _).
  exists c'. split; [exact Hrun|]. split; [exact Hcalls | exact Hids].
Defined.

(** C6 on the last client of "abc", whose graceful teardown goes through. *)
Lemma teardown_of_abc :
  (map_get 1%nat (clientChannels last_client) = Some "abc"%string
   /\ String.eqb "abc" "" = false
   /\ map_get "abc"%string (channelClients last_client) = Some [1%nat]
   /\ map_get "abc"%string (channelStreams last_client) = Some 0%nat
   /\ isSessionActive (bedrockClient last_client) "abc" = true
   /\ Forall env_only graceful_steps)
  /\ let c := run true true graceful_steps
                (step true true (idle last_client 0)
                   {| at_ms := 0; what := SocketClosed 1%nat |}) in
     map_get "abc"%string (channelStreams (st c)) = None
     /\ map_get "abc"%string (channelClients (st c)) = None
     /\ closeSession_count "abc" (effects_since (idle last_client 0) c) = 0%nat.
Proof.
  assert (Hevs : Forall env_only graceful_steps) by (repeat constructor).
  split; [repeat split; try reflexivity; exact Hevs|].
  pose proof (@last_client_teardown SpecClient _ true true last_client 0 1%nat
                "abc"%string 0%nat graceful_steps eq_refl eq_refl eq_refl eq_refl
                eq_refl Hevs) as Hthm.
  cbv zeta in Hthm. destruct Hthm as (_ & _ & _ & Hphase & _).
  change (tv_phase (teardown_spec 0 graceful_steps)) with (Removed false) in Hphase.
  cbv zeta. destruct Hphase as (H1 & H2 & _ & H4 & _).
  split; [exact H1|]. split; [exact H2 | exact H4].
Defined.

(** C7 on two channels, when the sessions and the servers are closed in
    time. *)
Lemma shutdown_of_two_channels :
  (NoDup (map_keys (channelStreams two_channels))
   /\ (forall ch, In ch (map_keys (channelStreams two_channels)) ->
                  closeSession_throws (bedrockClient two_channels) ch = None)
   /\ Forall env_only all_closed)
  /\ let c := run true true all_closed
                (step true true (idle two_channels 0) {| at_ms := 0; what := SIGINT |}) in
     let done := effects_since (idle two_channels 0) c in
     firstn 2 (calls done) = [closeSession "abc"; closeSession "xyz"]
     /\ (forall ws, In ws (closes done) <->
                    exists ch, In ch ["abc"%string; "xyz"%string]
                               /\ In ws (clients_of ch two_channels)
                               /\ readyState two_channels ws = OPEN)
     /\ now c <= 5000.
Proof.
  assert (Hnd : NoDup (map_keys (channelStreams two_channels))).
  { vm_compute. repeat constructor; cbn; intuition discriminate. }
  assert (Hthrow : forall ch, In ch (map_keys (channelStreams two_channels)) ->
                     closeSession_throws (bedrockClient two_channels) ch = None)
    by (intros ch _; reflexivity).
  assert (Hevs : Forall env_only all_closed) by (repeat constructor).
  split; [auto|].
  pose proof (@sigint_shutdown_bounded SpecClient _ true true sc_close_keeps_throws
                two_channels 0 all_closed Hnd Hthrow Hevs) as Hthm.
  cbv zeta in Hthm. destruct Hthm as (H1 & H2 & H3 & _).
  cbv zeta. split; [exact H1|]. split; [exact H2 | exact H3].
Defined.


(** C3 on the same clients: the channel is there whatever happens to the
    handshake. *)
Lemma failed_handshake_of_abc :
  let s := initial_state sc_empty in
  (map_has (resolve_channel (Some "abc"%string) "uuid-1") (channelStreams s) = false
   /\ Forall (joins_or_resolves (resolve_channel (Some "abc"%string) "uuid-1"))
        more_joiners
   /\ chronological 0 more_joiners
   /\ NoDup (1%nat :: joiners more_joiners))
  /\ let c := run true true more_joiners
                (step true true (idle s 0)
                   {| at_ms := 0;
                      what := Connection 1%nat (Some "abc"%string) "uuid-1" |}) in
     exists k p,
       joined_view s 1%nat "abc" 0%nat [2%nat; 3%nat] k (st c)
         (effects_since (idle s 0) c)
       /\ ((k < 3)%nat ->
           forall e,
             map_get "abc"%string
               (channelStreams
                  (st (step true true c
                         {| at_ms := now c; what := Settled p (Rejected e) |})))
             = Some 0%nat).
Proof.
  intros s.
  assert (Hunseen : map_has (resolve_channel (Some "abc"%string) "uuid-1")
                      (channelStreams s) = false) by reflexivity.
  assert (Hevs : Forall (joins_or_resolves (resolve_channel (Some "abc"%string) "uuid-1"))
                   more_joiners) by (repeat constructor).
  assert (Hchr : chronological 0 more_joiners) by (cbn; lia).
  assert (Hnd : NoDup (1%nat :: joiners more_joiners)).
  { vm_compute. repeat constructor; cbn; intuition discriminate. }
  split; [auto|].
  destruct (@rejected_handshake_leaves_channel_joinable SpecClient _ true true s 0 1%nat
              (Some "abc"%string) "uuid-1"%string more_joiners Hunseen Hevs Hchr Hnd)
    as (k & p & Hview & Hrej).
  exists k, p. split; [exact Hview|].
  intros Hk e. destruct (Hrej Hk e _ (Z.le_refl _)) as (_ & Hs & _). exact Hs.
Defined.

(** ** What the handlers never do *)

Section Lives.
Context {B : Type} `{NovaSonicClient B}.
Variables browser_isOn vonage_isOn : bool.
Implicit Types (c : @config B) (s : @state B).
#[local] Arguments String.append : simpl never.

Lemma never_throws_bind A C (m : @prog B A) (f : A -> @prog B C) :
  never_throws m -> (forall a, never_throws (f a)) -> never_throws (bind m f).
Proof. intros Hm Hf. induction m; cbn in *; auto. Qed.

Lemma never_throws_try_catch A (m : @prog B A) (h : exn -> @prog B A) :
  (forall e, never_throws (h e)) -> never_throws (try_catch m h).
Proof. intros Hh. induction m; cbn in *; auto. Qed.

Lemma never_exits_bind A C (m : @prog B A) (f : A -> @prog B C) :
  never_exits m -> (forall a, never_exits (f a)) -> never_exits (bind m f).
Proof.
  intros Hm Hf. induction m; cbn in *; auto. destruct Hm. split; auto.
Qed.

Lemma never_exits_try_catch A (m : @prog B A) (h : exn -> @prog B A) :
  never_exits m -> (forall e, never_exits (h e)) -> never_exits (try_catch m h).
Proof.
  intros Hm Hh. induction m; cbn in *; auto. destruct Hm. split; auto.
Qed.

Lemma never_sends_bind A C (m : @prog B A) (f : A -> @prog B C) :
  never_sends m -> (forall a, never_sends (f a)) -> never_sends (bind m f).
Proof.
  intros Hm Hf. induction m; cbn in *; auto; destruct Hm; split; auto.
Qed.

Lemma never_sends_try_catch A (m : @prog B A) (h : exn -> @prog B A) :
  never_sends m -> (forall e, never_sends (h e)) -> never_sends (try_catch m h).
Proof.
  intros Hm Hh. induction m; cbn in *; auto; destruct Hm; split; auto.
Qed.

(** The [catch] of a [try] whose body does not throw is dead code. *)
Lemma never_sends_try_dead A (m : @prog B A) (h : exn -> @prog B A) :
  never_throws m -> never_sends m -> never_sends (try_catch m h).
Proof.
  intros Ht Hm. induction m; cbn in *; auto; try contradiction;
    destruct Hm; split; auto.
Qed.

Lemma st_sys_exec X (op : sysop X) c : st (snd (sys_exec op c)) = st c.
Proof. destruct op; reflexivity. Qed.

Lemma st_conclude r (x : @status B unit) c :
  match x, r with Failed _, None => True | _, _ => st (conclude r x c) = st c end.
Proof. destruct x, r; reflexivity. Qed.

Lemma never_throws_run A (p : @prog B A) c :
  never_throws p ->
  match snd (run_sync p c) with
  | Failed _ => False
  | Blocked _ k => forall o, never_throws (k o)
  | _ => True
  end.
Proof.
  revert c. induction p as [| | | ? ? g k IH | ? ? op k IH | ? w k IH
                            | ? child IHc k IH | ? ms rep cb IHcb k IH];
    intros c Hp; cbn in *; auto.
  - destruct (g (st c)) as [x s']. apply IH, Hp.
  - destruct (sys_exec op c) as [x c']. apply IH, Hp.
  - destruct (run_sync child _) as [c2 x]. destruct x; try apply IH, Hp. exact I.
  - apply IH, Hp.
Qed.

Lemma never_exits_run A (p : @prog B A) c :
  never_exits p ->
  match snd (run_sync p c) with
  | Exited => False
  | Blocked _ k => forall o, never_exits (k o)
  | _ => True
  end.
Proof.
  revert c. induction p as [| | | ? ? g k IH | ? ? op k IH | ? w k IH
                            | ? child IHc k IH | ? ms rep cb IHcb k IH];
    intros c Hp; cbn in *; auto.
  - destruct (g (st c)) as [x s']. apply IH, Hp.
  - destruct (sys_exec op c) as [x c']. apply IH, Hp.
  - destruct Hp as [Hc Hk].
    specialize (IHc (snd (fresh_promise false c)) Hc). cbn in IHc.
    destruct (run_sync child _) as [c2 x]. cbn in IHc.
    destruct x; try apply IH, Hk. contradiction.
  - apply IH, Hp.
Qed.

Lemma never_sends_run A (p : @prog B A) c :
  never_sends p ->
  (exists l, trace (st (fst (run_sync p c))) = trace (st c) ++ l /\ sends l = [])
  /\ match snd (run_sync p c) with
     | Blocked _ k => forall o, never_sends (k o)
     | _ => True
     end.
Proof.
  revert c. induction p as [| | | ? ? g k IH | ? ? op k IH | ? w k IH
                            | ? child IHc k IH | ? ms rep cb IHcb k IH];
    intros c Hp; cbn in *;
    try (split; [exists []; now rewrite app_nil_r | auto]).
  - destruct Hp as [Hg Hk]. specialize (Hg (st c)).
    destruct (g (st c)) as [x s']. cbn in Hg. destruct Hg as (l1 & Hl1 & Hs1).
    destruct (IH x (with_st (fun _ => s') c) (Hk x)) as [(l2 & Hl2 & Hs2) Hb].
    split; [|exact Hb]. exists (l1 ++ l2). cbn in Hl2.
    now rewrite Hl2, Hl1, app_assoc, sends_app, Hs1, Hs2.
  - pose proof (st_sys_exec op c) as Hst.
    destruct (sys_exec op c) as [x c']. cbn in Hst.
    destruct (IH x c' (Hp x)) as [(l2 & Hl2 & Hs2) Hb].
    split; [|exact Hb]. exists l2. now rewrite Hl2, Hst.
  - destruct Hp as [Hc Hk].
    destruct (IHc (snd (fresh_promise false c)) Hc) as [(l1 & Hl1 & Hs1) _].
    cbn in Hl1.
    destruct (run_sync child _) as [c2 x] eqn:Hrun. cbn in Hl1.
    assert (Hgo : forall c3, st c3 = st c2 ->
              (exists l, trace (st (fst (run_sync (k (nextPromise c)) c3)))
                         = trace (st c) ++ l /\ sends l = [])
              /\ match snd (run_sync (k (nextPromise c)) c3) with
                 | Blocked _ k0 => forall o, never_sends (k0 o)
                 | _ => True
                 end).
    { intros c3 Hc3.
      destruct (IH (nextPromise c) c3 (Hk _)) as [(l2 & Hl2 & Hs2) Hb].
      split; [|exact Hb]. exists (l1 ++ l2).
      now rewrite Hl2, Hc3, Hl1, app_assoc, sends_app, Hs1, Hs2. }
    destruct x; try (apply Hgo; reflexivity).
    cbn. split; [|exact I]. exists l1. auto.
  - destruct (IH (nextTimer c) (snd (add_timer ms rep cb c)) (Hp _))
      as [(l2 & Hl2 & Hs2) Hb].
    split; [|exact Hb]. exists l2. split; [exact Hl2 | exact Hs2].
Qed.

Lemma lives_ends A (p : @prog B A) c l (r : status A) :
  lives p c l r -> match r with Blocked _ _ => False | _ => True end.
Proof. induction 1; assumption. Qed.

Lemma never_throws_lives A (p : @prog B A) c l (r : status A) :
  never_throws p -> lives p c l r -> forall e, r <> Failed e.
Proof.
  intros Hp Hl. induction Hl as [p c c' r Hrun Hr0 | p c c' w k o c2 l r Hrun Hl IH].
  - pose proof (never_throws_run p c Hp) as Hr. rewrite Hrun in Hr. cbn in Hr.
    intros e ->. exact Hr.
  - apply IH. pose proof (never_throws_run p c Hp) as Hr. rewrite Hrun in Hr.
    cbn in Hr. apply Hr.
Qed.

Lemma never_exits_lives A (p : @prog B A) c l (r : status A) :
  never_exits p -> lives p c l r -> r <> Exited.
Proof.
  intros Hp Hl. induction Hl as [p c c' r Hrun Hr0 | p c c' w k o c2 l r Hrun Hl IH].
  - pose proof (never_exits_run p c Hp) as Hr. rewrite Hrun in Hr. cbn in Hr.
    intros ->. exact Hr.
  - apply IH. pose proof (never_exits_run p c Hp) as Hr. rewrite Hrun in Hr.
    cbn in Hr. apply Hr.
Qed.

Lemma never_sends_lives A (p : @prog B A) c l (r : status A) :
  never_sends p -> lives p c l r -> sends l = [].
Proof.
  intros Hp Hl. induction Hl as [p c c' r Hrun Hr0 | p c c' w k o c2 l r Hrun Hl IH].
  - destruct (never_sends_run p c Hp) as [(l1 & Hl1 & Hs1) _].
    rewrite Hrun in Hl1. cbn in Hl1. unfold effects_since.
    now rewrite Hl1, skipn_app, skipn_all, Nat.sub_diag.
  - destruct (never_sends_run p c Hp) as [(l1 & Hl1 & Hs1) Hb].
    rewrite Hrun in Hl1, Hb. cbn in Hl1, Hb. unfold effects_since.
    rewrite Hl1, skipn_app, skipn_all, Nat.sub_diag. cbn.
    rewrite sends_app, Hs1. cbn. apply IH, Hb.
Qed.

(** A function that can only return returns. *)
Lemma returns_lives (p : @prog B unit) c l (r : status unit) :
  never_throws p -> never_exits p -> lives p c l r -> r = Finished tt.
Proof.
  intros Ht He Hl.
  pose proof (never_throws_lives Ht Hl) as H1.
  pose proof (never_exits_lives He Hl) as H2.
  pose proof (lives_ends Hl) as H3.
  destruct r as [[]|e| |w k]; try reflexivity; try contradiction.
  now elim (H1 e).
Qed.

(** What a life depends on is the first run. *)
Lemma lives_ext A (p q : @prog B A) c l (r : status A) :
  run_sync p c = run_sync q c -> lives p c l r -> lives q c l r.
Proof.
  intros Heq Hl. revert q Heq.
  destruct Hl as [p c c' r Hrun Hr0 | p c c' w k o c2 l r Hrun Hl]; intros q Heq.
  - apply lives_end; [|assumption]. rewrite <- Heq. exact Hrun.
  - eapply lives_on; [|eassumption]. rewrite <- Heq. exact Hrun.
Qed.

Ltac by_cases :=
  repeat first
    [ exact I
    | progress intros
    | split
    | match goal with
      | |- exists l, ?t ++ [?e] = ?t ++ l /\ _ => exists [e]; split; reflexivity
      | |- exists l, ?t = ?t ++ l /\ _ =>
          exists []; split; [now rewrite app_nil_r | reflexivity]
      | |- context [resume ?o] => is_var o; destruct o
      end
    | progress cbn ].

Lemma await_session_quiet sess op :
  never_exits (@await_session B _ sess op) /\ never_sends (@await_session B _ sess op).
Proof. unfold await_session, call, await. by_cases. Qed.

Lemma browser_tryProcessAudioInput_quiet msg sess :
  never_throws (browser_tryProcessAudioInput browser_isOn msg sess)
  /\ never_exits (browser_tryProcessAudioInput browser_isOn msg sess)
  /\ never_sends (browser_tryProcessAudioInput browser_isOn msg sess).
Proof.
  unfold browser_tryProcessAudioInput.
  destruct browser_isOn; cbn [negb]; [|by_cases].
  split; [apply never_throws_try_catch; by_cases|].
  destruct (parsed msg) as [jsonMsg|]; [|by_cases].
  destruct (audioInputContent jsonMsg) as [audio|]; [|by_cases].
  destruct (await_session_quiet sess (streamAudio audio)) as [He Hs].
  split; [apply never_exits_try_catch | apply never_sends_try_catch];
    auto; by_cases.
Qed.

Lemma vonage_tryProcessAudioInput_quiet msg sess :
  never_throws (vonage_tryProcessAudioInput vonage_isOn msg sess)
  /\ never_exits (vonage_tryProcessAudioInput vonage_isOn msg sess)
  /\ never_sends (vonage_tryProcessAudioInput vonage_isOn msg sess).
Proof.
  unfold vonage_tryProcessAudioInput.
  destruct vonage_isOn; cbn [negb]; [|by_cases].
  split; [apply never_throws_try_catch; by_cases|].
  destruct (await_session_quiet sess (streamAudio (raw msg))) as [He Hs].
  split; [apply never_exits_try_catch | apply never_sends_try_catch];
    auto; by_cases.
Qed.

Lemma novaSonicHandlers_quiet type_ jsonMsg sess
    (handler : inbound_json -> session -> @prog B unit) :
  novaSonicHandlers type_ = Some handler ->
  never_exits (handler jsonMsg sess) /\ never_sends (handler jsonMsg sess).
Proof.
  unfold novaSonicHandlers.
  repeat match goal with
         | |- context [if ?b then _ else _] => destruct b
         end;
    intros Heq; try discriminate; injection Heq as <-; cbv beta;
    try apply await_session_quiet.
  by_cases.
Qed.

Lemma tryProcessNovaSonicMessage_quiet msg sess :
  never_throws (@tryProcessNovaSonicMessage B _ msg sess)
  /\ never_exits (@tryProcessNovaSonicMessage B _ msg sess)
  /\ never_sends (@tryProcessNovaSonicMessage B _ msg sess).
Proof.
  unfold tryProcessNovaSonicMessage.
  split; [apply never_throws_try_catch; by_cases|].
  destruct (parsed msg) as [jsonMsg|]; [|by_cases].
  destruct (msgType jsonMsg) as [type_|]; [|by_cases].
  destruct (novaSonicHandlers type_) as [handler|] eqn:Hh; [|by_cases].
  destruct (@novaSonicHandlers_quiet type_ jsonMsg sess handler Hh) as [He Hs].
  split; [apply never_exits_try_catch | apply never_sends_try_catch];
    auto; by_cases.
Qed.

Ltac by_parts :=
  repeat match goal with
    | |- never_throws (bind _ _) => apply never_throws_bind
    | |- never_throws (try_catch _ _) => apply never_throws_try_catch
    | |- never_exits (bind _ _) => apply never_exits_bind
    | |- never_exits (try_catch _ _) => apply never_exits_try_catch
    | |- never_sends (bind _ _) => apply never_sends_bind
    | |- never_sends (try_catch _ _) => apply never_sends_try_catch
    | |- never_throws (match ?x with _ => _ end) => destruct x
    | |- never_exits (match ?x with _ => _ end) => destruct x
    | |- never_sends (match ?x with _ => _ end) => destruct x
    | |- forall _, _ => intros
    | |- _ /\ _ => split
    | |- _ => progress cbv zeta
    end.

Lemma handleClose_returns ws :
  never_throws (@handleClose B _ ws) /\ never_exits (@handleClose B _ ws).
Proof.
  unfold handleClose, cleanupChannel, forceClose, removeChannel, gracefulCleanup,
    closeSession_.
  by_parts. all: solve [by_cases].
Qed.

Lemma initializeOrJoinChannel_returns ws channelId :
  never_throws (@initializeOrJoinChannel B _ ws channelId)
  /\ never_exits (@initializeOrJoinChannel B _ ws channelId).
Proof.
  unfold initializeOrJoinChannel, onJoinFailure, openNewChannel, attachClient,
    handshake_after_promptStart, handshake_after_systemPrompt,
    createStreamSession_, setUpEventHandlersForChannel.
  by_parts. all: solve [by_cases].
Qed.

Lemma never_exits_for_each X (l : list X) (body : X -> @prog B unit) :
  (forall x, never_exits (body x)) -> never_exits (for_each l body).
Proof.
  intros Hb. induction l as [|x l IH]; cbn; [exact I|].
  apply never_exits_bind; auto.
Qed.

Lemma never_throws_for_each X (l : list X) (body : X -> @prog B unit) :
  (forall x, never_throws (body x)) -> never_throws (for_each l body).
Proof.
  intros Hb. induction l as [|x l IH]; cbn; [exact I|].
  apply never_throws_bind; auto.
Qed.

Lemma sessionCleanup_returns :
  never_throws (@sessionCleanup B _) /\ never_exits (@sessionCleanup B _).
Proof.
  unfold sessionCleanup. by_parts;
    try (apply never_throws_for_each; intros; unfold closeIfInactive, closeSession_);
    try (apply never_exits_for_each; intros; unfold closeIfInactive, closeSession_);
    by_parts.
  all: solve [by_cases].
Qed.

Lemma handleMessage_returns ws msg :
  never_throws (handleMessage browser_isOn vonage_isOn ws msg)
  /\ never_exits (handleMessage browser_isOn vonage_isOn ws msg).
Proof.
  unfold handleMessage. by_parts.
  all: try apply browser_tryProcessAudioInput_quiet.
  all: try apply vonage_tryProcessAudioInput_quiet.
  all: try apply tryProcessNovaSonicMessage_quiet.
  all: solve [by_cases].
Qed.

(** X1.  The handlers of the server only return: whatever the state when
    they are called and when they resume, and whatever the outcome of each
    promise they wait for, the join of a socket, the message handler, the
    close handler and the session cleanup neither throw (so the promise of
    an [async] handler is never rejected) nor end the process. *)
Theorem handlers_always_return ws channel uuid msg :
  (forall c l (r : status unit),
      lives (onSocket ws channel uuid) c l r -> r = Finished tt)
  /\ (forall c l (r : status unit),
        lives (initializeOrJoinChannel ws (resolve_channel channel uuid)) c l r ->
        r = Finished tt)
  /\ (forall c l (r : status unit),
        lives (handleMessage browser_isOn vonage_isOn ws msg) c l r -> r = Finished tt)
  /\ (forall c l (r : status unit), lives (handleClose ws) c l r -> r = Finished tt)
  /\ (forall c l (r : status unit), lives sessionCleanup c l r -> r = Finished tt).
Proof.
  pose proof (initializeOrJoinChannel_returns ws (resolve_channel channel uuid))
    as [Hj1 Hj2].
  repeat split; intros c l r Hl.
  - apply (@returns_lives _ c l r) in Hl; [exact Hl| |].
    + unfold onSocket. by_parts; by_cases.
    + unfold onSocket. cbv zeta. apply never_exits_bind; [by_cases | intros _].
      apply never_exits_bind; [|by_cases].
      cbn [never_exits]. split; [exact Hj2 | by_cases].
  - now apply (@returns_lives _ c l r) in Hl.
  - apply (@returns_lives _ c l r) in Hl; [exact Hl | |]; apply handleMessage_returns.
  - apply (@returns_lives _ c l r) in Hl; [exact Hl | |]; apply handleClose_returns.
  - apply (@returns_lives _ c l r) in Hl; [exact Hl | |]; apply sessionCleanup_returns.
Qed.

(** X2.  A message on a socket that has a channel with a session is never
    answered: whatever the message, the adapters that are on and the
    outcome of the session calls, the handler writes nothing to a socket
    and returns.  Each adapter swallows its own errors, so the reply
    "Error processing message" cannot be sent. *)
Theorem handleMessage_swallows_errors ws msg channelId sess c l (r : status unit) :
  map_get ws (clientChannels (st c)) = Some channelId ->
  String.eqb channelId "" = false ->
  map_get channelId (channelStreams (st c)) = Some sess ->
  lives (handleMessage browser_isOn vonage_isOn ws msg) c l r ->
  r = Finished tt /\ sends l = [].
Proof.
  intros Hch Hne Hsess Hl.
  split; [apply (@returns_lives _ c l r) in Hl; [exact Hl | |];
          apply handleMessage_returns|].
  set (body := bind (browser_tryProcessAudioInput browser_isOn msg sess)
                 (fun _ => bind (vonage_tryProcessAudioInput vonage_isOn msg sess)
                             (fun _ => tryProcessNovaSonicMessage msg sess))).
  set (p := try_catch body
              (fun error => sendError ws "Error processing message" (String_of error))).
  assert (Hrun : run_sync (handleMessage browser_isOn vonage_isOn ws msg) c
                 = run_sync p c).
  { unfold handleMessage. rewrite run_sync_bind, run_sync_get. cbv beta iota.
    rewrite Hch, Hne. rewrite run_sync_bind, run_sync_get. cbv beta iota.
    rewrite Hsess. reflexivity. }
  apply (lives_ext _ Hrun) in Hl. apply (never_sends_lives (p := p)) in Hl; [exact Hl|].
  subst p. apply never_sends_try_dead; subst body; by_parts;
    first [ apply browser_tryProcessAudioInput_quiet
          | apply vonage_tryProcessAudioInput_quiet
          | apply tryProcessNovaSonicMessage_quiet ].
Qed.
End Lives.

(** ** Closing a socket: the other paths *)

Section CloseEdges.
Context {B : Type} `{NovaSonicClient B}.
Implicit Types (c : @config B) (s : @state B).
#[local] Arguments String.append : simpl never.

Lemma map_delete_set (ch : string) (v : jsset socket) (m : jsmap string (jsset socket)) :
  map_delete ch (map_set ch v m) = map_delete ch m.
Proof.
  induction m as [|[k x] m IH]; cbn.
  - now rewrite String.eqb_refl.
  - destruct (String.eqb ch k) eqn:E; cbn.
    + now rewrite String.eqb_refl.
    + now rewrite E, IH.
Qed.

(** X3.  When a client leaves a channel that keeps other clients, the
    close handler returns at once: the socket is taken out of the client
    set of the channel and out of the socket registry, the channel keeps
    its session, nothing is called upstream, nothing is written to a
    socket and no timer is armed. *)
Theorem close_of_one_of_several ws channelId clients c :
  map_get ws (clientChannels (st c)) = Some channelId ->
  String.eqb channelId "" = false ->
  map_get channelId (channelClients (st c)) = Some clients ->
  set_delete ws clients <> [] ->
  exists c',
    run_sync (handleClose ws) c = (c', Finished tt)
    /\ channelClients (st c')
       = map_set channelId (set_delete ws clients) (channelClients (st c))
    /\ clientChannels (st c') = map_delete ws (clientChannels (st c))
    /\ channelStreams (st c') = channelStreams (st c)
    /\ calls (effects_since c c') = []
    /\ sends (effects_since c c') = []
    /\ pool c' = pool c /\ timers c' = timers c.
Proof.
  intros Hch Hne Hcl Hrest. unfold handleClose.
  run_steps. rewrite Hch. cbv beta iota. rewrite Hne. cbv beta iota.
  run_steps. rewrite Hcl. cbv beta iota zeta.
  destruct (set_delete ws clients) as [|w rest] eqn:Hdel; [contradiction|].
  cbn [List.length Nat.eqb]. run_steps. eexists. split; [reflexivity|].
  unfold effects_since. cbn. repeat split; try reflexivity.
  all: rewrite <- ?app_assoc, skipn_app, skipn_all, Nat.sub_diag; reflexivity.
Qed.

(** X4.  When the last client leaves a channel whose session is missing
    or is not active any more, the close handler returns at once and
    removes the channel from both registries and the socket from its own,
    without any call upstream (no graceful sequence, no [closeSession])
    and without arming the cleanup timer. *)
Theorem close_of_last_client_without_session ws channelId clients c :
  map_get ws (clientChannels (st c)) = Some channelId ->
  String.eqb channelId "" = false ->
  map_get channelId (channelClients (st c)) = Some clients ->
  set_delete ws clients = [] ->
  map_get channelId (channelStreams (st c)) = None
  \/ isSessionActive (bedrockClient (st c)) channelId = false ->
  exists c',
    run_sync (handleClose ws) c = (c', Finished tt)
    /\ channelStreams (st c') = map_delete channelId (channelStreams (st c))
    /\ channelClients (st c') = map_delete channelId (channelClients (st c))
    /\ clientChannels (st c') = map_delete ws (clientChannels (st c))
    /\ calls (effects_since c c') = []
    /\ sends (effects_since c c') = []
    /\ pool c' = pool c /\ timers c' = timers c.
Proof.
  intros Hch Hne Hcl Hlast Hsess. unfold handleClose.
  run_steps. rewrite Hch. cbv beta iota. rewrite Hne. cbv beta iota.
  run_steps. rewrite Hcl. cbv beta iota zeta. rewrite Hlast.
  cbn [List.length Nat.eqb]. unfold removeChannel.
  run_steps. cbn [st with_st emit with_channelClients channelStreams bedrockClient].
  assert (Hskip :
    (match map_get channelId (channelStreams (st c)) with
     | Some sess =>
         if isSessionActive (bedrockClient (st c)) channelId
         then cleanupChannel channelId sess else skip
     | None => skip
     end) = skip).
  { destruct Hsess as [-> | ->]; [reflexivity|].
    now destruct (map_get channelId (channelStreams (st c))). }
  rewrite Hskip. run_steps. eexists. split; [reflexivity|].
  unfold effects_since. cbn. rewrite map_delete_set. repeat split; try reflexivity.
  all: rewrite <- ?app_assoc, skipn_app, skipn_all, Nat.sub_diag; reflexivity.
Qed.
End CloseEdges.

(** ** What a message calls upstream *)

Section MessageCalls.
Context {B : Type} `{NovaSonicClient B}.
Variables browser_isOn vonage_isOn : bool.
Implicit Types (c : @config B) (s : @state B).
#[local] Arguments String.append : simpl never.

Lemma lives_inv A (p : @prog B A) c l (r : status A) c' (x : status A) :
  lives p c l r ->
  run_sync p c = (c', x) ->
  match x with
  | Blocked w k =>
      exists o c2 l2, l = effects_since c c' ++ l2 /\ lives (k o) c2 l2 r
  | _ => l = effects_since c c' /\ r = x
  end.
Proof.
  intros Hl. revert c' x.
  destruct Hl as [p c c1 r Hrun Hr0 | p c c1 w k o c2 l r Hrun Hl]; intros c' x Hx;
    rewrite Hrun in Hx; injection Hx as <- <-.
  - destruct r; try contradiction; auto.
  - eauto.
Qed.

Lemma effects_since_called cc c : effects_since c (called cc c) = [ECall cc].
Proof. apply effects_since_trace, trace_called. Qed.

Lemma effects_since_refl c : effects_since c c = [].
Proof. unfold effects_since. apply skipn_all. Qed.

Lemma effects_since_console level text c :
  effects_since c (with_st (emit (EConsole level text)) c) = [EConsole level text].
Proof. now apply effects_since_trace. Qed.

(** One step of a life: the run of the program in its configuration is
    computed, and the life goes on in the continuation. *)
Ltac live_on Hl :=
  let o := fresh "o" in
  let c2 := fresh "c" in
  let l2 := fresh "l" in
  let Hl2 := fresh "Hl" in
  let El := fresh "El" in
  let Hend := fresh "Hend" in
  eapply lives_inv in Hl; [|cbn; reflexivity];
  cbv beta iota in Hl;
  first [ destruct Hl as (o & c2 & l2 & El & Hl2); destruct o; rename Hl2 into Hl
        | destruct Hl as (El & Hend) ].

Lemma lives_by_lives A (p : @prog B A) c os l (r : status A) :
  lives_by p c os l r -> lives p c l r.
Proof.
  induction 1 as [p c c' r Hrun Hr | p c c' w k o c2 os l r Hrun _ IH].
  - now apply lives_end.
  - eapply lives_on; eassumption.
Qed.

Lemma lives_lives_by A (p : @prog B A) c l (r : status A) :
  lives p c l r -> exists os, lives_by p c os l r.
Proof.
  induction 1 as [p c c' r Hrun Hr | p c c' w k o c2 l r Hrun _ [os IH]].
  - exists []. now apply lives_by_end.
  - exists (o :: os). eapply lives_by_on; eassumption.
Qed.

Lemma lives_by_inv A (p : @prog B A) c os l (r : status A) c' (x : status A) :
  lives_by p c os l r ->
  run_sync p c = (c', x) ->
  match x with
  | Blocked w k =>
      exists o c2 os2 l2,
        os = o :: os2 /\ l = effects_since c c' ++ l2 /\ lives_by (k o) c2 os2 l2 r
  | _ => os = [] /\ l = effects_since c c' /\ r = x
  end.
Proof.
  intros Hl. revert c' x.
  destruct Hl as [p c c1 r Hrun Hr0 | p c c1 w k o c2 os l r Hrun Hl]; intros c' x Hx;
    rewrite Hrun in Hx; injection Hx as <- <-.
  - destruct r; try contradiction; auto.
  - exists o, c2, os, l. auto.
Qed.

Lemma lives_by_ext A (p q : @prog B A) c os l (r : status A) :
  run_sync p c = run_sync q c -> lives_by p c os l r -> lives_by q c os l r.
Proof.
  intros Heq Hl. revert q Heq.
  destruct Hl as [p c c' r Hrun Hr0 | p c c' w k o c2 os l r Hrun Hl]; intros q Heq.
  - apply lives_by_end; [|assumption]. rewrite <- Heq. exact Hrun.
  - eapply lives_by_on; [|eassumption]. rewrite <- Heq. exact Hrun.
Qed.

(** One step of a life with its outcomes: the run of the program in its
    configuration is computed, and the life goes on in the continuation
    with the outcome of the promise, resolved or rejected. *)
Ltac live_by Hl :=
  let o := fresh "o" in
  let c2 := fresh "c" in
  let os2 := fresh "os" in
  let l2 := fresh "l" in
  let Hl2 := fresh "Hl" in
  let Eo := fresh "Eo" in
  let El := fresh "El" in
  let Hend := fresh "Hend" in
  eapply lives_by_inv in Hl; [|cbn; reflexivity];
  cbv beta iota in Hl;
  first [ destruct Hl as (o & c2 & os2 & l2 & Eo & El & Hl2); destruct o;
          rename Hl2 into Hl
        | destruct Hl as (Eo & El & Hend) ].

Ltac count_calls :=
  subst; rewrite ?calls_app; unfold effects_since; cbn;
  rewrite <- ?app_assoc, ?skipn_app, ?skipn_all, ?Nat.sub_diag; cbn;
  split; reflexivity.

(** X5.  What a message on a socket with a channel and a session calls
    upstream, when the promises of the calls have the outcomes [os] in
    order: the browser adapter, when it is on, streams the decoded audio
    of a message that carries some; then the Vonage adapter, when it is
    on, streams the bytes of the message whatever they are; then a
    control message calls its session operation, and [stopAudio] calls
    [endAudioContent] and then [endPrompt] exactly when the promise of
    [endAudioContent] is resolved.  Every call is awaited, nothing else is
    called, and the outcome of a call of an adapter stops none of the
    later calls. *)
Theorem handleMessage_upstream_calls ws msg channelId sess c os l (r : status unit) :
  map_get ws (clientChannels (st c)) = Some channelId ->
  String.eqb channelId "" = false ->
  map_get channelId (channelStreams (st c)) = Some sess ->
  lives_by (handleMessage browser_isOn vonage_isOn ws msg) c os l r ->
  let audio := browser_audio browser_isOn msg ++ vonage_audio vonage_isOn msg in
  calls l
  = map (sessionCall sess)
      (audio ++ awaited_calls (control_ops msg) (skipn (List.length audio) os))
  /\ List.length os = List.length (calls l).
Proof.
  intros Hch Hne Hsess Hl.
  set (p := try_catch
              (bind (browser_tryProcessAudioInput browser_isOn msg sess)
                 (fun _ => bind (vonage_tryProcessAudioInput vonage_isOn msg sess)
                             (fun _ => tryProcessNovaSonicMessage msg sess)))
              (fun error => sendError ws "Error processing message" (String_of error))).
  assert (Hrun : run_sync (handleMessage browser_isOn vonage_isOn ws msg) c
                 = run_sync p c).
  { unfold handleMessage. rewrite run_sync_bind, run_sync_get. cbv beta iota.
    rewrite Hch, Hne. rewrite run_sync_bind, run_sync_get. cbv beta iota.
    rewrite Hsess. reflexivity. }
  apply (lives_by_ext _ Hrun) in Hl. clear Hrun Hch Hne Hsess. subst p.
  unfold browser_tryProcessAudioInput, vonage_tryProcessAudioInput,
    tryProcessNovaSonicMessage, novaSonicHandlers in Hl.
  cbv zeta. unfold browser_audio, vonage_audio, control_ops.
  destruct browser_isOn, vonage_isOn; cbn [negb] in Hl;
    (destruct (parsed msg) as [j|];
     [ destruct (audioInputContent j) as [audio|];
       (destruct (msgType j) as [type_|];
        [ destruct (String.eqb type_ "promptStart");
          [|destruct (String.eqb type_ "systemPrompt");
            [|destruct (String.eqb type_ "audioStart");
              [|destruct (String.eqb type_ "stopAudio")]]] |])
     | ]);
    repeat live_by Hl; count_calls.
Qed.
End MessageCalls.

(** ** The proactive injection and the registry: more *)

Section InjectionFacts.
Import Tools.
Variable fetch_json : string -> completion string.

Lemma audio_payloads_app l1 l2 :
  audio_payloads (l1 ++ l2) = audio_payloads l1 ++ audio_payloads l2.
Proof.
  induction l1 as [|e l1 IH]; cbn; [reflexivity|]. destruct e; cbn; now rewrite ?IH.
Qed.

Lemma audio_payloads_repeat pn cn a n :
  audio_payloads (repeat (audioInput pn cn a) n) = repeat a n.
Proof. induction n as [|n IH]; cbn; [reflexivity | now rewrite IH]. Qed.

Lemma audio_payloads_chunks pn cn (f : nat -> list byte) times ks :
  audio_payloads (flat_map (fun k => repeat (audioInput pn cn (f k)) times) ks)
  = flat_map (fun k => repeat (f k) times) ks.
Proof.
  induction ks as [|k ks IH]; cbn; [reflexivity|].
  now rewrite audio_payloads_app, audio_payloads_repeat, IH.
Qed.

Lemma length_flat_map_repeat (X : Type) (f : nat -> X) times ks :
  List.length (flat_map (fun k => repeat (f k) times) ks) = (List.length ks * times)%nat.
Proof.
  induction ks as [|k ks IH]; cbn; [reflexivity|].
  rewrite length_app, repeat_length, IH. lia.
Qed.

(** The chunks of the loop, put end to end, are the audio without its
    last byte when their number is odd. *)
Lemma chunk_payloads_concat audio fuel :
  forall i,
    (offsets_from (List.length audio) i <= fuel)%nat ->
    List.concat (map (fun k => chunk_payload audio (i + 1024 * k))
                     (seq 0 (offsets_from (List.length audio) i)))
    = firstn (2 * ((List.length audio - i) / 2)) (skipn i audio).
Proof.
  induction fuel as [|fuel IH]; intros i Hf.
  - assert (Ho : offsets_from (List.length audio) i = 0%nat) by lia.
    rewrite Ho. cbn [seq map List.concat].
    destruct (Nat.le_gt_cases (List.length audio) i) as [Hle|Hgt].
    + replace (List.length audio - i)%nat with 0%nat by lia. reflexivity.
    + rewrite (offsets_from_step Hgt) in Ho. discriminate.
  - destruct (Nat.le_gt_cases (List.length audio) i) as [Hle|Hgt].
    + rewrite (@offsets_from_done (List.length audio) i) by lia.
      replace (List.length audio - i)%nat with 0%nat by lia. reflexivity.
    + rewrite (offsets_from_step Hgt) in *.
      cbn [seq map List.concat]. rewrite Nat.mul_0_r, Nat.add_0_r.
      rewrite <- seq_shift, map_map.
      rewrite (map_ext _ (fun k => chunk_payload audio (i + 1024 + 1024 * k)))
        by (intros k; f_equal; lia).
      rewrite IH by lia. rewrite chunk_payload_spec. cbv zeta. unfold slice.
      destruct (Nat.le_gt_cases (i + 1024) (List.length audio)) as [Hfull|Hlast].
      * rewrite Nat.min_l by lia.
        replace (i + 1024 - i)%nat with 1024%nat by lia.
        rewrite length_firstn, length_skipn, Nat.min_l by lia.
        change (2 * (1024 / 2))%nat with 1024%nat.
        rewrite (firstn_all2 (n := 1024) (firstn 1024 (skipn i audio)))
          by (rewrite length_firstn, length_skipn; lia).
        replace (skipn (i + 1024) audio) with (skipn 1024 (skipn i audio))
          by (rewrite skipn_skipn; f_equal; lia).
        rewrite <- firstn_plus. f_equal.
        replace (List.length audio - i)%nat
          with (512 * 2 + (List.length audio - (i + 1024)))%nat by lia.
        rewrite Nat.div_add_l by lia. lia.
      * rewrite Nat.min_r by lia.
        replace (List.length audio - (i + 1024))%nat with 0%nat by lia.
        change (2 * (0 / 2))%nat with 0%nat. cbn [firstn]. rewrite app_nil_r.
        rewrite (firstn_all2 (n := List.length audio - i) (skipn i audio))
          by (rewrite length_skipn; lia).
        rewrite length_skipn. reflexivity.
Qed.

(** X6.  How the injection streams the audio it got: with [n] the number
    of 1024-byte chunks, each chunk goes out [n] times in a row, so that
    [n * n] audioInput events are written; the chunks themselves, put end
    to end, are the audio, less its last byte when their number is odd. *)
Theorem triggerSonic_sends_each_chunk_n_times contentNames toolUse audioBytes :
  let r := triggerSonic contentNames toolUse (Some audioBytes) in
  let n := offsets_from (List.length audioBytes) 0 in
  audio_payloads (sent r)
  = flat_map (fun k => repeat (chunk_payload audioBytes (1024 * k)) n) (seq 0 n)
  /\ List.length (audio_payloads (sent r)) = (n * n)%nat
  /\ List.concat (map (fun k => chunk_payload audioBytes (1024 * k)) (seq 0 n))
     = firstn (2 * (List.length audioBytes / 2)) audioBytes.
Proof.
  intros r n. subst r. unfold triggerSonic. cbn [sent audio_payloads].
  rewrite stream_chunks_spec
    by (pose proof (offsets_from_le (List.length audioBytes) 0); lia).
  fold n. rewrite audio_payloads_chunks. cbn [Nat.add].
  split; [reflexivity|]. split.
  - rewrite length_flat_map_repeat, length_seq. reflexivity.
  - pose proof (@chunk_payloads_concat audioBytes n 0 (Nat.le_refl _)) as Hc.
    cbn [Nat.add skipn] in Hc. rewrite Nat.sub_0_r in Hc. exact Hc.
Qed.

(** X7.  The injection closes the audio content it opens only when the
    synthesis returned audio: without audio it writes the contentStart
    event and nothing else, now or later; with audio, even empty, the
    contentEnd event follows from a timer. *)
Theorem triggerSonic_closes_only_with_audio contentNames toolUse audioData :
  let r := triggerSonic contentNames toolUse audioData in
  exists contentName,
    hd_error (sent r) = Some (contentStart (promptName toolUse) contentName)
    /\ (audioData = None -> sent r = [contentStart (promptName toolUse) contentName]
                            /\ deferred r = [])
    /\ (audioData = Some [] -> sent r = [contentStart (promptName toolUse) contentName])
    /\ (audioData <> None ->
        deferred r = [After 1000 [SendWs (contentEnd (promptName toolUse) contentName)]]).
Proof.
  intros r. exists (map_get hardcodedSessionId contentNames). subst r.
  unfold triggerSonic. destruct audioData as [audio|]; cbn.
  - repeat split; try discriminate. intros Ha. injection Ha as ->. reflexivity.
  - repeat split; try reflexivity. intros Hn. now elim Hn.
Qed.

Lemma find_snoc (X : Type) (f : X -> bool) l x :
  find f (l ++ [x]) = match find f l with
                      | Some y => Some y
                      | None => if f x then Some x else None
                      end.
Proof.
  induction l as [|y l IH]; cbn; [reflexivity|]. destruct (f y); [reflexivity | exact IH].
Qed.

Lemma registerXMLTools_lookup classes (acc : jsmap string (tool_function)) toolName :
  map_get toolName
    (fold_left
       (fun tools ToolClass =>
          map_set (tool_id ToolClass)
            (ToolClass_execute fetch_json (tool_function_name ToolClass)) tools)
       classes acc)
  = match find (fun ToolClass => String.eqb toolName (tool_id ToolClass)) (rev classes) with
    | Some ToolClass =>
        Some (ToolClass_execute fetch_json (tool_function_name ToolClass))
    | None => map_get toolName acc
    end.
Proof.
  revert acc. induction classes as [|cl classes IH]; intros acc; [reflexivity|].
  cbn [fold_left rev]. rewrite IH, find_snoc.
  destruct (find _ (rev classes)); [reflexivity|].
  destruct (String.eqb_spec toolName (tool_id cl)) as [-> | Hne].
  - now rewrite map_get_set_eq.
  - now rewrite map_get_set_neq.
Qed.

(** X8.  The registry built from any list of tool classes dispatches a
    tool name to the class registered last under that id, with the
    messages list of the registry; a name that no class has as its id
    throws "Tool <name> not supported". *)
Theorem registry_dispatches_to_last_registered classes messagesList toolName toolUse :
  execute (registerXMLTools fetch_json classes) messagesList toolName toolUse
  = match find (fun ToolClass => String.eqb toolName (tool_id ToolClass)) (rev classes) with
    | Some ToolClass =>
        ToolClass_execute fetch_json (tool_function_name ToolClass) toolUse messagesList
    | None => done (Thrown (JsError ("Tool " ++ toolName ++ " not supported")))
    end.
Proof.
  unfold execute, registerXMLTools. rewrite registerXMLTools_lookup.
  destruct (find _ (rev classes)); reflexivity.
Qed.

(** X9.  The tools of the XML text and the table of functions agree: a
    name is dispatched by the registry exactly when the table has a
    function of that name, and the dispatch is then the call of that
    function on the tool use and the messages list.  So no registered
    tool falls back to the empty result. *)
Theorem registered_tools_are_the_functions messagesList toolName toolUse :
  let tools := registerXMLTools fetch_json registeredTools in
  match functions fetch_json toolName with
  | Some func =>
      execute tools messagesList toolName toolUse = func toolUse messagesList
  | None => map_get toolName tools = None
  end.
Proof.
  cbv zeta. unfold execute, registerXMLTools. rewrite registerXMLTools_lookup.
  unfold functions, registeredTools. cbn [rev app find tool_id tool_function_name].
  destruct (String.eqb_spec toolName "check_messages") as [-> | H1]; [reflexivity|].
  destruct (String.eqb_spec toolName "check_connection") as [-> | H2]; [reflexivity|].
  destruct (String.eqb_spec toolName "check_for_outage") as [-> | H3]; [reflexivity|].
  destruct (String.eqb_spec toolName "get_weather") as [-> | H4]; reflexivity.
Qed.
End InjectionFacts.

(** ** A client that joins while the channel is torn down *)

Section LateJoiner.
Context {B : Type} `{NovaSonicClient B}.
Variables browser_isOn vonage_isOn : bool.
Implicit Types (c : @config B) (s : @state B).
#[local] Arguments String.append : simpl never.
#[local] Arguments graceful_continuation : simpl never.
#[local] Arguments close_continuation : simpl never.

Abbreviation step' := (step browser_isOn vonage_isOn).
Abbreviation run' := (run browser_isOn vonage_isOn).

Lemma pending_join k s t0 tnow ws ch sess ws2 channel uuid clients t :
  (1 <= k <= 3)%nat -> tnow <= t -> t <= t0 + 3000 ->
  resolve_channel channel uuid = ch ->
  map_has ch (channelStreams s) = true ->
  map_get ch (channelClients s) = Some clients ->
  exists s',
    step' (teardown_pending k s t0 tnow ws ch sess)
          {| at_ms := t; what := Connection ws2 channel uuid |}
    = teardown_joined k s' t0 t ws ch sess
    /\ channelStreams s' = channelStreams s
    /\ channelClients s' = map_set ch (set_add ws2 clients) (channelClients s)
    /\ clientChannels s' = map_set ws2 ch (clientChannels s)
    /\ exists l, trace s' = trace s ++ l
         /\ sends l = [(ws2, MSessionReady ("Connected to channel " ++ ch) false)]
         /\ calls l = [].
Proof.
  intros Hk H1 H2 Hr Hs Hc. rewrite step_enabled.
  2:{ rewrite pending_enabled. apply andb_true_intro. split; [|reflexivity].
      apply andb_true_intro. split; now apply Z.leb_le. }
  assert (Hk' : k = 1%nat \/ k = 2%nat \/ k = 3%nat) by lia.
  destruct Hk' as [-> | [-> | ->]]; cbv zeta; cbn -[drain start];
    unfold start, onSocket, initializeOrJoinChannel, attachClient;
    rewrite Hr; cbn -[drain]; rewrite Hs; cbn -[drain]; rewrite Hc; cbn;
    eexists; (split; [reflexivity|]); cbn; repeat split;
    rewrite <- !app_assoc; eexists; (split; [reflexivity|]); repeat split.
Qed.

Lemma joined_timeout k s t0 tnow ws ch sess :
  (1 <= k <= 3)%nat -> tnow <= t0 + 3000 ->
  step' (teardown_joined k s t0 tnow ws ch sess)
        {| at_ms := t0 + 3000; what := TimerDue 0%nat |}
  = force_closed ws ch (JsError "Session cleanup timeout")
      {| st := s; pool := [graceful_task k (awaited_promise k) sess]; timers := [];
         settled := settled (teardown_joined k s t0 tnow ws ch sess)
                    ++ [(2%nat, Rejected (JsError "Session cleanup timeout"))];
         pendingExternal := [awaited_promise k];
         nextPromise := nextPromise (teardown_joined k s t0 tnow ws ch sess);
         nextTimer := 1%nat; now := t0 + 3000; exited := None |}.
Proof.
  intros Hk H1. rewrite step_enabled.
  2:{ unfold enabled, find_timer. cbn. unfold cleanupTimeoutMs.
      rewrite Z.eqb_refl, Z.leb_refl, !andb_true_r. now apply Z.leb_le. }
  assert (Hk' : k = 1%nat \/ k = 2%nat \/ k = 3%nat) by lia.
  destruct Hk' as [-> | [-> | ->]]; cbv zeta; cbn -[drain start];
    unfold fire, start; cbn -[drain start];
    (erewrite drain_resume; [ | reflexivity | cbn; reflexivity ]);
    cbn -[drain start]; unfold start;
    rewrite close_rejected; cbn -[drain force_closed];
    rewrite drain_quiescent by (cbn; reflexivity); reflexivity.
Qed.

Lemma message_without_session ws msg channelId c :
  map_get ws (clientChannels (st c)) = Some channelId ->
  String.eqb channelId "" = false ->
  map_get channelId (channelStreams (st c)) = None ->
  run_sync (handleMessage browser_isOn vonage_isOn ws msg) c
  = (with_st (emit (ESend ws (MError "Session not found"
                                "No active session for this channel"))) c,
     Finished tt).
Proof.
  intros Hc Hne Hs. unfold handleMessage. run_steps. rewrite Hc. cbv beta iota.
  rewrite Hne. run_steps. rewrite Hs. cbv beta iota.
  unfold sendError. run_steps. reflexivity.
Qed.

(** X10.  A client that connects to a channel while the channel is torn
    down (its last client left, the graceful sequence still under way) is
    attached to the old session and told that the session is ready.  When
    the timer of the teardown then fires, the channel is removed with
    this client on it: nothing is written to the client and its socket is
    not closed, it stays in [clientChannels], and its next message is
    answered by the error "Session not found". *)
Theorem late_joiner_is_orphaned s t0 ws ch sess evs k ws2 channel uuid t1 t2 msg :
  map_get ws (clientChannels s) = Some ch ->
  String.eqb ch "" = false ->
  map_get ch (channelClients s) = Some [ws] ->
  map_get ch (channelStreams s) = Some sess ->
  isSessionActive (bedrockClient s) ch = true ->
  Forall env_only evs ->
  tv_phase (teardown_spec t0 evs) = Graceful k ->
  ws2 <> ws ->
  resolve_channel channel uuid = ch ->
  tv_now (teardown_spec t0 evs) <= t1 <= t0 + 3000 ->
  t0 + 3000 <= t2 ->
  let c0 := run' ({| at_ms := t0; what := SocketClosed ws |} :: evs) (idle s t0) in
  let c1 := step' c0 {| at_ms := t1; what := Connection ws2 channel uuid |} in
  let c2 := step' c1 {| at_ms := t0 + 3000; what := TimerDue 0%nat |} in
  let c3 := step' c2 {| at_ms := t2; what := Message ws2 msg |} in
  sends (effects_since c0 c1)
  = [(ws2, MSessionReady ("Connected to channel " ++ ch) false)]
  /\ calls (effects_since c0 c1) = []
  /\ map_get ws2 (clientChannels (st c1)) = Some ch
  /\ map_get ch (channelStreams (st c2)) = None
  /\ map_get ch (channelClients (st c2)) = None
  /\ map_get ws2 (clientChannels (st c2)) = Some ch
  /\ sends (effects_since c1 c2) = []
  /\ closes (effects_since c1 c2) = []
  /\ sends (effects_since c2 c3)
     = [(ws2, MError "Session not found" "No active session for this channel")]
  /\ calls (effects_since c2 c3) = [].
Proof.
  intros Hc Hne Hcl Hs Ha Hevs Hph Hws Hr Ht1 Ht2 c0 c1 c2 c3.
  destruct (@close_last_client B H browser_isOn vonage_isOn s t0 ws ch sess
              Hc Hne Hcl Hs Ha) as (s1 & Hc1 & Hps & _).
  assert (Hrel : teardown_rel s t0 ws ch sess
                   {| tv_now := t0; tv_armed := true; tv_phase := Graceful 1 |}
                   (step' (idle s t0) {| at_ms := t0; what := SocketClosed ws |})).
  { rewrite Hc1. unfold teardown_rel. cbn [tv_now tv_armed tv_phase].
    split; [reflexivity|]. repeat split; try lia. now exists s1. }
  pose proof (@teardown_run B H browser_isOn vonage_isOn s t0 ws ch sess evs _ _
                Hrel Hevs) as [Hnow Hfin].
  change (fold_left (teardown_react t0) evs _) with (teardown_spec t0 evs) in *.
  rewrite Hph in Hfin. destruct Hfin as (Hk & _ & _ & sk & Hck & Hsk & Hck' & _).
  rewrite <- run_cons in Hck. fold c0 in Hck.
  apply map_has_get in Hck'. destruct Hck' as [clients Hclients].
  destruct (@pending_join k sk t0 (tv_now (teardown_spec t0 evs)) ws ch sess ws2
              channel uuid clients t1 Hk (proj1 Ht1) (proj2 Ht1) Hr Hsk Hclients)
    as (sj & Hj & Hjs & Hjc & Hjw & lj & Hjt & Hjsend & Hjcall).
  rewrite <- Hck in Hj. fold c1 in Hj.
  assert (Hto : c2 = _)
    by (unfold c2; rewrite Hj; exact (@joined_timeout k sj t0 t1 ws ch sess Hk (proj2 Ht1))).
  assert (Hw2 : map_get ws2 (clientChannels (st c2)) = Some ch).
  { rewrite Hto. unfold force_closed. cbn.
    rewrite map_get_delete_neq by exact Hws. rewrite Hjw. apply map_get_set_eq. }
  assert (Hs2 : map_get ch (channelStreams (st c2)) = None).
  { rewrite Hto. unfold force_closed. cbn. apply map_get_delete_eq. }
  assert (Hc3 : c3 = with_st (emit (ESend ws2 (MError "Session not found"
                                      "No active session for this channel")))
                       (with_now t2 c2)).
  { unfold c3. rewrite step_enabled.
    2:{ rewrite Hto. unfold enabled, force_closed. cbn. rewrite !andb_true_r.
        now apply Z.leb_le. }
    cbv zeta. cbn [what at_ms react]. unfold start.
    rewrite (@message_without_session ws2 msg ch (with_now t2 c2) Hw2 Hne Hs2).
    cbn [t_result]. rewrite drain_quiescent; [reflexivity|].
    rewrite Hto. unfold force_closed.
    assert (Hk' : k = 1%nat \/ k = 2%nat \/ k = 3%nat) by lia.
    destruct Hk' as [-> | [-> | ->]]; reflexivity. }
  repeat split.
  - rewrite (@effects_since_trace B c0 c1 lj); [exact Hjsend|].
    rewrite Hj, Hck. exact Hjt.
  - rewrite (@effects_since_trace B c0 c1 lj); [exact Hjcall|].
    rewrite Hj, Hck. exact Hjt.
  - rewrite Hj. cbn. rewrite Hjw. apply map_get_set_eq.
  - exact Hs2.
  - rewrite Hto. unfold force_closed. cbn. apply map_get_delete_eq.
  - exact Hw2.
  - rewrite Hto, Hj. unfold force_closed, effects_since. cbn.
    rewrite <- ?app_assoc, skipn_app, skipn_all, Nat.sub_diag. cbn.
    destruct (closeSession_throws _ ch); reflexivity.
  - rewrite Hto, Hj. unfold force_closed, effects_since. cbn.
    rewrite <- ?app_assoc, skipn_app, skipn_all, Nat.sub_diag. cbn.
    destruct (closeSession_throws _ ch); reflexivity.
  - rewrite Hc3. unfold effects_since. cbn.
    rewrite skipn_app, skipn_all, Nat.sub_diag. reflexivity.
  - rewrite Hc3. unfold effects_since. cbn.
    rewrite skipn_app, skipn_all, Nat.sub_diag. reflexivity.
Qed.
End LateJoiner.

(** ** A message before the session is ready *)

Section EarlyMessage.
Context {B : Type} `{NovaSonicClient B}.
Variables browser_isOn vonage_isOn : bool.
Implicit Types (c : @config B) (s : @state B).
#[local] Arguments String.append : simpl never.

Abbreviation step' := (step browser_isOn vonage_isOn).

Lemma message_without_channel ws msg c :
  map_get ws (clientChannels (st c)) = None ->
  run_sync (handleMessage browser_isOn vonage_isOn ws msg) c
  = (with_st (emit (ESend ws (MError "Channel not found"
                                "No active channel for this connection"))) c,
     Finished tt).
Proof.
  intros Hc. unfold handleMessage. run_steps. rewrite Hc. cbv beta iota.
  unfold sendError. run_steps. reflexivity.
Qed.

(** X14.  The client that opens a new channel is registered only when the
    handshake is over: a message it sends right after connecting, while
    the first step of the handshake is pending, is answered by the error
    "Channel not found" and is dropped: nothing is called upstream for
    it, and the handshake goes on as it was. *)
Theorem message_during_handshake_is_refused s t0 ws1 channel uuid msg t :
  map_has (resolve_channel channel uuid) (channelStreams s) = false ->
  map_get ws1 (clientChannels s) = None ->
  t0 <= t ->
  let c1 := step' (idle s t0) {| at_ms := t0; what := Connection ws1 channel uuid |} in
  let c2 := step' c1 {| at_ms := t; what := Message ws1 msg |} in
  pool c1 = [join_task 0 2%nat (nextSession s) ws1 (resolve_channel channel uuid)]
  /\ sends (effects_since (idle s t0) c1) = []
  /\ sends (effects_since c1 c2)
     = [(ws1, MError "Channel not found" "No active channel for this connection")]
  /\ calls (effects_since c1 c2) = []
  /\ pool c2 = pool c1.
Proof.
  intros Hh Hc Ht c1 c2.
  set (ch := resolve_channel channel uuid) in *.
  assert (Hc1 : exists s1,
             c1 = {| st := s1; pool := [join_task 0 2%nat (nextSession s) ws1 ch];
                     timers := []; settled := []; pendingExternal := [1%nat; 2%nat];
                     nextPromise := 3%nat; nextTimer := 0%nat; now := t0;
                     exited := None |}
             /\ clientChannels s1 = clientChannels s
             /\ exists l, trace s1 = trace s ++ l /\ sends l = []).
  { unfold c1. rewrite step_enabled.
    2:{ unfold enabled. cbn. now rewrite Z.leb_refl. }
    cbn -[drain]. unfold start, onSocket. fold ch.
    cbn -[drain]. rewrite Hh. cbn.
    eexists. split; [reflexivity|]. cbn. split; [reflexivity|].
    eexists. rewrite <- !app_assoc. split; reflexivity. }
  destruct Hc1 as (s1 & Hc1 & Hcc & l & Htr & Hsends).
  assert (Hnone : map_get ws1 (clientChannels (st (with_now t c1))) = None)
    by (rewrite Hc1; cbn; now rewrite Hcc).
  assert (Hc2 : c2 = with_st (emit (ESend ws1 (MError "Channel not found"
                                      "No active channel for this connection")))
                       (with_now t c1)).
  { unfold c2. rewrite step_enabled.
    2:{ rewrite Hc1. unfold enabled. cbn. rewrite !andb_true_r. now apply Z.leb_le. }
    cbv zeta. cbn [what at_ms react]. unfold start.
    rewrite (@message_without_channel ws1 msg (with_now t c1) Hnone).
    cbn [conclude]. apply drain_quiescent. rewrite Hc1. reflexivity. }
  split; [now rewrite Hc1|]. split.
  { rewrite (@effects_since_trace B (idle s t0) c1 l); [exact Hsends|].
    rewrite Hc1. exact Htr. }
  rewrite Hc2. unfold effects_since. cbn.
  rewrite skipn_app, skipn_all, Nat.sub_diag. repeat split.
Qed.
End EarlyMessage.

(** ** A shutdown that completes *)

Section ShutdownProgress.
Context {B : Type} `{NovaSonicClient B}.
Variables browser_isOn vonage_isOn : bool.
Implicit Types (c : @config B) (s : @state B).
#[local] Arguments String.append : simpl never.
#[local] Arguments shutdown_continuation : simpl never.

Abbreviation step' := (step browser_isOn vonage_isOn).
Abbreviation run' := (run browser_isOn vonage_isOn).

Hypothesis close_keeps_throws : forall t sid sid' (b : B),
  sid' <> sid ->
  closeSession_throws (after_call t (closeSession sid) b) sid'
  = closeSession_throws b sid'.

Lemma first_rejected_resolved ps (l : list (promise * outcome)) :
  Forall (fun po => snd po = Resolved) l -> first_rejected ps l = None.
Proof.
  induction 1 as [|[p o] l Ho Hl IH]; cbn; [reflexivity|].
  cbn in Ho. subst o. exact IH.
Qed.

Lemma map_has_settle_old p q o c :
  map_has p (settled c) = true -> map_has p (settled (settle q o c)) = true.
Proof.
  intros Hp. cbn. destruct (map_has q (settled c)); [exact Hp|].
  apply map_has_get in Hp. destruct Hp as [v Hv]. apply map_has_get. exists v.
  destruct (Nat.eq_dec p q) as [-> | Hne].
  - clear - Hv. induction (settled c) as [|[k x] l IH]; cbn in *; [discriminate|].
    destruct (Nat.eqb q k); [exact Hv | auto].
  - now rewrite map_get_snoc_other.
Qed.

Lemma map_has_settle_new q o c : map_has q (settled (settle q o c)) = true.
Proof.
  cbn. destruct (map_has q (settled c)) eqn:Hq; [exact Hq|].
  apply map_has_false in Hq. apply map_has_get. exists o.
  now apply map_get_snoc_fresh.
Qed.

Lemma map_has_settle_inv p q o c :
  map_has p (settled (settle q o c)) = true ->
  p = q \/ map_has p (settled c) = true.
Proof.
  cbn. destruct (map_has q (settled c)); [now right|].
  destruct (Nat.eq_dec p q) as [-> | Hne]; [now left|].
  unfold map_has. rewrite map_get_snoc_other by exact Hne. now right.
Qed.

Lemma waiting_quiescent s0 t0 ps rest done c :
  shutdown_waiting s0 t0 ps rest done c ->
  find_ready (settled c) (pool c) = None.
Proof.
  intros ((_ & _ & Hres & _) & Hpool & _ & Hnot). rewrite Hpool.
  cbn [find_ready shutdown_task t_wait ready].
  rewrite (first_rejected_resolved ps Hres), Hnot. reflexivity.
Qed.

(** One resolution while the handler waits. *)
Lemma waiting_step s0 t0 ps rest done c q t :
  shutdown_waiting s0 t0 ps rest done c ->
  now c <= t -> t <= t0 + 5000 ->
  exists c1,
    shutdown_base s0 t0 done c1
    /\ now c1 = t /\ nextPromise c1 = nextPromise c
    /\ (forall p, map_has p (settled c) = true -> map_has p (settled c1) = true)
    /\ (forall p, map_has p (settled c1) = true ->
                  p = q \/ map_has p (settled c) = true)
    /\ (In q ps -> map_has q (settled c1) = true)
    /\ if forallb (fun p => map_has p (settled c1)) ps then
         step' c {| at_ms := t; what := Settled q Resolved |}
         = drain 5 (start None (shutdown_continuation rest Resolved)
                      (with_pool (fun _ => []) c1))
       else
         step' c {| at_ms := t; what := Settled q Resolved |} = c1
         /\ shutdown_waiting s0 t0 ps rest done c1.
Proof.
  intros Hw Hle1 Hle2.
  pose proof Hw as ((He & Htm & Hres & Hfresh & Hpfresh & l & Htr & Hcalls)
                    & Hpool & Hpend & Hnot).
  rewrite step_enabled.
  2:{ unfold enabled. rewrite He, Htm. cbn. unfold forceExitMs.
      rewrite !andb_true_r. apply andb_true_intro. split; now apply Z.leb_le. }
  cbv zeta. cbn [what at_ms react].
  destruct (set_has q (pendingExternal (with_now t c))) eqn:Hq.
  - (* the promise was pending *)
    cbn [pendingExternal with_now] in Hq. apply set_has_In in Hq.
    set (c1 := settle q Resolved (with_now t c)).
    assert (Hbase : shutdown_base s0 t0 done c1).
    { unfold shutdown_base.
      split; [exact He|]. split; [exact Htm|]. split; [|split; [|split]].
      - cbn. destruct (map_has q (settled c)); [exact Hres|].
        apply Forall_app. split; [exact Hres|]. now constructor.
      - intros p Hp. apply map_has_settle_inv in Hp.
        destruct Hp as [-> | Hp]; [now apply Hpfresh | now apply Hfresh].
      - intros p Hp. apply (set_delete_In q p (pendingExternal c)) in Hp.
        apply Hpfresh, Hp.
      - exists l. split; assumption. }
    exists c1. split; [exact Hbase|]. split; [reflexivity|]. split; [reflexivity|].
    split; [intros p Hp; now apply map_has_settle_old|].
    split; [intros p Hp; now apply map_has_settle_inv in Hp|].
    split; [intros _; apply map_has_settle_new|].
    destruct (forallb (fun p => map_has p (settled c1)) ps) eqn:Hall.
    + assert (Hb : microtask_budget c1 = 6%nat)
        by (unfold microtask_budget, c1; cbn [pool settle with_now];
            rewrite Hpool; reflexivity).
      rewrite Hb.
      refine (@drain_resume B 5 c1 (shutdown_task ps rest) Resolved [] _ _);
        [exact He|].
      unfold c1. cbn [pool settle with_now]. rewrite Hpool. fold c1.
      cbn [find_ready shutdown_task t_wait ready].
      destruct Hbase as (_ & _ & Hres1 & _).
      rewrite (first_rejected_resolved ps Hres1), Hall. reflexivity.
    + assert (Hw1 : shutdown_waiting s0 t0 ps rest done c1).
      { split; [exact Hbase|]. split; [exact Hpool|]. split; [|exact Hall].
        intros p Hp Hun. unfold c1 in Hun.
        apply (set_delete_In q p (pendingExternal c)). split.
        - intros Heq. rewrite Heq, map_has_settle_new in Hun. discriminate.
        - apply Hpend; [exact Hp|].
          destruct (map_has p (settled c)) eqn:Hpc; [|reflexivity].
          rewrite (@map_has_settle_old p q Resolved (with_now t c) Hpc) in Hun.
          discriminate. }
      split; [|exact Hw1]. apply drain_quiescent.
      exact (waiting_quiescent Hw1).
  - (* not a pending promise: nothing changes *)
    set (c1 := with_now t c).
    assert (Hw1 : shutdown_waiting s0 t0 ps rest done c1).
    { split; [|split; [exact Hpool|split; [exact Hpend|exact Hnot]]].
      unfold shutdown_base. cbn. repeat split; try assumption. eauto. }
    exists c1. split; [apply Hw1|]. split; [reflexivity|]. split; [reflexivity|].
    split; [auto|]. split; [auto|]. split.
    + intros Hin. cbn. destruct (map_has q (settled c)) eqn:Hqs; [reflexivity|].
      apply Hpend in Hqs; [|exact Hin]. apply set_has_In in Hqs.
      change (set_has q (pendingExternal c) = false) in Hq. congruence.
    + change (settled c1) with (settled c). rewrite Hnot.
      split; [|exact Hw1]. apply drain_quiescent. exact (waiting_quiescent Hw1).
Qed.

Lemma called_base s0 t0 done cc c :
  shutdown_base s0 t0 done c ->
  shutdown_base s0 t0 (done ++ [cc]) (called cc c)
  /\ settled (called cc c) = settled c
  /\ nextPromise (called cc c) = S (nextPromise c)
  /\ In (nextPromise c) (pendingExternal (called cc c))
  /\ (forall p, In p (pendingExternal c) -> In p (pendingExternal (called cc c)))
  /\ pool (called cc c) = pool c /\ now (called cc c) = now c.
Proof.
  intros (He & Htm & Hres & Hfresh & Hpfresh & l & Htr & Hcalls).
  unfold called, shutdown_base. cbn. repeat split; try assumption.
  - intros p Hp. apply Hfresh in Hp. lia.
  - intros p Hp. apply in_app_iff in Hp. destruct Hp as [Hp | [<- | []]]; [|lia].
    apply Hpfresh in Hp. lia.
  - exists (l ++ [ECall cc]). rewrite Htr, <- app_assoc. split; [reflexivity|].
    rewrite calls_app, Hcalls. reflexivity.
  - apply in_app_iff. right. now left.
  - intros p Hp. apply in_app_iff. now left.
Qed.

Lemma base_with_pool s0 t0 done f c :
  shutdown_base s0 t0 done c -> shutdown_base s0 t0 done (with_pool f c).
Proof. intros Hb. exact Hb. Qed.

(** The sessions are closed: the handler closes the two servers. *)
Lemma resume_servers s0 t0 done c1 :
  shutdown_base s0 t0 done c1 ->
  let c2 := drain 5 (start None (shutdown_continuation (closeServers 0%nat) Resolved)
                       (with_pool (fun _ => []) c1)) in
  shutdown_waiting s0 t0 [nextPromise c1; S (nextPromise c1)] (finishShutdown 0%nat)
    (done ++ [serverClose false; serverClose true]) c2
  /\ settled c2 = settled c1 /\ now c2 = now c1.
Proof.
  intros Hb c2. subst c2. unfold start. rewrite shutdown_resolved_1.
  cbn [conclude].
  apply (base_with_pool (fun _ => [])) in Hb.
  destruct (called_base (serverClose false) Hb)
    as (Hb1 & Hs1 & Hn1 & Hin1 & Hmono1 & Hp1 & Hnow1).
  destruct (called_base (serverClose true) Hb1)
    as (Hb2 & Hs2 & Hn2 & Hin2 & Hmono2 & Hp2 & Hnow2).
  rewrite <- app_assoc in Hb2. cbn [app] in Hb2.
  set (c' := with_pool _ _).
  assert (Hw : shutdown_waiting s0 t0 [nextPromise c1; S (nextPromise c1)]
                 (finishShutdown 0%nat)
                 (done ++ [serverClose false; serverClose true]) c').
  { split; [exact Hb2|]. split; [reflexivity|]. split.
    - intros p [<- | [<- | []]] _.
      + apply Hmono2. exact Hin1.
      + cbn [nextPromise with_pool] in Hn1. rewrite <- Hn1. exact Hin2.
    - cbn [forallb]. subst c'. cbn [settled with_pool]. rewrite Hs2, Hs1.
      cbn [settled with_pool].
      destruct (map_has (nextPromise c1) (settled c1)) eqn:Hx; [|reflexivity].
      destruct Hb as (_ & _ & _ & Hfresh & _). apply Hfresh in Hx.
      cbn in Hx. lia. }
  rewrite drain_quiescent by exact (waiting_quiescent Hw).
  split; [exact Hw|]. split.
  - subst c'. cbn [settled with_pool]. now rewrite Hs2, Hs1.
  - subst c'. cbn [now with_pool]. now rewrite Hnow2, Hnow1.
Qed.

(** The servers are closed: the timer is cleared and the process exits. *)
Lemma resume_exit s0 t0 done c1 :
  shutdown_base s0 t0 done c1 ->
  let c3 := drain 5 (start None (shutdown_continuation (finishShutdown 0%nat) Resolved)
                       (with_pool (fun _ => []) c1)) in
  exited c3 = Some 0 /\ timers c3 = []
  /\ (exists l, trace (st c3) = trace s0 ++ l /\ calls l = done)
  /\ settled c3 = settled c1.
Proof.
  intros (He & Htm & Hres & Hfresh & Hpfresh & l & Htr & Hcalls) c3. subst c3.
  unfold start. rewrite shutdown_resolved_2. cbn [conclude].
  erewrite drain_exited by reflexivity.
  cbn. rewrite Htm. cbn. repeat split.
  exists (l ++ [EConsole "log" "Servers shut down"]).
  rewrite Htr, <- app_assoc. split; [reflexivity|].
  rewrite calls_app, Hcalls. cbn. now rewrite app_nil_r.
Qed.

Lemma run_exited evs c code : exited c = Some code -> run' evs c = c.
Proof.
  intros He. induction evs as [|ev evs IH]; [reflexivity|].
  rewrite run_cons, (step_exited browser_isOn vonage_isOn c ev He). exact IH.
Qed.

Lemma phase_exited s0 t0 K k c :
  shutdown_phase s0 t0 K k c -> (exited c = None <-> (k < 2)%nat).
Proof.
  destruct k as [|[|k]]; cbn.
  - intros (((He & _) & _) & _). split; [lia | auto].
  - intros (((He & _) & _) & _). split; [lia | auto].
  - intros (He & _). rewrite He. split; [discriminate | lia].
Qed.

(** One resolution, in any phase: the phase stays or advances. *)
Lemma phase_step s0 t0 K k c q t :
  shutdown_phase s0 t0 K k c ->
  now c <= t -> t <= t0 + 5000 ->
  let c' := step' c {| at_ms := t; what := Settled q Resolved |} in
  exists k',
    (k <= k')%nat
    /\ shutdown_phase s0 t0 K k' c'
    /\ ((k' < 2)%nat -> now c' = t)
    /\ (forall p, map_has p (settled c) = true -> map_has p (settled c') = true)
    /\ (forall p, map_has p (settled c') = true ->
                  p = q \/ map_has p (settled c) = true)
    /\ (k' = k -> In q (shutdown_awaited (List.length K) k) ->
        map_has q (settled c') = true).
Proof.
  intros Hph Hle1 Hle2 c'. subst c'. destruct k as [|[|k]].
  - (* waiting for the sessions *)
    destruct Hph as [Hw Hnp].
    destruct (waiting_step q Hw Hle1 Hle2)
      as (c1 & Hb1 & Hnow1 & Hnp1 & Hmono & Hinv & Hq & Hstep).
    destruct (forallb (fun p => map_has p (settled c1)) (seq 0 (List.length K)))
      eqn:Hall.
    + rewrite Hstep.
      destruct (resume_servers Hb1) as (Hw2 & Hs2 & Hnow2).
      rewrite Hnp1, Hnp in Hw2.
      exists 1%nat. split; [lia|]. split; [|split; [|split; [|split]]].
      * split; [exact Hw2|]. rewrite Hs2. exact Hall.
      * intros _. now rewrite Hnow2.
      * intros p Hp. rewrite Hs2. auto.
      * intros p Hp. rewrite Hs2 in Hp. auto.
      * discriminate.
    + destruct Hstep as [-> Hw1].
      exists 0%nat. split; [lia|]. split; [|split; [|split; [|split]]]; auto.
      split; [exact Hw1 | congruence].
  - (* waiting for the servers *)
    destruct Hph as [Hw Hold].
    destruct (waiting_step q Hw Hle1 Hle2)
      as (c1 & Hb1 & Hnow1 & Hnp1 & Hmono & Hinv & Hq & Hstep).
    destruct (forallb (fun p => map_has p (settled c1))
                [List.length K; S (List.length K)]) eqn:Hall.
    + rewrite Hstep.
      destruct (resume_exit Hb1) as (He3 & Htm3 & Htr3 & Hs3).
      exists 2%nat. split; [lia|]. split; [|split; [|split; [|split]]].
      * split; [exact He3|]. split; [exact Htm3|]. split; [|exact Htr3].
        rewrite Hs3. apply forallb_forall. intros p Hp. apply Hmono.
        rewrite forallb_forall in Hold. auto.
      * lia.
      * intros p Hp. rewrite Hs3. auto.
      * intros p Hp. rewrite Hs3 in Hp. auto.
      * discriminate.
    + destruct Hstep as [-> Hw1].
      exists 1%nat. split; [lia|]. split; [|split; [|split; [|split]]]; auto.
      split; [exact Hw1|].
      apply forallb_forall. intros p Hp. apply Hmono.
      rewrite forallb_forall in Hold. auto.
  - (* the process has exited *)
    pose proof Hph as (He & _).
    rewrite (step_exited browser_isOn vonage_isOn c _ He).
    exists (S (S k)). split; [lia|]. split; [exact Hph|].
    split; [lia|]. split; [auto|]. split; [auto|]. intros _ [].
Qed.

(** Resolutions in chronological order, within the bound. *)
Lemma phase_run s0 t0 K tps : forall more k c,
  shutdown_phase s0 t0 K k c ->
  ((k < 2)%nat -> chronological (now c) (@resolutions B (tps ++ more))) ->
  Forall (fun tp => fst tp <= t0 + 5000) tps ->
  let c' := run' (resolutions tps) c in
  exists k',
    (k <= k')%nat
    /\ shutdown_phase s0 t0 K k' c'
    /\ ((k' < 2)%nat -> chronological (now c') (@resolutions B more))
    /\ (forall p, map_has p (settled c) = true -> map_has p (settled c') = true)
    /\ (forall p, map_has p (settled c') = true ->
                  In p (map snd tps) \/ map_has p (settled c) = true)
    /\ (k' = k -> forall q, In q (map snd tps) ->
                            In q (shutdown_awaited (List.length K) k) ->
                            map_has q (settled c') = true).
Proof.
  induction tps as [|[t q] tps IH]; intros more k c Hph Hchr Hbound c'; subst c'.
  - exists k. cbn. split; [lia|]. split; [exact Hph|]. split; [exact Hchr|].
    split; [auto|]. split; [auto|]. intros _ q [].
  - apply Forall_cons_iff in Hbound. destruct Hbound as [Hb Hbound]. cbn [fst] in Hb.
    cbn [resolutions map app fst snd]. rewrite run_cons.
    fold (@resolutions B tps).
    destruct (Nat.lt_ge_cases k 2) as [Hk | Hk].
    2:{ (* exited: nothing happens any more *)
        assert (He : exited c = Some 0).
        { destruct k as [|[|k]]; try lia. apply Hph. }
        rewrite (step_exited browser_isOn vonage_isOn c _ He), (@run_exited _ c 0 He).
        exists k. split; [lia|]. split; [exact Hph|]. split; [lia|].
        split; [auto|]. split; [auto|].
        intros _ q' _ Hq'. destruct k as [|[|k]]; try lia. destruct Hq'. }
    specialize (Hchr Hk). cbn [resolutions map app chronological at_ms fst snd] in Hchr.
    destruct Hchr as [Hle Hchr].
    destruct (@phase_step s0 t0 K k c q t Hph Hle Hb)
      as (k1 & Hk1 & Hph1 & Hnow1 & Hmono1 & Hinv1 & Hq1).
    destruct (IH more k1 _ Hph1) as (k2 & Hk2 & Hph2 & Hchr2 & Hmono2 & Hinv2 & Hq2).
    { intros Hlt. rewrite (Hnow1 Hlt). exact Hchr. }
    { exact Hbound. }
    exists k2. split; [lia|]. split; [exact Hph2|]. split; [exact Hchr2|].
    split; [auto|]. split.
    + intros p Hp. apply Hinv2 in Hp. cbn [map snd].
      destruct Hp as [Hp | Hp]; [left; now right|].
      apply Hinv1 in Hp. destruct Hp as [-> | Hp]; [left; now left | now right].
    + intros Heq q' [<- | Hq'] Haw.
      * apply Hmono2. apply Hq1; [lia | exact Haw].
      * assert (k1 = k) by lia. subst k1. apply Hq2; auto.
Qed.

(** The turn of the SIGINT itself. *)
Lemma sigint_phase s t0 :
  let keys := map_keys (channelStreams s) in
  NoDup keys ->
  (forall ch, In ch keys -> closeSession_throws (bedrockClient s) ch = None) ->
  let c := step' (idle s t0) {| at_ms := t0; what := SIGINT |} in
  exists k,
    (k <= 1)%nat
    /\ shutdown_phase s t0 (map closeSession keys) k c
    /\ now c = t0 /\ settled c = [].
Proof.
  intros keys Hnd Hthrow c. subst c. rewrite step_enabled.
  2:{ unfold enabled. cbn. now rewrite Z.leb_refl. }
  cbv zeta. cbn [what at_ms react].
  change (with_now t0 (idle s t0)) with (idle s t0).
  unfold start, onSIGINT.
  rewrite run_sync_bind, run_sync_console. cbv beta iota.
  rewrite run_sync_bind, run_sync_SetTimer. cbv beta iota.
  rewrite run_sync_try_catch, run_sync_bind, run_sync_get. cbv beta iota.
  rewrite run_sync_bind.
  set (c0 := snd (add_timer forceExitMs false forceExit
                    (with_st (emit (EConsole "log" "Shutting down servers...")) (idle s t0)))).
  destruct (@closeAll_run B H close_keeps_throws (channelStreams (st c0)) [] c0)
    as (s' & Hrun & Hs & Hc & Hcc & l & Htr & Hcalls & Hcl & Hop);
    [exact Hnd | exact Hthrow |].
  rewrite Hrun. cbv beta iota. rewrite run_sync_bind, run_sync_await_all.
  cbv beta iota. unfold conclude.
  subst c0. cbn in Hs, Hc, Hcc, Htr, Hcalls, Hcl, Hop. clear Hrun.
  match goal with |- context [drain _ ?x] => set (cs := x) end.
  set (n := List.length (channelStreams s)).
  assert (Hb : shutdown_base s t0 (map closeSession keys) cs).
  { unfold shutdown_base. subst cs. cbn. repeat split.
    - constructor.
    - intros p Hp. discriminate.
    - intros p Hp. apply in_seq in Hp. lia.
    - exists (EConsole "log" "Shutting down servers..." :: l).
      rewrite Htr, <- app_assoc. split; [reflexivity | exact Hcalls]. }
  assert (Hpool : pool cs = [shutdown_task (seq 0 n) (closeServers 0%nat)])
    by reflexivity.
  assert (Hlen : List.length (map closeSession keys) = n)
    by (unfold keys, map_keys; now rewrite !length_map).
  change (microtask_budget cs) with 6%nat.
  assert (Hset : settled cs = []) by reflexivity.
  assert (Hpend : pendingExternal cs = seq 0 n) by reflexivity.
  assert (Hnp : nextPromise cs = n) by reflexivity.
  assert (Hnow : now cs = t0) by reflexivity.
  clearbody cs.
  destruct (Nat.eq_dec n 0) as [Hn | Hn].
  - (* no channel: the servers are closed in the same turn *)
    rewrite (@drain_resume B 5 cs (shutdown_task (seq 0 n) (closeServers 0%nat))
               Resolved []); [|apply Hb|].
    2:{ rewrite Hpool, Hset, Hn. reflexivity. }
    cbn [t_result t_cont shutdown_task].
    destruct (resume_servers Hb) as (Hw & Hs2 & Hnow2).
    rewrite Hnp, Hn in Hw.
    exists 1%nat. split; [lia|]. unfold shutdown_phase. rewrite Hlen, Hn.
    split; [|split; [now rewrite Hnow2 | now rewrite Hs2]].
    split; [exact Hw | reflexivity].
  - assert (Hw : shutdown_waiting s t0 (seq 0 n) (closeServers 0%nat)
                   (map closeSession keys) cs).
    { split; [exact Hb|]. split; [exact Hpool|]. split.
      - intros p Hp _. now rewrite Hpend.
      - rewrite Hset. destruct n as [|m]; [contradiction | reflexivity]. }
    rewrite drain_quiescent by exact (waiting_quiescent Hw).
    exists 0%nat. split; [lia|]. unfold shutdown_phase. rewrite Hlen.
    split; [|split; assumption]. split; assumption.
Qed.

Lemma run_app evs1 evs2 c : run' (evs1 ++ evs2) c = run' evs2 (run' evs1 c).
Proof. unfold run. apply fold_left_app. Qed.

Lemma resolutions_app (tps1 tps2 : list (Z * promise)) :
  @resolutions B (tps1 ++ tps2) = resolutions tps1 ++ resolutions tps2.
Proof. unfold resolutions. apply map_app. Qed.

Lemma phase_calls s0 t0 K k c :
  shutdown_phase s0 t0 K k c ->
  exists l, trace (st c) = trace s0 ++ l
            /\ calls l = match k with
                         | 0%nat => K
                         | _ => K ++ [serverClose false; serverClose true]
                         end.
Proof.
  destruct k as [|[|k]]; cbn.
  - intros (((_ & _ & _ & _ & _ & Hl) & _) & _). exact Hl.
  - intros (((_ & _ & _ & _ & _ & Hl) & _) & _). exact Hl.
  - intros (_ & _ & _ & Hl). exact Hl.
Qed.

(** X11.  A SIGINT at [t0] in an idle process, with [n] channels in the
    stream registry; the promises are numbered in the order of the calls
    that return them, so those of the [closeSession] calls are 0 to
    [n - 1] and those of the two servers [n] and [n + 1].  When the
    promises of all the sessions resolve, and after them those of the two
    servers, all within 5000 ms, the process exits with code 0: the two
    servers were closed after the sessions, in this order, and the exit
    timer was cleared. *)
Theorem shutdown_completes_with_code_0 s t0 tps1 tps2 :
  let keys := map_keys (channelStreams s) in
  let n := List.length keys in
  NoDup keys ->
  (forall ch, In ch keys -> closeSession_throws (bedrockClient s) ch = None) ->
  chronological t0 (@resolutions B (tps1 ++ tps2)) ->
  Forall (fun tp => fst tp <= t0 + 5000) (tps1 ++ tps2) ->
  (forall p, (p < n)%nat -> In p (map snd tps1)) ->
  In n (map snd tps2) ->
  In (S n) (map snd tps2) ->
  let c := run' (resolutions (tps1 ++ tps2))
             (step' (idle s t0) {| at_ms := t0; what := SIGINT |}) in
  exited c = Some 0
  /\ timers c = []
  /\ calls (effects_since (idle s t0) c)
     = map closeSession keys ++ [serverClose false; serverClose true].
Proof.
  intros keys n Hnd Hthrow Hchr Hbound Hall1 Hn Hsn c.
  destruct (@sigint_phase s t0 Hnd Hthrow) as (k0 & Hk0 & Hph0 & Hnow0 & Hset0).
  apply Forall_app in Hbound. destruct Hbound as [Hb1 Hb2].
  set (K := map closeSession keys) in *.
  assert (HlenK : List.length K = n) by (unfold K; now rewrite length_map).
  destruct (@phase_run s t0 K tps1 tps2 k0 _ Hph0) as
    (k1 & Hk1 & Hph1 & Hchr1 & _ & _ & Hq1).
  { intros _. rewrite Hnow0. exact Hchr. }
  { exact Hb1. }
  assert (Hk1' : (1 <= k1)%nat).
  { destruct k1 as [|k1]; [|lia]. exfalso.
    assert (k0 = 0%nat) by lia. subst k0. specialize (Hq1 eq_refl).
    destruct Hph1 as [(_ & _ & _ & Hnot) _].
    rewrite HlenK in Hnot, Hq1.
    assert (Hyes : forallb (fun p => map_has p (settled
                     (run' (resolutions tps1)
                        (step' (idle s t0) {| at_ms := t0; what := SIGINT |}))))
                     (seq 0 n) = true).
    { apply forallb_forall. intros p Hp. apply Hq1; [|exact Hp].
      apply Hall1. apply in_seq in Hp. lia. }
    congruence. }
  destruct (@phase_run s t0 K tps2 [] k1 _ Hph1) as
    (k2 & Hk2 & Hph2 & _ & _ & _ & Hq2).
  { intros Hlt. rewrite app_nil_r. exact (Hchr1 Hlt). }
  { exact Hb2. }
  assert (Hk2' : (2 <= k2)%nat).
  { destruct k2 as [|[|k2]]; [lia | | lia]. exfalso.
    assert (k1 = 1%nat) by lia. subst k1. specialize (Hq2 eq_refl).
    destruct Hph2 as [(_ & _ & _ & Hnot) _].
    rewrite HlenK in Hnot, Hq2. cbn [shutdown_awaited] in Hq2.
    cbn [forallb] in Hnot. rewrite (Hq2 n), (Hq2 (S n)) in Hnot;
      try assumption; cbn; auto. discriminate. }
  assert (Hc : c = run' (resolutions tps2)
                     (run' (resolutions tps1)
                        (step' (idle s t0) {| at_ms := t0; what := SIGINT |})))
    by (unfold c; now rewrite resolutions_app, run_app).
  rewrite <- Hc in Hph2.
  destruct (@phase_calls s t0 K k2 c Hph2) as (l & Htr & Hcalls).
  destruct k2 as [|[|k2]]; try lia.
  destruct Hph2 as (He & Htm & _ & _).
  split; [exact He|]. split; [exact Htm|].
  rewrite (@effects_since_trace B (idle s t0) c l Htr). exact Hcalls.
Qed.

Lemma first_rejected_snoc ps (l : list (promise * outcome)) q e :
  Forall (fun po => snd po = Resolved) l -> In q ps ->
  first_rejected ps (l ++ [(q, Rejected e)]) = Some (Rejected e).
Proof.
  intros Hl Hq. induction Hl as [|[p o] l Ho Hl IH]; cbn.
  - apply set_has_In in Hq. now rewrite Hq.
  - cbn in Ho. subst o. exact IH.
Qed.

(** One rejection while the handler waits. *)
Lemma waiting_reject s0 t0 ps rest done c q e t :
  shutdown_waiting s0 t0 ps rest done c ->
  now c <= t -> t <= t0 + 5000 ->
  In q ps -> map_has q (settled c) = false ->
  let c' := step' c {| at_ms := t; what := Settled q (Rejected e) |} in
  exited c' = Some 1
  /\ exists l, trace (st c') = trace s0 ++ l /\ calls l = done.
Proof.
  intros Hw Hle1 Hle2 Hq Hun c'. subst c'.
  pose proof Hw as ((He & Htm & Hres & Hfresh & Hpfresh & l & Htr & Hcalls)
                    & Hpool & Hpend & Hnot).
  rewrite step_enabled.
  2:{ unfold enabled. rewrite He, Htm. cbn. unfold forceExitMs.
      rewrite !andb_true_r. apply andb_true_intro. split; now apply Z.leb_le. }
  cbv zeta. cbn [what at_ms react].
  assert (Hp : set_has q (pendingExternal (with_now t c)) = true)
    by (apply set_has_In; apply Hpend; assumption).
  rewrite Hp.
  set (c1 := settle q (Rejected e) (with_now t c)).
  assert (Hb : microtask_budget c1 = 6%nat)
    by (unfold microtask_budget, c1; cbn [pool settle with_now];
        rewrite Hpool; reflexivity).
  rewrite Hb.
  rewrite (@drain_resume B 5 c1 (shutdown_task ps rest) (Rejected e) []);
    [|exact He|].
  2:{ unfold c1. cbn [pool settled settle with_now]. rewrite Hpool, Hun.
      cbn [find_ready shutdown_task t_wait ready].
      now rewrite (@first_rejected_snoc ps (settled c) q e Hres Hq). }
  cbn [t_result t_cont shutdown_task]. unfold start.
  rewrite shutdown_rejected. cbn [conclude].
  erewrite drain_exited by reflexivity.
  split; [reflexivity|]. cbn.
  eexists. rewrite Htr, <- app_assoc. split; [reflexivity|].
  rewrite calls_app, Hcalls. cbn. now rewrite app_nil_r.
Qed.

Lemma chronological_before (tps : list (Z * promise)) : forall t0 t q (w : @stimulus B),
  chronological t0 (resolutions tps ++ [{| at_ms := t; what := w |}]) ->
  chronological t0 (@resolutions B (tps ++ [(t, q)]))
  /\ Forall (fun tp => fst tp <= t) tps.
Proof.
  induction tps as [|[t1 q1] tps IH]; intros t0 t q w Hc.
  - cbn in *. split; [exact Hc | constructor].
  - cbn [resolutions map app chronological at_ms fst] in Hc.
    destruct Hc as [Hle Hc]. fold (@resolutions B tps) in Hc.
    destruct (IH t1 t q w Hc) as [Hc' Hb].
    split.
    + cbn [resolutions map app chronological at_ms fst]. split; [exact Hle | exact Hc'].
    + constructor; [|exact Hb]. cbn [fst].
      clear - Hc. revert t1 Hc. induction tps as [|[t2 q2] tps IH2]; intros t1 Hc.
      * cbn in Hc. lia.
      * cbn [resolutions map app chronological at_ms fst] in Hc.
        destruct Hc as [Hle Hc]. fold (@resolutions B tps) in Hc.
        specialize (IH2 t2 Hc). lia.
Qed.

(** X12.  A SIGINT at [t0] in an idle process, with [n] channels; the
    promise of the [q]-th [closeSession] call is promise [q].  When one
    of these is rejected within the 5000 ms, before it resolved and
    whichever others have resolved by then, the process exits with code
    1 at once: neither server was closed, and the sessions that were
    still closing are not waited for. *)
Theorem rejected_close_exits_with_code_1 s t0 tps q e t :
  let keys := map_keys (channelStreams s) in
  let n := List.length keys in
  NoDup keys ->
  (forall ch, In ch keys -> closeSession_throws (bedrockClient s) ch = None) ->
  chronological t0
    (@resolutions B tps ++ [{| at_ms := t; what := Settled q (Rejected e) |}]) ->
  t <= t0 + 5000 ->
  (q < n)%nat ->
  ~ In q (map snd tps) ->
  let c := run' (resolutions tps ++ [{| at_ms := t; what := Settled q (Rejected e) |}])
             (step' (idle s t0) {| at_ms := t0; what := SIGINT |}) in
  exited c = Some 1
  /\ calls (effects_since (idle s t0) c) = map closeSession keys.
Proof.
  intros keys n Hnd Hthrow Hchr Hle Hq Hfresh c.
  destruct (@sigint_phase s t0 Hnd Hthrow) as (k0 & Hk0 & Hph0 & Hnow0 & Hset0).
  destruct (@chronological_before tps t0 t q _ Hchr) as [Hchr' Hbound].
  set (K := map closeSession keys) in *.
  assert (HlenK : List.length K = n) by (unfold K; now rewrite length_map).
  destruct (@phase_run s t0 K tps [(t, q)] k0 _ Hph0) as
    (k1 & Hk1 & Hph1 & Hchr1 & _ & Hinv1 & _).
  { intros _. rewrite Hnow0. exact Hchr'. }
  { eapply Forall_impl; [|exact Hbound]. cbn. intros tp Htp. lia. }
  set (c1 := run' (resolutions tps)
               (step' (idle s t0) {| at_ms := t0; what := SIGINT |})) in *.
  assert (Hun : map_has q (settled c1) = false).
  { destruct (map_has q (settled c1)) eqn:Hx; [|reflexivity]. exfalso.
    apply Hinv1 in Hx. destruct Hx as [Hx | Hx]; [now apply Hfresh|].
    rewrite Hset0 in Hx. discriminate. }
  assert (Hk1' : k1 = 0%nat).
  { destruct k1 as [|[|k1]]; [reflexivity | exfalso | exfalso].
    - destruct Hph1 as [_ Hall]. rewrite HlenK, forallb_forall in Hall.
      rewrite Hall in Hun; [discriminate|]. apply in_seq. lia.
    - destruct Hph1 as (_ & _ & Hall & _). rewrite HlenK, forallb_forall in Hall.
      rewrite Hall in Hun; [discriminate|]. apply in_seq. lia. }
  subst k1. destruct Hph1 as [Hw _]. rewrite HlenK in Hw.
  specialize (Hchr1 ltac:(lia)). cbn in Hchr1. destruct Hchr1 as [Hnow1 _].
  assert (Hc : c = step' c1 {| at_ms := t; what := Settled q (Rejected e) |})
    by (unfold c; now rewrite run_app).
  destruct (@waiting_reject s t0 _ _ _ c1 q e t Hw Hnow1 Hle) as (He & l & Htr & Hcalls);
    [apply in_seq; lia | exact Hun |].
  rewrite <- Hc in He, Htr.
  split; [exact He|].
  rewrite (@effects_since_trace B (idle s t0) c l Htr). exact Hcalls.
Qed.
End ShutdownProgress.

(** ** The two registries of channels have the same keys *)

Section Registries.
Context {B : Type} `{NovaSonicClient B}.
Variables browser_isOn vonage_isOn : bool.
Implicit Types (c : @config B) (s : @state B).
#[local] Arguments String.append : simpl never.

Abbreviation step' := (step browser_isOn vonage_isOn).
Abbreviation run' := (run browser_isOn vonage_isOn).

Abbreviation task_ok :=
  (fun t : @task B => forall o s', registries_agree s' ->
                                   maintains (t_cont t o) registries_agree s').
Abbreviation timer_ok :=
  (fun e : @timer_entry B => forall s', registries_agree s' ->
                                        maintains (tm_callback e) registries_agree s').

Lemma maintains_run (A : Type) (p : @prog B A) :
  forall (Q : state -> Prop) c,
    maintains p Q (st c) ->
    Forall task_ok (pool c) -> Forall timer_ok (timers c) ->
    Forall task_ok (pool (fst (run_sync p c)))
    /\ Forall timer_ok (timers (fst (run_sync p c)))
    /\ match snd (run_sync p c) with
       | Exited => registries_agree (st (fst (run_sync p c)))
       | Blocked w k =>
           Q (st (fst (run_sync p c)))
           /\ forall o s', registries_agree s' ->
                           maintains (k o) registries_agree s'
       | _ => Q (st (fst (run_sync p c)))
       end.
Proof.
  induction p as [A a | A e | A code | A X f k IH | A X op k IH | A w k IH
                  | A child IHc k IH | A ms rep cb IHcb k IH];
    intros Q c Hm Hpool Htm.
  - cbn. auto.
  - cbn. auto.
  - cbn. auto.
  - cbn in Hm |- *. destruct (f (st c)) as [x s'] eqn:Hf. cbn in Hm.
    apply IH; assumption.
  - cbn in Hm |- *. destruct op; cbn; apply IH; cbn; try apply Hm; try assumption.
    clear - Htm. induction Htm as [|e l He Hl IHl]; cbn; [constructor|].
    destruct (negb (Nat.eqb (tm_id e) t)); [constructor; assumption | assumption].
  - cbn in Hm |- *. destruct Hm as [HQ Hk]. auto.
  - cbn [maintains] in Hm.
    specialize (IHc (fun s' => forall r, maintains (k r) Q s')
                    (snd (fresh_promise false c)) Hm Hpool Htm).
    assert (Heq : run_sync (Spawn child k) c
                  = let (c2, s) := run_sync child (snd (fresh_promise false c)) in
                    match s with
                    | Exited => (c2, Exited)
                    | _ => run_sync (k (nextPromise c))
                             (conclude (Some (nextPromise c)) s c2)
                    end) by reflexivity.
    rewrite Heq. clear Heq.
    destruct (run_sync child (snd (fresh_promise false c))) as [c2 s2].
    cbn [fst snd] in IHc. destruct IHc as (Hp2 & Ht2 & Hs2).
    destruct s2 as [a | e | | w k'].
    + apply IH; cbn; auto.
    + apply IH; cbn; auto.
    + cbn. auto.
    + destruct Hs2 as [HQ Hk']. apply IH; cbn; auto.
      apply Forall_app. split; [assumption|]. constructor; [exact Hk' | constructor].
  - cbn in Hm |- *. destruct Hm as [Hcb Hk]. apply IH; cbn; auto.
    apply Forall_app. split; [assumption|]. constructor; [exact Hcb | constructor].
Qed.

Lemma start_inv r (p : prog unit) c :
  agree_inv c -> maintains p registries_agree (st c) -> agree_inv (start r p c).
Proof.
  intros (Hs & Hpool & Htm) Hm. unfold start.
  pose proof (@maintains_run unit p registries_agree c Hm Hpool Htm) as Hrun.
  destruct (run_sync p c) as [c' x]. cbn [fst snd] in Hrun.
  destruct Hrun as (Hp' & Ht' & Hx). unfold agree_inv.
  destruct x as [a | e | | w k]; cbn [conclude].
  - destruct r; cbn; auto.
  - destruct r; cbn; auto.
  - auto.
  - destruct Hx as [Hx Hk]. cbn. split; [exact Hx|]. split; [|exact Ht'].
    apply Forall_app. split; [exact Hp'|]. constructor; [exact Hk | constructor].
Qed.

Lemma find_ready_ok (P : @task B -> Prop) l ts : forall t o rest,
  Forall P ts -> find_ready l ts = Some (t, o, rest) -> P t /\ Forall P rest.
Proof.
  induction ts as [|t' ts IH]; intros t o rest Hall; cbn; [discriminate|].
  apply Forall_cons_iff in Hall. destruct Hall as [Ht' Hts].
  destruct (ready l (t_wait t')) as [o'|].
  - intros Heq. injection Heq as <- <- <-. auto.
  - destruct (find_ready l ts) as [[[t1 o1] rest1]|]; [|discriminate].
    intros Heq. injection Heq as <- <- <-.
    destruct (IH t1 o1 rest1 Hts eq_refl) as [Ht1 Hrest1]. auto.
Qed.

Lemma drain_inv n c : agree_inv c -> agree_inv (drain n c).
Proof.
  apply (drain_preserves agree_inv).
  intros c0 t o rest (Hs & Hpool & Htm) He Hr.
  destruct (@find_ready_ok _ _ _ _ _ _ Hpool Hr) as [Ht Hrest].
  apply start_inv; [|apply Ht; exact Hs]. split; [exact Hs|]. split; assumption.
Qed.

(** *** Programs that leave the registries alone *)

Lemma steady_maintains (A : Type) (p : @prog B A) :
  steady p ->
  forall (Q : state -> Prop) s,
    (forall s', channelStreams s' = channelStreams s ->
                channelClients s' = channelClients s -> Q s') ->
    registries_agree s -> maintains p Q s.
Proof.
  assert (Hagree : forall s s', registries_agree s ->
            channelStreams s' = channelStreams s ->
            channelClients s' = channelClients s -> registries_agree s').
  { intros s s' Ha H1 H2 ch. rewrite H1, H2. apply Ha. }
  induction p as [A a | A e | A code | A X f k IH | A X op k IH | A w k IH
                  | A child IHc k IH | A ms rep cb IHcb k IH];
    intros Hst Q s HQ Ha; cbn [maintains steady] in *.
  - auto.
  - auto.
  - exact Ha.
  - destruct Hst as [Hf Hk]. destruct (Hf s) as [H1 H2].
    apply IH; [apply Hk | | eapply Hagree; eauto].
    intros s' H1' H2'. apply HQ; congruence.
  - intros x. apply IH; auto.
  - split; [auto|]. intros o s' Ha'. apply IH; auto.
    intros s'' H1 H2. eapply Hagree; eauto.
  - destruct Hst as [Hc Hk]. apply IHc; [exact Hc | | exact Ha].
    intros s' H1 H2 r. apply IH; [apply Hk | | eapply Hagree; eauto].
    intros s'' H1' H2'. apply HQ; congruence.
  - destruct Hst as [Hc Hk]. split.
    + intros s' Ha'. apply IHcb; auto. intros s'' H1 H2. eapply Hagree; eauto.
    + intros t. apply IH; auto.
Qed.

Lemma steady_bind A C (m : @prog B A) (f : A -> @prog B C) :
  steady m -> (forall a, steady (f a)) -> steady (bind m f).
Proof.
  intros Hm Hf.
  induction m as [A a | A e | A code | A X g k IH | A X op k IH | A w k IH
                  | A child IHc k IH | A ms rep cb IHcb k IH];
    cbn [bind steady] in *; auto.
  - destruct Hm as [Hg Hk]. split; [exact Hg|]. auto.
  - destruct Hm as [Hc Hk]. split; [exact Hc|]. auto.
  - destruct Hm as [Hc Hk]. split; [exact Hc|]. auto.
Qed.

Lemma steady_try_catch A (m : @prog B A) (h : exn -> @prog B A) :
  steady m -> (forall e, steady (h e)) -> steady (try_catch m h).
Proof.
  intros Hm Hh.
  induction m as [A a | A e | A code | A X g k IH | A X op k IH | A w k IH
                  | A child IHc k IH | A ms rep cb IHcb k IH];
    cbn [try_catch steady] in *; auto.
  - destruct Hm as [Hg Hk]. split; [exact Hg|]. auto.
  - destruct Hm as [Hc Hk]. split; [exact Hc|]. auto.
  - destruct Hm as [Hc Hk]. split; [exact Hc|]. auto.
Qed.

Lemma steady_for_each X (l : list X) (body : X -> @prog B unit) :
  (forall x, steady (body x)) -> steady (for_each l body).
Proof.
  intros Hb. induction l as [|x l IH]; cbn [for_each]; [exact I|].
  apply steady_bind; auto.
Qed.

Ltac steady_parts :=
  repeat first
    [ exact I
    | progress intros
    | apply steady_bind
    | apply steady_try_catch
    | apply steady_for_each
    | match goal with
      | |- _ /\ _ => split
      | |- steady (resume ?o) => destruct o
      | |- steady (match novaSonicHandlers ?t with _ => _ end) =>
          destruct (novaSonicHandlers t) eqn:?
      | |- steady (match ?x with _ => _ end) => destruct x
      | |- steady (if ?x then _ else _) => destruct x
      | |- steady (let '(_, _) := ?x in _) => destruct x
      end
    | reflexivity
    | progress cbn [steady get modify skip console ws_send ws_close call await
                    await_race await_all await_session resume sendError bind
                    createStreamSession_ closeSession_ fst snd] ].

Lemma steady_broadcast (clients : jsset socket) m : steady (@broadcast B clients m).
Proof. unfold broadcast. steady_parts. Qed.

Lemma steady_send_chunks fuel pcm (clients : jsset socket) offset :
  steady (@send_chunks B fuel pcm clients offset).
Proof.
  revert offset. induction fuel as [|fuel IH]; intros offset; cbn [send_chunks].
  - exact I.
  - destruct (_ <=? _)%nat; [|exact I].
    apply steady_bind; [apply steady_broadcast | intros _; apply IH].
Qed.

Lemma steady_emit_session_event sess eventName data :
  steady (@emit_session_event B sess eventName data).
Proof.
  unfold emit_session_event. cbn [get bind steady]. split; [auto|]. intros ls.
  apply steady_for_each. intros [[s' n] l]. destruct l; cbn [run_listener].
  - unfold onSessionEvent. steady_parts; apply steady_broadcast.
  - unfold onStreamComplete. steady_parts; apply steady_broadcast.
  - unfold onAudioOutput. steady_parts; apply steady_send_chunks.
Qed.

Lemma steady_novaSonicHandlers type_ handler jsonMsg sess :
  novaSonicHandlers type_ = Some handler -> steady (handler jsonMsg sess).
Proof.
  unfold novaSonicHandlers. intros Hh.
  repeat match type of Hh with
         | (if ?b then _ else _) = _ => destruct b
         end;
    try discriminate; injection Hh as <-; steady_parts.
Qed.

Lemma steady_handleMessage ws msg :
  steady (handleMessage browser_isOn vonage_isOn ws msg).
Proof.
  unfold handleMessage, browser_tryProcessAudioInput, vonage_tryProcessAudioInput,
    tryProcessNovaSonicMessage.
  steady_parts. eapply steady_novaSonicHandlers. eassumption.
Qed.

Lemma steady_sessionCleanup : steady (@sessionCleanup B H).
Proof. unfold sessionCleanup, closeIfInactive. steady_parts. Qed.

Lemma steady_closeAllChannels entries acc :
  steady (@closeAllChannels B H entries acc).
Proof.
  revert acc. induction entries as [|[ch sess] entries IH]; intros acc;
    cbn [closeAllChannels]; [exact I|].
  steady_parts. apply IH.
Qed.

Lemma steady_onSIGINT : steady (@onSIGINT B H).
Proof.
  unfold onSIGINT, closeServers, finishShutdown, onShutdownError, forceExit.
  steady_parts. apply steady_closeAllChannels.
Qed.

Lemma steady_gracefulCleanup sess : steady (@gracefulCleanup B H sess).
Proof. unfold gracefulCleanup. steady_parts. Qed.

(** *** The handlers that change the registries *)

Lemma map_has_set (V : Type) (k k' : string) (v : V) m :
  map_has k (map_set k' v m) = String.eqb k k' || map_has k m.
Proof.
  unfold map_has. destruct (String.eqb_spec k k') as [-> | Hne].
  - now rewrite map_get_set_eq.
  - now rewrite map_get_set_neq.
Qed.

Lemma map_has_delete (V : Type) (k k' : string) (m : jsmap string V) :
  map_has k (map_delete k' m) = negb (String.eqb k k') && map_has k m.
Proof.
  unfold map_has. destruct (String.eqb_spec k k') as [-> | Hne].
  - now rewrite map_get_delete_eq.
  - now rewrite map_get_delete_neq.
Qed.

Ltac registries :=
  cbn [channelStreams channelClients with_channelStreams with_channelClients
       with_clientChannels with_readyState with_listeners with_bedrockClient
       with_nextSession emit fst snd].

Ltac registries_in Hx :=
  cbn [channelStreams channelClients with_channelStreams with_channelClients
       with_clientChannels with_readyState with_listeners with_bedrockClient
       with_nextSession emit fst snd] in Hx.

Ltac agree :=
  match goal with
  | |- registries_agree _ =>
      let ch' := fresh "ch'" in
      intros ch'; registries;
      repeat first [rewrite map_has_set | rewrite map_has_delete];
      repeat match goal with
             | Ha : registries_agree _ |- _ => pose proof (Ha ch'); clear Ha
             end;
      repeat match goal with
             | Hx : map_get _ _ = _ |- _ => progress registries_in Hx
             | Hx : map_has _ _ = _ |- _ => progress registries_in Hx
             end;
      repeat match goal with
             | Hx : map_get ?k ?m = Some _ |- _ =>
                 assert (map_has k m = true)
                   by (unfold map_has; rewrite Hx; reflexivity);
                 clear Hx
             | Hx : map_get ?k ?m = None |- _ =>
                 assert (map_has k m = false)
                   by (unfold map_has; rewrite Hx; reflexivity);
                 clear Hx
             end;
      try match goal with
          | |- context [String.eqb ch' ?c] =>
              destruct (String.eqb_spec ch' c); subst
          end;
      cbn [orb andb negb]; unfold jsset in *; congruence
  end.

Ltac maintain_step :=
  first
    [ agree
    | progress intros
    | match goal with |- _ /\ _ => split end
    | progress cbn
    | match goal with
      | |- maintains ?p _ _ =>
          match p with
          | context [resume ?o] => is_var o; destruct o
          | context [if ?b then _ else _] => destruct b eqn:?
          | context [match ?x with _ => _ end] => destruct x eqn:?
          end
      end ].

Lemma maintains_onSocket ws channel uuid s :
  registries_agree s -> maintains (@onSocket B H ws channel uuid) registries_agree s.
Proof.
  intros Ha. unfold onSocket. generalize (resolve_channel channel uuid) as ch.
  intros ch. unfold initializeOrJoinChannel, attachClient, openNewChannel.
  repeat maintain_step.
Qed.

Lemma maintains_handleClose ws s :
  registries_agree s -> maintains (@handleClose B H ws) registries_agree s.
Proof.
  intros Ha. unfold handleClose, cleanupChannel, gracefulCleanup, forceClose,
    removeChannel, closeSession_.
  repeat maintain_step.
Qed.

Lemma steady_agree (p : @prog B unit) s :
  steady p -> registries_agree s -> maintains p registries_agree s.
Proof.
  intros Hp Ha. apply steady_maintains; [exact Hp | | exact Ha].
  intros s' H1 H2 ch. rewrite H1, H2. apply Ha.
Qed.

(** *** Every turn of the event loop *)

Lemma react_inv w c :
  agree_inv c -> agree_inv (react browser_isOn vonage_isOn w c).
Proof.
  intros Hinv. pose proof Hinv as (Hs & Hpool & Htm).
  destruct w; cbn [react].
  - apply start_inv; [exact Hinv | now apply maintains_onSocket].
  - apply start_inv; [exact Hinv | apply steady_agree; [apply steady_handleMessage | exact Hs]].
  - apply start_inv; [exact Hinv | now apply maintains_handleClose].
  - apply start_inv;
      [exact Hinv | apply steady_agree; [apply steady_emit_session_event | exact Hs]].
  - destruct (set_has p (pendingExternal c)); exact Hinv.
  - destruct (find_timer t c) as [e|] eqn:He; [|exact Hinv].
    assert (Hcb : timer_ok e).
    { unfold find_timer in He. apply find_some in He. destruct He as [Hin _].
      rewrite Forall_forall in Htm. now apply Htm. }
    unfold fire. apply start_inv; [|apply Hcb; destruct (tm_period e); exact Hs].
    assert (Hrm : Forall timer_ok (timers (remove_timer (tm_id e) c))).
    { cbn. clear - Htm. induction Htm as [|e' l He' Hl IHl]; cbn; [constructor|].
      destruct (negb (Nat.eqb (tm_id e') (tm_id e))); [constructor; assumption | assumption]. }
    destruct (tm_period e); split; try exact Hs; split; try exact Hpool; try exact Hrm.
    cbn [timers with_timers]. apply Forall_app. split; [exact Hrm|].
    constructor; [exact Hcb | constructor].
  - apply start_inv; [exact Hinv | apply steady_agree; [apply steady_onSIGINT | exact Hs]].
  - exact Hinv.
  - exact Hinv.
Qed.

Lemma step_inv c ev : agree_inv c -> agree_inv (step' c ev).
Proof.
  intros Hinv. unfold step. destruct (enabled ev c); [|exact Hinv].
  apply drain_inv. apply react_inv. exact Hinv.
Qed.

Lemma run_inv evs : forall c, agree_inv c -> agree_inv (run' evs c).
Proof.
  induction evs as [|ev evs IH]; intros c Hinv; [exact Hinv|].
  rewrite run_cons. apply IH. now apply step_inv.
Qed.

(** X13.  In every state that the server reaches, whatever the clients,
    the collaborators and the timers do, [channelStreams] and
    [channelClients] have the same channel ids: from start-up, and from
    any idle state in which they agree.  So [GET /channels], which lists
    [channelClients], lists exactly the channels that have a session in
    [channelStreams]. *)
Theorem registries_always_agree evs :
  (forall b t ch,
      let s := st (run' evs (boot b t)) in
      map_has ch (channelStreams s) = map_has ch (channelClients s)
      /\ (In ch (map id (getChannels s)) <-> map_has ch (channelStreams s) = true))
  /\ (forall s0 t ch,
        registries_agree s0 ->
        let s := st (run' evs (idle s0 t)) in
        map_has ch (channelStreams s) = map_has ch (channelClients s)
        /\ (In ch (map id (getChannels s)) <-> map_has ch (channelStreams s) = true)).
Proof.
  assert (Hlisted : forall s ch, registries_agree s ->
            map_has ch (channelStreams s) = map_has ch (channelClients s)
            /\ (In ch (map id (getChannels s)) <-> map_has ch (channelStreams s) = true)).
  { intros s ch Ha. split; [apply Ha|]. rewrite (Ha ch), map_has_get, <- map_get_keys.
    unfold getChannels, map_keys. rewrite map_map.
    assert (Heq : map (fun x => id (let '(channelId, clients) := x in
                       {| id := channelId; clientCount := List.length (clients : jsset socket);
                          active := isSessionActive (bedrockClient s) channelId |}))
                    (channelClients s)
                  = map fst (channelClients s))
      by (apply map_ext; intros [k v]; reflexivity).
    rewrite Heq. reflexivity. }
  split.
  - intros b t ch s. apply Hlisted.
    apply (@run_inv evs (boot b t)). unfold boot. apply start_inv.
    + repeat split; try constructor.
    + unfold main. cbn [maintains bind skip]. split; [|intros _ ch'; reflexivity].
      intros s' Hs'. apply steady_agree; [apply steady_sessionCleanup | exact Hs'].
  - intros s0 t ch Ha s. apply Hlisted.
    apply (@run_inv evs (idle s0 t)). split; [exact Ha|]. split; constructor.
Qed.
End Registries.

(** ** More scenarios *)

(** The life of the message handler on [stop_audio] when the session
    rejects [endAudioContent]. *)
Lemma stop_audio_life :
  exists l,
    lives (handleMessage false false 1%nat stop_audio) (idle two_clients 0) l
      (Finished tt).
Proof.
  eexists.
  eapply (@lives_on SpecClient unit _ (idle two_clients 0) _ _ _
            endAudioContent_rejected (idle two_clients 10)).
  - cbn. reflexivity.
  - eapply lives_end; [cbn; reflexivity | exact I].
Defined.

Lemma stop_audio_life_by :
  exists l,
    lives_by (handleMessage false false 1%nat stop_audio) (idle two_clients 0)
      [endAudioContent_rejected] l (Finished tt).
Proof.
  eexists.
  eapply (@lives_by_on SpecClient unit _ (idle two_clients 0) _ _ _
            endAudioContent_rejected (idle two_clients 10)).
  - cbn. reflexivity.
  - eapply lives_by_end; [cbn; reflexivity | exact I].
Defined.

(** X2 on [stop_audio] from the client 1 of "abc", when the session
    rejects the call. *)
Lemma rejected_stop_audio_is_not_answered :
  (map_get 1%nat (clientChannels two_clients) = Some "abc"%string
   /\ String.eqb "abc" "" = false
   /\ map_get "abc"%string (channelStreams two_clients) = Some 0%nat)
  /\ exists l,
       lives (handleMessage false false 1%nat stop_audio) (idle two_clients 0) l
         (Finished tt)
       /\ sends l = [].
Proof.
  split.
  { exact (conj eq_refl (conj eq_refl eq_refl)). }
  destruct stop_audio_life as [l Hl]. exists l. split; [exact Hl|].
  exact (proj2 (@handleMessage_swallows_errors SpecClient _ false false 1%nat stop_audio
                  "abc"%string 0%nat (idle two_clients 0) l (Finished tt)
                  eq_refl eq_refl eq_refl Hl)).
Defined.

(** X5 on the same message. *)
Lemma rejected_stop_audio_calls_once :
  (map_get 1%nat (clientChannels two_clients) = Some "abc"%string
   /\ String.eqb "abc" "" = false
   /\ map_get "abc"%string (channelStreams two_clients) = Some 0%nat)
  /\ exists l,
       lives_by (handleMessage false false 1%nat stop_audio) (idle two_clients 0)
         [endAudioContent_rejected] l (Finished tt)
       /\ calls l = [sessionCall 0%nat endAudioContent].
Proof.
  split.
  { exact (conj eq_refl (conj eq_refl eq_refl)). }
  destruct stop_audio_life_by as [l Hl]. exists l. split; [exact Hl|].
  exact (proj1 (@handleMessage_upstream_calls SpecClient _ false false 1%nat stop_audio
                  "abc"%string 0%nat (idle two_clients 0)
                  [endAudioContent_rejected] l (Finished tt)
                  eq_refl eq_refl eq_refl Hl)).
Defined.

(** X3 on the client 1 of "abc", which leaves the client 2 behind. *)
Lemma first_of_two_clients_leaves :
  (map_get 1%nat (clientChannels two_clients) = Some "abc"%string
   /\ String.eqb "abc" "" = false
   /\ map_get "abc"%string (channelClients two_clients) = Some [1%nat; 2%nat]
   /\ set_delete 1%nat [1%nat; 2%nat] <> [])
  /\ exists c',
       run_sync (handleClose 1%nat) (idle two_clients 0) = (c', Finished tt)
       /\ channelClients (st c') = [("abc"%string, [2%nat])]
       /\ channelStreams (st c') = [("abc"%string, 0%nat)].
Proof.
  assert (Hleft : set_delete 1%nat [1%nat; 2%nat] <> []) by discriminate.
  split.
  { exact (conj eq_refl (conj eq_refl (conj eq_refl Hleft))). }
  destruct (@close_of_one_of_several SpecClient _ 1%nat "abc"%string [1%nat; 2%nat]
              (idle two_clients 0) eq_refl eq_refl eq_refl Hleft)
    as (c' & Hrun & Hclients & _ & Hstreams & _).
  exists c'. split; [exact Hrun|]. split; [exact Hclients | exact Hstreams].
Defined.

(** X4 on the last client of "abc" after its session was reaped. *)
Lemma last_client_of_reaped_channel_leaves :
  (map_get 1%nat (clientChannels (st reaped_abc)) = Some "abc"%string
   /\ String.eqb "abc" "" = false
   /\ map_get "abc"%string (channelClients (st reaped_abc)) = Some [1%nat]
   /\ set_delete 1%nat [1%nat] = []
   /\ isSessionActive (bedrockClient (st reaped_abc)) "abc" = false)
  /\ exists c',
       run_sync (handleClose 1%nat) reaped_abc = (c', Finished tt)
       /\ channelStreams (st c') = []
       /\ channelClients (st c') = []
       /\ calls (effects_since reaped_abc c') = [].
Proof.
  assert (H1 : map_get 1%nat (clientChannels (st reaped_abc)) = Some "abc"%string)
    by (vm_compute; reflexivity).
  assert (H3 : map_get "abc"%string (channelClients (st reaped_abc)) = Some [1%nat])
    by (vm_compute; reflexivity).
  assert (H5 : isSessionActive (bedrockClient (st reaped_abc)) "abc" = false)
    by (vm_compute; reflexivity).
  split.
  { exact (conj H1 (conj eq_refl (conj H3 (conj eq_refl H5)))). }
  destruct (@close_of_last_client_without_session SpecClient _ 1%nat "abc"%string
              [1%nat] reaped_abc H1 eq_refl H3 eq_refl (or_intror H5))
    as (c' & Hrun & Hstreams & Hclients & _ & Hcalls & _).
  exists c'. split; [exact Hrun|].
  split; [rewrite Hstreams; vm_compute; reflexivity|].
  split; [rewrite Hclients; vm_compute; reflexivity | exact Hcalls].
Defined.

(** X10 on the client 2, which connects to "abc" 100 ms after its last
    client left, and writes after the timer of the teardown fired. *)
Lemma late_joiner_of_abc :
  (map_get 1%nat (clientChannels last_client) = Some "abc"%string
   /\ String.eqb "abc" "" = false
   /\ map_get "abc"%string (channelClients last_client) = Some [1%nat]
   /\ map_get "abc"%string (channelStreams last_client) = Some 0%nat
   /\ isSessionActive (bedrockClient last_client) "abc" = true
   /\ Forall env_only (@nil (@event SpecClient))
   /\ tv_phase (teardown_spec 0 (@nil (@event SpecClient))) = Graceful 1
   /\ 2%nat <> 1%nat
   /\ resolve_channel (Some "abc"%string) "uuid-2" = "abc"%string
   /\ tv_now (teardown_spec 0 (@nil (@event SpecClient))) <= 100 <= 0 + 3000
   /\ 0 + 3000 <= 4000)
  /\ let c0 := run true true [{| at_ms := 0; what := SocketClosed 1%nat |}]
                 (idle last_client 0) in
     let c1 := step true true c0
                 {| at_ms := 100;
                    what := Connection 2%nat (Some "abc"%string) "uuid-2"%string |} in
     let c2 := step true true c1 {| at_ms := 0 + 3000; what := TimerDue 0%nat |} in
     let c3 := step true true c2 {| at_ms := 4000; what := Message 2%nat not_json |} in
     map_get 2%nat (clientChannels (st c2)) = Some "abc"%string
     /\ map_get "abc"%string (channelStreams (st c2)) = None
     /\ sends (effects_since c2 c3)
        = [(2%nat, MError "Session not found" "No active session for this channel")].
Proof.
  assert (Hevs : Forall env_only (@nil (@event SpecClient))) by constructor.
  assert (Hws : 2%nat <> 1%nat) by discriminate.
  assert (Ht1 : tv_now (teardown_spec 0 (@nil (@event SpecClient))) <= 100 <= 0 + 3000)
    by (cbn; lia).
  assert (Ht2 : 0 + 3000 <= 4000) by lia.
  split.
  { exact (conj eq_refl (conj eq_refl (conj eq_refl (conj eq_refl (conj eq_refl
            (conj Hevs (conj eq_refl (conj Hws (conj eq_refl (conj Ht1 Ht2)))))))))). }
  pose proof (@late_joiner_is_orphaned SpecClient _ true true last_client 0 1%nat
                "abc"%string 0%nat [] 1%nat 2%nat (Some "abc"%string) "uuid-2"%string
                100 4000 not_json eq_refl eq_refl eq_refl eq_refl eq_refl Hevs eq_refl
                Hws eq_refl Ht1 Ht2) as Hthm.
  cbv zeta in Hthm.
  destruct Hthm as (_ & _ & _ & Hs2 & _ & Hw2 & _ & _ & Hsend & _).
  cbv zeta. split; [exact Hw2|]. split; [exact Hs2 | exact Hsend].
Defined.

(** X11 on two channels, whose sessions and then the servers are closed
    in time. *)
Lemma shutdown_of_two_channels_exits_0 :
  (NoDup (map_keys (channelStreams two_channels))
   /\ (forall ch, In ch (map_keys (channelStreams two_channels)) ->
                  closeSession_throws (bedrockClient two_channels) ch = None)
   /\ chronological 0 (@resolutions SpecClient (sessions_closed ++ servers_closed))
   /\ Forall (fun tp => fst tp <= 0 + 5000) (sessions_closed ++ servers_closed)
   /\ (forall p, (p < 2)%nat -> In p (map snd sessions_closed))
   /\ In 2%nat (map snd servers_closed)
   /\ In 3%nat (map snd servers_closed))
  /\ let c := run true true (resolutions (sessions_closed ++ servers_closed))
                (step true true (idle two_channels 0) {| at_ms := 0; what := SIGINT |}) in
     exited c = Some 0
     /\ calls (effects_since (idle two_channels 0) c)
        = [closeSession "abc"; closeSession "xyz"; serverClose false; serverClose true].
Proof.
  assert (Hnd : NoDup (map_keys (channelStreams two_channels))).
  { vm_compute. repeat constructor; cbn; intuition discriminate. }
  assert (Hthrow : forall ch, In ch (map_keys (channelStreams two_channels)) ->
                     closeSession_throws (bedrockClient two_channels) ch = None)
    by (intros ch _; reflexivity).
  assert (Hchr : chronological 0
                   (@resolutions SpecClient (sessions_closed ++ servers_closed)))
    by (cbn; lia).
  assert (Hbound : Forall (fun tp => fst tp <= 0 + 5000)
                     (sessions_closed ++ servers_closed))
    by (repeat constructor; cbn; lia).
  assert (Hall : forall p, (p < 2)%nat -> In p (map snd sessions_closed))
    by (intros [|[|p]] Hp; cbn; auto; lia).
  assert (H2 : In 2%nat (map snd servers_closed)) by (cbn; auto).
  assert (H3 : In 3%nat (map snd servers_closed)) by (cbn; auto).
  split.
  { exact (conj Hnd (conj Hthrow (conj Hchr (conj Hbound (conj Hall (conj H2 H3)))))). }
  pose proof (@shutdown_completes_with_code_0 SpecClient _ true true
                sc_close_keeps_throws two_channels 0 sessions_closed servers_closed
                Hnd Hthrow Hchr Hbound Hall H2 H3) as Hthm.
  cbv zeta in Hthm. destruct Hthm as (He & _ & Hcalls).
  cbv zeta. split; [exact He | exact Hcalls].
Defined.

(** X12 on two channels: the session of "abc" is closed, the close of
    "xyz" is rejected. *)
Lemma shutdown_of_two_channels_exits_1 :
  let rejected := {| at_ms := 7;
                     what := @Settled SpecClient 1%nat (Rejected (JsError "close failed")) |} in
  (NoDup (map_keys (channelStreams two_channels))
   /\ (forall ch, In ch (map_keys (channelStreams two_channels)) ->
                  closeSession_throws (bedrockClient two_channels) ch = None)
   /\ chronological 0 (resolutions [(5, 0%nat)] ++ [rejected])
   /\ 7 <= 0 + 5000
   /\ (1 < 2)%nat
   /\ ~ In 1%nat (map snd [(5, 0%nat)]))
  /\ let c := run true true (resolutions [(5, 0%nat)] ++ [rejected])
                (step true true (idle two_channels 0) {| at_ms := 0; what := SIGINT |}) in
     exited c = Some 1
     /\ calls (effects_since (idle two_channels 0) c)
        = [closeSession "abc"; closeSession "xyz"].
Proof.
  intros rejected.
  assert (Hnd : NoDup (map_keys (channelStreams two_channels))).
  { vm_compute. repeat constructor; cbn; intuition discriminate. }
  assert (Hthrow : forall ch, In ch (map_keys (channelStreams two_channels)) ->
                     closeSession_throws (bedrockClient two_channels) ch = None)
    by (intros ch _; reflexivity).
  assert (Hchr : chronological 0 (resolutions [(5, 0%nat)] ++ [rejected]))
    by (cbn; lia).
  assert (Hle : 7 <= 0 + 5000) by lia.
  assert (Hq : (1 < 2)%nat) by lia.
  assert (Hfresh : ~ In 1%nat (map snd [(5, 0%nat)])) by (cbn; intuition discriminate).
  split.
  { exact (conj Hnd (conj Hthrow (conj Hchr (conj Hle (conj Hq Hfresh))))). }
  pose proof (@rejected_close_exits_with_code_1 SpecClient _ true true
                sc_close_keeps_throws two_channels 0 [(5, 0%nat)] 1%nat
                (JsError "close failed") 7 Hnd Hthrow Hchr Hle Hq Hfresh) as Hthm.
  cbv zeta in Hthm. destruct Hthm as (He & Hcalls).
  cbv zeta. split; [exact He | exact Hcalls].
Defined.

(** X14 on the client 1, which opens "abc" and writes 5 ms later. *)
Lemma early_message_on_abc :
  let s := initial_state sc_empty in
  (map_has (resolve_channel (Some "abc"%string) "uuid-1") (channelStreams s) = false
   /\ map_get 1%nat (clientChannels s) = None
   /\ 0 <= 5)
  /\ let c1 := step true true (idle s 0)
                 {| at_ms := 0;
                    what := Connection 1%nat (Some "abc"%string) "uuid-1" |} in
     let c2 := step true true c1 {| at_ms := 5; what := Message 1%nat not_json |} in
     sends (effects_since c1 c2)
     = [(1%nat, MError "Channel not found" "No active channel for this connection")]
     /\ calls (effects_since c1 c2) = [].
Proof.
  intros s.
  assert (Ht : 0 <= 5) by lia.
  split.
  { exact (conj eq_refl (conj eq_refl Ht)). }
  pose proof (@message_during_handshake_is_refused SpecClient _ true true s 0 1%nat
                (Some "abc"%string) "uuid-1"%string not_json 5 eq_refl eq_refl Ht)
    as Hthm.
  cbv zeta in Hthm. destruct Hthm as (_ & _ & Hsend & Hcalls & _).
  cbv zeta. split; [exact Hsend | exact Hcalls].
Defined.
